(** * telegram_media_downloader: the batch download orchestrator

    A shallow embedding of [media_handler.py] and [media_downloader.py]:
    the naming resolver ([_get_media_meta]), the format filter
    ([_can_download]), the per-message retry loop ([download_media]), the
    page orchestrator ([process_messages]) and the pagination loop
    ([begin_import]), followed by the properties of the specification. *)

From Stdlib Require Import ZArith List String Ascii Bool Lia Sorted.
From Stdlib Require Import DecimalString.
Import ListNotations.

Local Open Scope string_scope.
Local Open Scope Z_scope.

(** ** Python primitives used by the source *)

Module Py.

(** The exception classes that [download_media] tells apart, in the order
    of its [except] clauses: [pyrogram ... BadRequest], [TypeError], and
    every other [Exception]. *)
Inductive exn : Type :=
| BadRequest
| TypeError
| OtherException.

(** A computation without side effect that may raise. *)
Inductive res (A : Type) : Type :=
| Ok (a : A)
| Raise (e : exn).
Arguments Ok {A} a.
Arguments Raise {A} e.

Definition res_bind {A B : Type} (r : res A) (k : A -> res B) : res B :=
  match r with
  | Ok a => k a
  | Raise e => Raise e
  end.

(** [str(n)] for an [int]. *)
Definition str_int (z : Z) : string := NilZero.string_of_int (Z.to_int z).

(** [str(x)] for an [Optional[int]]: [str(None)] is the text [None]. *)
Definition str (x : option Z) : string :=
  match x with
  | Some z => str_int z
  | None => "None"
  end.

(** Truth value of a [str]: only the empty string is false. *)
Definition truthy (s : string) : bool := negb (s =? "")%string.

(** [a or b] where [a] is a [str]. *)
Definition or_str (a b : string) : string := if truthy a then a else b.

(** [a or b] where both are [Optional[str]]: [None] and the empty string
    are false. *)
Definition or_opt (a b : option string) : option string :=
  match a with
  | Some s => if truthy s then a else b
  | None => b
  end.

Fixpoint has_slash (s : string) : bool :=
  match s with
  | EmptyString => false
  | String c r => (c =? "/")%char || has_slash r
  end.

(** [s.split("/")[-1]]: what follows the last slash, the whole string
    when there is none. *)
Fixpoint split_last (s : string) : string :=
  match s with
  | EmptyString => EmptyString
  | String c r =>
      if has_slash r then split_last r
      else if (c =? "/")%char then r else s
  end.

Definition startswith_sep (s : string) : bool :=
  match s with
  | String c _ => (c =? "/")%char
  | EmptyString => false
  end.

Fixpoint endswith_sep (s : string) : bool :=
  match s with
  | EmptyString => false
  | String c EmptyString => (c =? "/")%char
  | String _ r => endswith_sep r
  end.

(** One round of the loop of [posixpath.join]. *)
Definition join_step (path b : string) : string :=
  if startswith_sep b then b
  else if negb (truthy path) || endswith_sep path then path ++ b
  else path ++ "/" ++ b.

(** [os.path.join(a, *p)] on a POSIX system. *)
Definition os_path_join (a : string) (p : list string) : string :=
  fold_left join_step p a.

(** [x in l] for a list of strings; [None in l] is false. *)
Definition str_in (x : option string) (l : list string) : bool :=
  match x with
  | Some s => existsb (String.eqb s) l
  | None => false
  end.

Definition name_in (s : string) (l : list string) : bool :=
  existsb (String.eqb s) l.

(** [max(l)] on a list of [int]: raises [ValueError] on the empty list,
    which is [None] here. *)
Definition max (l : list Z) : option Z :=
  match l with
  | [] => None
  | x :: r => Some (fold_left Z.max r x)
  end.

(** An attribute of an object: [Absent] when the class of the object has no
    such attribute, so that reading it raises [AttributeError]; [Has v]
    when it has, with [v = None] for the value [None]. *)
Inductive attribute (A : Type) : Type :=
| Absent
| Has (v : option A).
Arguments Absent {A}.
Arguments Has {A} v.

(** [obj.name]: [AttributeError] is an exception of the last handler. *)
Definition read {A : Type} (a : attribute A) : res (option A) :=
  match a with
  | Absent => Raise OtherException
  | Has v => Ok v
  end.

End Py.

Import Py.

Notation "x <-! r ; k" := (res_bind r (fun x => k))
  (at level 61, r at next level, right associativity).

(** ** Data model *)

(** A media object of pyrogram ([Audio], [Document], [Photo], [Video],
    [Voice]) with the attributes the source reads.  [mime_type] is an
    attribute that not every media class has: a [Photo] has none, and
    reading it from a photo raises [AttributeError].  [date] and
    [file_unique_id] are attributes of all five classes.  [file_name] is
    only ever read by [getattr(media_obj, "file_name", None)], for which an
    object without the attribute and one whose attribute is [None] are the
    same. *)
Record MediaObj : Type := {
  mime_type : attribute string;
  date : option Z;
  file_name : option string;
  file_unique_id : option string;
  file_id : string;
  thumbs : option (list string)
}.

(** A message: [message.media] is [None] exactly when [media] is [false];
    [attr _type] is [getattr(message, _type, None)]; [chat_id] is
    [message.chat.id], which every message of a chat history has. *)
Record Message : Type := {
  message_id : Z;
  media : bool;
  chat_id : Z;
  attr : string -> option MediaObj
}.

(** [StaticInfo.THIS_DIR] and [StaticInfo.CHAT_ID], fixed during a run, and
    [datetime.utcfromtimestamp(d).isoformat()], which raises out of range. *)
Record NameEnv : Type := {
  THIS_DIR : string;
  CHAT_ID : string;
  utc_isoformat : Z -> res string
}.

(** ** Naming resolver: [_get_media_meta] *)

(** [media_obj.mime_type.split("/")[-1]] *)
Definition mime_suffix (media_obj : MediaObj) : res string :=
  m <-! read (mime_type media_obj) ;
  match m with
  | Some s => Ok (split_last s)
  | None => Raise OtherException (* AttributeError on None.split *)
  end.

Definition _get_media_meta (E : NameEnv) (media_obj : MediaObj) (_type : string)
  : res (string * option string) :=
  (* line 159: the log line reads [media_obj.mime_type] for every type *)
  _ <-! read (mime_type media_obj) ;
  file_format <-!
    (if name_in _type ["audio"; "document"; "video"]
     then (f <-! mime_suffix media_obj ; Ok (Some f))
     else Ok None) ;
  if (_type =? "voice")%string then
    f <-! mime_suffix media_obj ;
    iso <-! match date media_obj with
            | Some d => utc_isoformat E d
            | None => Raise TypeError
            end ;
    Ok (os_path_join (THIS_DIR E)
          [CHAT_ID E; _type; "voice_" ++ iso ++ "." ++ f], Some f)
  else if (_type =? "photo")%string
          && match file_name media_obj with None => true | Some _ => false end
  then
    let file_name0 :=
      os_path_join (THIS_DIR E)
        [CHAT_ID E; _type; or_str (str (date media_obj)) ""] in
    Ok (file_name0
          ++ match or_opt (file_unique_id media_obj) (Some "") with
             | Some u => u
             | None => ""
             end
          ++ ".jpg", file_format)
  else
    match or_opt (file_name media_obj) (file_unique_id media_obj) with
    | Some n =>
        Ok (os_path_join (THIS_DIR E)
              [CHAT_ID E; _type; str (date media_obj) ++ "-" ++ n],
            file_format)
    | None => Raise TypeError (* str + None *)
    end.

(** ** Format filter: [_can_download] *)

(** [file_formats] is the configuration dictionary: [None] is a missing key
    ([KeyError]); [allowed_formats[0]] on an empty list is [IndexError]. *)
Definition _can_download (_type : string)
    (file_formats : string -> option (list string))
    (file_format : option string) : res bool :=
  if name_in _type ["audio"; "document"; "video"] then
    match file_formats _type with
    | None => Raise OtherException
    | Some allowed_formats =>
        if negb (str_in file_format allowed_formats) then
          match allowed_formats with
          | [] => Raise OtherException
          | first :: _ =>
              if negb (first =? "all")%string then Ok false else Ok true
          end
        else Ok true
    end
  else Ok true.

(** ** The world outside: the Telegram client and the file system *)

(** What a download call is given: the message, a file id, or a thumbnail. *)
Inductive target : Type :=
| TMessage (id : Z)
| TFileId (f : string)
| TThumb (t : string).

(** The calls that leave the process, in the order they are made. *)
Inductive Event : Type :=
| EDownload (t : target) (file_name : string)
| ERefetch (chat : Z) (id : Z)
| ESleep (seconds : Z).

(** The answers of the outside world.  Each may depend on the calls made so
    far; a call is answered from the calls made before it.  Every call of
    the client may raise, [client.get_messages] too.  [get_next_name] and
    [manage_duplicate_file] are the helpers of [utils.file_management],
    taken as they come.  [scheduler] is the event loop: for the tasks that
    [asyncio.gather] starts it gives the order in which they are resumed
    (a task by its position in the page). *)
Record Client : Type := {
  names : NameEnv;
  client_download_media : list Event -> target -> string -> res (option string);
  client_get_messages : list Event -> Z -> Z -> res Message;
  os_path_isdir : list Event -> string -> bool;
  os_path_exists : list Event -> string -> bool;
  get_next_name : list Event -> string -> res string;
  manage_duplicate_file : list Event -> option string -> res (option string);
  scheduler : list Event -> list nat
}.

(** [StaticInfo.FAILED_IDS] and the record of outside calls. *)
Record World : Type := {
  FAILED_IDS : list Z;
  trace : list Event
}.

Definition emit (e : Event) (w : World) : World :=
  {| FAILED_IDS := FAILED_IDS w; trace := trace w ++ [e] |}.

Definition record_failure (id : Z) (w : World) : World :=
  {| FAILED_IDS := FAILED_IDS w ++ [id]; trace := trace w |}.

(** [_is_exist]: a path that exists and is not a directory. *)
Definition _is_exist (C : Client) (tr : list Event) (file_path : string) : bool :=
  negb (os_path_isdir C tr file_path) && os_path_exists C tr file_path.

(** ** Coroutines

    [download_media] is a coroutine: it runs until it awaits an outside
    call, is suspended there, and goes on when the event loop resumes it.
    Its state is the world, which it shares with the other tasks, and its
    own local variable [download_path], which is unbound ([None]) until its
    first assignment and survives across media types and across retries. *)
Definition St : Type := (World * option (option string))%type.

(** A coroutine, as the tree of what it does next: finish with a value or
    an exception, look at the state, make an outside call, append to
    [FAILED_IDS], assign [download_path], or await. *)
Inductive Co (A : Type) : Type :=
| Ret (a : A)
| Throw (e : exn)
| Look (k : St -> Co A)
| Emit (e : Event) (k : Co A)
| Append (id : Z) (k : Co A)
| Assign (p : option string) (k : Co A)
| Await (k : Co A).
Arguments Ret {A} a.
Arguments Throw {A} e.
Arguments Look {A} k.
Arguments Emit {A} e k.
Arguments Append {A} id k.
Arguments Assign {A} p k.
Arguments Await {A} k.

Fixpoint bind {A B : Type} (m : Co A) (f : A -> Co B) : Co B :=
  match m with
  | Ret a => f a
  | Throw e => Throw e
  | Look k => Look (fun st => bind (k st) f)
  | Emit e k => Emit e (bind k f)
  | Append id k => Append id (bind k f)
  | Assign p k => Assign p (bind k f)
  | Await k => Await (bind k f)
  end.

(** [try: m except ...]: the exception of [m] becomes a value. *)
Fixpoint catch {A : Type} (m : Co A) : Co (res A) :=
  match m with
  | Ret a => Ret (Ok a)
  | Throw e => Ret (Raise e)
  | Look k => Look (fun st => catch (k st))
  | Emit e k => Emit e (catch k)
  | Append id k => Append id (catch k)
  | Assign p k => Assign p (catch k)
  | Await k => Await (catch k)
  end.

Definition ret {A : Type} (a : A) : Co A := Ret a.

Definition raise {A : Type} (e : exn) : Co A := Throw e.

Definition lift {A : Type} (r : res A) : Co A :=
  match r with
  | Ok a => Ret a
  | Raise e => Throw e
  end.

Notation "x <- m ;; k" := (bind m (fun x => k))
  (at level 61, m at next level, right associativity).
Notation "m ;;; k" := (bind m (fun _ => k))
  (at level 61, right associativity).

Definition ask_trace : Co (list Event) :=
  Look (fun st => Ret (trace (fst st))).

Definition tell (e : Event) : Co unit := Emit e (Ret tt).

Definition await : Co unit := Await (Ret tt).

Definition append_failed (id : Z) : Co unit := Append id (Ret tt).

Definition set_download_path (p : option string) : Co unit :=
  Assign p (Ret tt).

(** Reading [download_path] before any assignment is [UnboundLocalError]. *)
Definition get_download_path : Co (option string) :=
  Look (fun st =>
          match snd st with
          | Some p => Ret p
          | None => Throw OtherException
          end).

(** What one step of a coroutine does to the state. *)
Definition after_emit (e : Event) (st : St) : St := (emit e (fst st), snd st).
Definition after_append (id : Z) (st : St) : St :=
  (record_failure id (fst st), snd st).
Definition after_assign (p : option string) (st : St) : St :=
  (fst st, Some p).

(** The coroutine run on its own, resumed at once at every await. *)
Fixpoint run {A : Type} (m : Co A) (st : St) : St * res A :=
  match m with
  | Ret a => (st, Ok a)
  | Throw e => (st, Raise e)
  | Look k => run (k st) st
  | Emit e k => run k (after_emit e st)
  | Append id k => run k (after_append id st)
  | Assign p k => run k (after_assign p st)
  | Await k => run k st
  end.

(** The coroutine run up to its next await: it finishes, or is suspended
    with what is left of it. *)
Fixpoint resume {A : Type} (m : Co A) (st : St) : St * (res A + Co A) :=
  match m with
  | Ret a => (st, inl (Ok a))
  | Throw e => (st, inl (Raise e))
  | Look k => resume (k st) st
  | Emit e k => resume k (after_emit e st)
  | Append id k => resume k (after_append id st)
  | Assign p k => resume k (after_assign p st)
  | Await k => (st, inr k)
  end.

(** ** The per-message task: [download_media] *)

(** [download_path = await client.download_media(t, file_name=n)] *)
Definition download_to (C : Client) (t : target) (n : string) : Co unit :=
  tr <- ask_trace ;;
  tell (EDownload t n) ;;;
  await ;;;
  p <- lift (client_download_media C tr t n) ;;
  set_download_path p.

(** [for thumb in message.video.thumbs: download_path = ...] *)
Fixpoint download_thumbs (C : Client) (ts : list string) (n : string)
  : Co unit :=
  match ts with
  | [] => ret tt
  | thumb :: rest => download_to C (TThumb thumb) n ;;; download_thumbs C rest n
  end.

(** The branch taken once the filter has accepted the attachment
    (lines 67 to 97). *)
Definition dispatch_download (C : Client) (message : Message)
    (file_name save_name : string) : Co unit :=
  tr <- ask_trace ;;
  (if _is_exist C tr save_name then
     save_name' <- lift (get_next_name C tr save_name) ;;
     download_to C (TMessage (message_id message)) save_name' ;;;
     p <- get_download_path ;;
     tr' <- ask_trace ;;
     p' <- lift (manage_duplicate_file C tr' p) ;;
     set_download_path p'
   else
     match attr message "photo" with
     | Some photo => download_to C (TFileId (file_id photo)) save_name
     | None =>
         match attr message "video" with
         | Some video =>
             match thumbs video with
             | Some ts => download_thumbs C ts (file_name ++ ".jpg")
             | None => raise TypeError (* iterating None *)
             end
         | None => download_to C (TMessage (message_id message)) save_name
         end
     end) ;;;
  _ <- get_download_path ;;
  ret tt.

(** The body of [for _type in media_types] for one [_type]
    (lines 61 to 97). *)
Definition handle_type (C : Client) (message : Message)
    (file_formats : string -> option (list string)) (_type : string)
  : Co unit :=
  match attr message _type with
  | None => ret tt
  | Some _media =>
      meta <- lift (_get_media_meta (names C) _media _type) ;;
      save_name <- match snd meta with
                   | Some f => ret (fst meta ++ "." ++ f)
                   | None => raise TypeError (* str + None *)
                   end ;;
      ok <- lift (_can_download _type file_formats (snd meta)) ;;
      if (ok : bool) then dispatch_download C message (fst meta) save_name
      else ret tt
  end.

Fixpoint for_types (C : Client) (message : Message)
    (file_formats : string -> option (list string))
    (media_types : list string) : Co unit :=
  match media_types with
  | [] => ret tt
  | _type :: rest =>
      handle_type C message file_formats _type ;;;
      for_types C message file_formats rest
  end.

(** How the [try] block ends when it does not raise: by [return] at line 59
    or by [break] at line 98. *)
Inductive exit : Type :=
| Returned (id : Z)
| Broke.

(** The [try] block (lines 58 to 98): one attempt. *)
Definition attempt (C : Client) (media_types : list string)
    (file_formats : string -> option (list string)) (message : Message)
  : Co exit :=
  if negb (media message) then ret (Returned (message_id message))
  else for_types C message file_formats media_types ;;; ret Broke.

(** The handler of [BadRequest] (lines 100 to 114): the message is fetched
    again, which may raise, and the failure is recorded after that in the
    last round. *)
Definition on_bad_request (C : Client) (retry : nat) (message : Message)
  : Co Message :=
  tr <- ask_trace ;;
  tell (ERefetch (chat_id message) (message_id message)) ;;;
  await ;;;
  message' <- lift (client_get_messages C tr (chat_id message)
                      (message_id message)) ;;
  (if (retry =? 2)%nat then append_failed (message_id message') else ret tt) ;;;
  ret message'.

(** The handler of [TypeError] (lines 116 to 127). *)
Definition on_type_error (retry : nat) (message : Message) : Co unit :=
  tell (ESleep 5) ;;;
  await ;;;
  (if (retry =? 2)%nat then append_failed (message_id message) else ret tt).

(** [for retry in range(3)] with its three handlers (lines 56 to 138).  An
    exception raised inside a handler is caught by none of them and leaves
    the function. *)
Fixpoint retry_loop (C : Client) (media_types : list string)
    (file_formats : string -> option (list string))
    (retries : list nat) (message : Message) : Co Z :=
  match retries with
  | [] => ret (message_id message)
  | retry :: rest =>
      r <- catch (attempt C media_types file_formats message) ;;
      match r with
      | Ok (Returned id) => ret id
      | Ok Broke => ret (message_id message)
      | Raise BadRequest =>
          message' <- on_bad_request C retry message ;;
          retry_loop C media_types file_formats rest message'
      | Raise TypeError =>
          on_type_error retry message ;;;
          retry_loop C media_types file_formats rest message
      | Raise OtherException =>
          append_failed (message_id message) ;;;
          ret (message_id message)
      end
  end.

(** The coroutine that a call of [download_media] creates. *)
Definition download_media_task (C : Client) (message : Message)
    (media_types : list string)
    (file_formats : string -> option (list string)) : Co Z :=
  retry_loop C media_types file_formats (seq 0 3) message.

(** One call of [download_media] awaited on its own: the world after it,
    and the id it returns or the exception that leaves it. *)
Definition download_media (C : Client) (message : Message)
    (media_types : list string)
    (file_formats : string -> option (list string)) (w : World)
  : World * res Z :=
  let r := run (download_media_task C message media_types file_formats)
             (w, None) in
  (fst (fst r), snd r).

(** ** Orchestrator: [process_messages]

    [asyncio.gather] makes one task of each coroutine; the event loop runs
    one task at a time, from where it was suspended to its next await, in
    an order that depends on when the outside calls return. *)

(** A task of the page: suspended, with its local variable and what is
    left of it, or finished with its result. *)
Inductive slot : Type :=
| Pending (download_path : option (option string)) (k : Co Z)
| Finished (id : Z).

(** The event loop resumes one task. *)
Definition step_slot (w : World) (s : slot) : World * res slot :=
  match s with
  | Finished id => (w, Ok (Finished id))
  | Pending l k =>
      match resume k (w, l) with
      | (st, inl (Ok id)) => (fst st, Ok (Finished id))
      | (st, inl (Raise e)) => (fst st, Raise e)
      | (st, inr k') => (fst st, Ok (Pending (snd st) k'))
      end
  end.

(** The event loop resumes the task at position [i]. *)
Fixpoint step_nth (i : nat) (w : World) (slots : list slot)
  : World * res (list slot) :=
  match slots with
  | [] => (w, Ok [])
  | s :: rest =>
      match i with
      | O =>
          match step_slot w s with
          | (w', Ok s') => (w', Ok (s' :: rest))
          | (w', Raise e) => (w', Raise e)
          end
      | S j =>
          match step_nth j w rest with
          | (w', Ok rest') => (w', Ok (s :: rest'))
          | (w', Raise e) => (w', Raise e)
          end
      end
  end.

(** The tasks resumed in the order of [schedule]; the first exception of
    a task ends the wait. *)
Fixpoint follow (schedule : list nat) (w : World) (slots : list slot)
  : World * res (list slot) :=
  match schedule with
  | [] => (w, Ok slots)
  | i :: rest =>
      match step_nth i w slots with
      | (w', Ok slots') => follow rest w' slots'
      | (w', Raise e) => (w', Raise e)
      end
  end.

(** The tasks that are still suspended when the schedule is used up are
    run to their end, in the order of the page; the results come in the
    order of the page. *)
Fixpoint finish (w : World) (slots : list slot) : World * res (list Z) :=
  match slots with
  | [] => (w, Ok [])
  | s :: rest =>
      let r := match s with
               | Finished id => (w, Ok id)
               | Pending l k => (fst (fst (run k (w, l))), snd (run k (w, l)))
               end in
      match snd r with
      | Ok id =>
          match finish (fst r) rest with
          | (w', Ok ids) => (w', Ok (id :: ids))
          | (w', Raise e) => (w', Raise e)
          end
      | Raise e => (fst r, Raise e)
      end
  end.

(** [await asyncio.gather(...)] over one [download_media] coroutine per
    message: the list of the results, or the first exception of a task. *)
Definition gather (C : Client) (messages : list Message)
    (media_types : list string)
    (file_formats : string -> option (list string)) (w : World)
  : World * res (list Z) :=
  let slots :=
    map (fun message =>
           Pending None
             (download_media_task C message media_types file_formats))
      messages in
  match follow (scheduler C (trace w)) w slots with
  | (w', Ok slots') => finish w' slots'
  | (w', Raise e) => (w', Raise e)
  end.

(** Why a page or a run ends with an exception: [max] of no ids
    ([ValueError]), or an exception that left a task. *)
Inductive failure : Type :=
| MaxOfEmpty
| TaskRaised (e : exn).

(** [process_messages]: the world after it, and the id it returns or why
    it fails. *)
Definition process_messages (C : Client) (messages : list Message)
    (media_types : list string)
    (file_formats : string -> option (list string)) (w : World)
  : World * (Z + failure) :=
  match gather C messages media_types file_formats w with
  | (w', Ok message_ids) =>
      match Py.max message_ids with
      | Some last_message_id => (w', inl last_message_id)
      | None => (w', inr MaxOfEmpty)
      end
  | (w', Raise e) => (w', inr (TaskRaised e))
  end.

(** ** Pagination loop: [begin_import] *)

(** The entries of [config] that the loop reads. *)
Record Config : Type := {
  cfg_last_read_message_id : Z;
  cfg_media_types : list string;
  cfg_file_formats : string -> option (list string)
}.

(** The variables of the loop.  [calls] and [cursors] are its history: the
    lists handed to [process_messages] and the values it returned, oldest
    first. *)
Record Loop : Type := {
  pagination_count : Z;
  messages_list : list Message;
  last_read_message_id : Z;
  world : World;
  calls : list (list Message);
  cursors : list Z
}.

Inductive flow : Type :=
| Continue (l : Loop)
| Break (l : Loop)
| Raised (l : Loop) (f : failure).

(** [last_read_message_id = await process_messages(client, messages_list, ...)]:
    the loop after the call, and the failure when the call raises. *)
Definition dispatch (C : Client) (config : Config) (l : Loop)
  : Loop * option failure :=
  let r := process_messages C (messages_list l) (cfg_media_types config)
             (cfg_file_formats config) (world l) in
  match snd r with
  | inl id =>
      ({| pagination_count := pagination_count l;
          messages_list := messages_list l;
          last_read_message_id := id;
          world := fst r;
          calls := calls l ++ [messages_list l];
          cursors := cursors l ++ [id] |}, None)
  | inr f =>
      ({| pagination_count := pagination_count l;
          messages_list := messages_list l;
          last_read_message_id := last_read_message_id l;
          world := fst r;
          calls := calls l ++ [messages_list l];
          cursors := cursors l |}, Some f)
  end.

(** The body of [async for message in messages_iter] (lines 121 to 138). *)
Definition loop_body (C : Client) (config : Config) (pagination_limit : Z)
    (debug : bool) (l : Loop) (message : Message) : flow :=
  if negb (pagination_count l =? pagination_limit) then
    Continue {| pagination_count := pagination_count l + 1;
                messages_list := messages_list l ++ [message];
                last_read_message_id := last_read_message_id l;
                world := world l;
                calls := calls l;
                cursors := cursors l |}
  else
    match dispatch C config l with
    | (l1, None) =>
        let l2 := {| pagination_count := 0;
                     messages_list := [message];
                     last_read_message_id := last_read_message_id l1;
                     world := world l1;
                     calls := calls l1;
                     cursors := cursors l1 |} in
        if debug then Break l2 else Continue l2
    | (l1, Some f) => Raised l1 f
    end.

Fixpoint iterate (C : Client) (config : Config) (pagination_limit : Z)
    (debug : bool) (messages_iter : list Message) (l : Loop) : flow :=
  match messages_iter with
  | [] => Continue l
  | message :: rest =>
      match loop_body C config pagination_limit debug l message with
      | Continue l' => iterate C config pagination_limit debug rest l'
      | Break l' => Break l'
      | Raised l' f => Raised l' f
      end
  end.

(** The final flush (lines 140 to 146). *)
Definition flush (C : Client) (config : Config) (l : Loop)
  : Loop * option failure :=
  match messages_list l with
  | [] => (l, None)
  | _ :: _ => dispatch C config l
  end.

Definition loop_init (config : Config) (w : World) : Loop :=
  {| pagination_count := 0;
     messages_list := [];
     last_read_message_id := cfg_last_read_message_id config;
     world := w;
     calls := [];
     cursors := [] |}.

(** [begin_import]: [messages_iter] is what [client.iter_history] yields,
    and [w] the world at the call.  The result is the final state of the
    loop, whose [last_read_message_id] goes into the returned [config], and
    the failure with which an exception left the function, if one did. *)
Definition begin_import (C : Client) (messages_iter : list Message)
    (config : Config) (pagination_limit : Z) (debug : bool) (w : World)
  : Loop * option failure :=
  let l0 := loop_init config w in
  match iterate C config pagination_limit debug messages_iter l0 with
  | Continue l | Break l => flush C config l
  | Raised l f => (l, Some f)
  end.

(** ** The entry point: [main] *)

(** [s.find(c)] for a one-character [c]: the index of its first occurrence,
    [-1] when there is none. *)
Fixpoint str_find (c : ascii) (s : string) : Z :=
  match s with
  | EmptyString => -1
  | String a r =>
      if (a =? c)%char then 0
      else let k := str_find c r in if k <? 0 then -1 else k + 1
  end.

(** [s[:k]]: a negative [k] counts from the end, and the bounds are
    clipped to the string. *)
Definition str_prefix (s : string) (k : Z) : string :=
  let n := Z.of_nat (String.length s) in
  let k' := if k <? 0 then Z.max 0 (k + n) else k in
  substring 0 (Z.to_nat k') s.

(** [len(sys.argv) > 1 and sys.argv[1] or "config.yaml"] (line 155). *)
Definition config_filename (argv : list string) : string :=
  match argv with
  | _ :: a :: _ => or_str a "config.yaml"
  | _ => "config.yaml"
  end.

(** [config_filename[:config_filename.find('.')]] (line 161), the value
    that [main] stores in [StaticInfo.CHAT_ID]. *)
Definition chat_id_of (config_filename : string) : string :=
  str_prefix config_filename (str_find "." config_filename).

(** The call [begin_import(config, pagination_limit=1, debug=True)] of
    [main] (lines 165 to 167). *)
Definition main_import (C : Client) (messages_iter : list Message)
    (config : Config) (w : World) : Loop * option failure :=
  begin_import C messages_iter config 1 true w.

(** ** Notions used by the statements *)

(** The contract of the message source: re-fetching by id, when it
    returns, gives a message with that id. *)
Definition refetch_by_id (C : Client) : Prop :=
  forall tr chat id m,
    client_get_messages C tr chat id = Ok m -> message_id m = id.

(** Re-fetching never raises. *)
Definition refetch_returns (C : Client) : Prop :=
  forall tr chat id, exists m, client_get_messages C tr chat id = Ok m.

Definition is_download (e : Event) : bool :=
  match e with EDownload _ _ => true | _ => false end.

Definition is_sleep (e : Event) : bool :=
  match e with ESleep _ => true | _ => false end.

Definition is_refetch (e : Event) : bool :=
  match e with ERefetch _ _ => true | _ => false end.

Definition downloads (tr : list Event) : list Event := filter is_download tr.
Definition sleeps (tr : list Event) : list Event := filter is_sleep tr.
Definition refetches (tr : list Event) : list Event := filter is_refetch tr.

(** [w'] differs from [w] by download calls only: no failure is recorded,
    nothing sleeps, no message is fetched again. *)
Definition quiet (w w' : World) : Prop :=
  FAILED_IDS w' = FAILED_IDS w /\
  exists ds, trace w' = (trace w ++ ds)%list /\ Forall (fun e => is_download e = true) ds.

Definition keeps {A : Type} (m : Co A) : Prop :=
  forall st, quiet (fst st) (fst (fst (run m st))).

(** Every way in which the coroutine can finish satisfies [P], whatever
    state it is resumed in. *)
Fixpoint leaves {A : Type} (P : res A -> Prop) (m : Co A) : Prop :=
  match m with
  | Ret a => P (Ok a)
  | Throw e => P (Raise e)
  | Look k => forall st, leaves P (k st)
  | Emit _ k | Append _ k | Assign _ k | Await k => leaves P k
  end.

Definition slot_leaves (P : res Z -> Prop) (s : slot) : Prop :=
  match s with
  | Pending _ k => leaves P k
  | Finished id => P (Ok id)
  end.

(** The state in which the attempt after a stale-reference failure starts,
    when the re-fetch returns: the call was made and nothing else
    happened. *)
Definition after_stale (message : Message) (st : St) : St :=
  after_emit (ERefetch (chat_id message) (message_id message)) st.

(** The next [n] attempts all raise [BadRequest] and the re-fetch after
    each of them returns a message; each attempt starts where the handler
    of the previous one leaves off, on the message fetched again. *)
Fixpoint stale_attempts (C : Client) (media_types : list string)
    (file_formats : string -> option (list string)) (n : nat)
    (message : Message) (st : St) : Prop :=
  match n with
  | O => True
  | S k =>
      let r := run (attempt C media_types file_formats message) st in
      snd r = Raise BadRequest /\
      match client_get_messages C (trace (fst (fst r))) (chat_id message)
              (message_id message) with
      | Ok message' =>
          stale_attempts C media_types file_formats k message'
            (after_stale message (fst r))
      | Raise _ => False
      end
  end.

(** The state in which the attempt after a [TypeError] starts: the task has
    slept 5 seconds and nothing else happened. *)
Definition after_transient (st : St) : St := after_emit (ESleep 5) st.

(** The next [n] attempts, each started where the handler of the previous
    one leaves off, all raise [TypeError]. *)
Fixpoint transient_attempts (C : Client) (media_types : list string)
    (file_formats : string -> option (list string)) (n : nat)
    (message : Message) (st : St) : Prop :=
  match n with
  | O => True
  | S k =>
      let r := run (attempt C media_types file_formats message) st in
      snd r = Raise TypeError /\
      transient_attempts C media_types file_formats k message
        (after_transient (fst r))
  end.

(** The predicate on the results of the task of [message]: it returns the
    id of its message, and an exception leaves it only if a re-fetch
    raises. *)
Definition id_or_refetch (C : Client) (message : Message) (r : res Z) : Prop :=
  match r with
  | Ok id => id = message_id message
  | Raise _ => ~ refetch_returns C
  end.

(** The exception that handling a photo object raises: [AttributeError]
    when the object has no [mime_type] attribute, [TypeError] when it has
    one. *)
Definition photo_error (media_obj : MediaObj) : exn :=
  match mime_type media_obj with
  | Absent => OtherException
  | Has _ => TypeError
  end.

(** On every path the coroutine appends to [FAILED_IDS] at most [n] times,
    and nothing but [id]. *)
Fixpoint budget {A : Type} (id : Z) (n : nat) (m : Co A) : Prop :=
  match m with
  | Ret _ | Throw _ => True
  | Look k => forall st, budget id n (k st)
  | Emit _ k | Assign _ k | Await k => budget id n k
  | Append id' k => id' = id /\ exists n', n = S n' /\ budget id n' k
  end.

Definition slot_budget (b : Z * nat) (s : slot) : Prop :=
  match s with
  | Pending _ k => budget (fst b) (snd b) k
  | Finished _ => True
  end.

(** How often the tasks with the budgets [bs] may still append [x]. *)
Definition pending (x : Z) (bs : list (Z * nat)) : nat :=
  list_sum (map (fun b : Z * nat => if Z.eq_dec (fst b) x then snd b else 0%nat)
              bs).

(** The registry of [w'] is that of [w] followed by ids of [ids], none
    more often than it occurs in [ids]. *)
Definition records (ids : list Z) (w w' : World) : Prop :=
  exists added,
    FAILED_IDS w' = (FAILED_IDS w ++ added)%list /\
    forall x, (count_occ Z.eq_dec added x <= count_occ Z.eq_dec ids x)%nat.

(** The first of [media_types] that the message carries. *)
Fixpoint first_present (message : Message) (media_types : list string)
  : option string :=
  match media_types with
  | [] => None
  | t :: rest =>
      match attr message t with
      | Some _ => Some t
      | None => first_present message rest
      end
  end.

(** The loop state that a [flow] carries. *)
Definition loop_of (f : flow) : Loop :=
  match f with
  | Continue l | Break l | Raised l _ => l
  end.

(** No call of [process_messages] so far was given the empty list. *)
Definition no_empty_call (l : Loop) : Prop :=
  Forall (fun page : list Message => page <> []) (calls l).

(** The counter can only reach the limit with a message in the buffer. *)
Definition ready (pagination_limit : Z) (l : Loop) : Prop :=
  no_empty_call l /\
  (pagination_count l = pagination_limit -> messages_list l <> []).

(** The cursors [cs] assigned so far never decrease, the current cursor
    [lr] is the last of them (the configured one when there is none), and
    none exceeds an id that is still [pending]; the pending ids increase. *)
Definition ordered (config : Config) (cs : list Z) (lr : Z)
    (pending : list Z) : Prop :=
  StronglySorted Z.le cs /\
  StronglySorted Z.lt pending /\
  (forall c x, In c cs -> In x pending -> c <= x) /\
  lr = last cs (cfg_last_read_message_id config).

(** With a limit [n] that is not negative: the counter stays within the
    limit, the buffer holds at most one message more than the counter says,
    and no call was given more than [n + 1] messages. *)
Definition bounded (n : Z) (l : Loop) : Prop :=
  0 <= pagination_count l <= n /\
  Z.of_nat (List.length (messages_list l)) <= pagination_count l + 1 /\
  Forall (fun page : list Message => Z.of_nat (List.length page) <= n + 1)
    (calls l).

(** ** Concrete inputs *)

Definition env1 : NameEnv :=
  {| THIS_DIR := "/srv/tmd"; CHAT_ID := "chan";
     utc_isoformat := fun _ => Ok "2023-11-14T22:13:20" |}.

Definition no_attr : string -> option MediaObj := fun _ => None.

Definition with_attr (t : string) (o : MediaObj)
    (f : string -> option MediaObj) : string -> option MediaObj :=
  fun s => if (s =? t)%string then Some o else f s.

(** A photo as the message source yields it: a [Photo] has a date and a
    unique id, and neither a MIME type nor a file name. *)
Definition photo1 : MediaObj :=
  {| mime_type := Absent; date := Some 1700000000; file_name := None;
     file_unique_id := Some "abc123"; file_id := "AgAD1"; thumbs := None |}.

(** An object with the attributes of a photo and a [mime_type] attribute
    besides, as a hand-made object can have. *)
Definition photo_mimed : MediaObj :=
  {| mime_type := Has None; date := Some 1700000000; file_name := None;
     file_unique_id := Some "abc123"; file_id := "AgAD3"; thumbs := None |}.

Definition doc_exe : MediaObj :=
  {| mime_type := Has (Some "application/exe"); date := Some 1700000000;
     file_name := Some "setup"; file_unique_id := Some "d1";
     file_id := "BQAD1"; thumbs := None |}.

Definition doc_pdf : MediaObj :=
  {| mime_type := Has (Some "application/pdf"); date := Some 1700000000;
     file_name := Some "paper"; file_unique_id := Some "d2";
     file_id := "BQAD2"; thumbs := None |}.

Definition video1 : MediaObj :=
  {| mime_type := Has (Some "video/mp4"); date := Some 1700000000;
     file_name := Some "clip"; file_unique_id := Some "v1";
     file_id := "BAAD1"; thumbs := Some ["th1"; "th2"] |}.

Definition voice1 : MediaObj :=
  {| mime_type := Has (Some "audio/ogg"); date := Some 1700000000;
     file_name := None; file_unique_id := Some "u1";
     file_id := "AwAD1"; thumbs := None |}.

Definition voice_undated : MediaObj :=
  {| mime_type := Has (Some "audio/ogg"); date := None;
     file_name := None; file_unique_id := Some "u2";
     file_id := "AwAD2"; thumbs := None |}.

Definition doc_untyped : MediaObj :=
  {| mime_type := Has None; date := Some 1700000000;
     file_name := Some "notes"; file_unique_id := Some "d3";
     file_id := "BQAD3"; thumbs := None |}.

Definition video_no_thumbs : MediaObj :=
  {| mime_type := Has (Some "video/mp4"); date := Some 1700000000;
     file_name := Some "clip"; file_unique_id := Some "v2";
     file_id := "BAAD2"; thumbs := Some [] |}.

(** A message without media. *)
Definition plain_msg (id : Z) : Message :=
  {| message_id := id; media := false; chat_id := 100; attr := no_attr |}.

(** A message that carries one media object under [t]. *)
Definition media_msg (id : Z) (t : string) (o : MediaObj) : Message :=
  {| message_id := id; media := true; chat_id := 100;
     attr := with_attr t o no_attr |}.

(** A message with both a document and a video attribute. *)
Definition doc_video_msg (id : Z) : Message :=
  {| message_id := id; media := true; chat_id := 100;
     attr := with_attr "document" doc_pdf (with_attr "video" video1 no_attr) |}.

Definition formats_all (t : string) : option (list string) :=
  if name_in t ["audio"; "document"; "video"] then Some ["all"] else None.

Definition formats_pdf_zip (t : string) : option (list string) :=
  if name_in t ["audio"; "document"; "video"] then Some ["pdf"; "zip"]
  else None.

Definition formats_none (t : string) : option (list string) := None.

Definition formats_empty (t : string) : option (list string) := Some [].

(** A client whose every download call answers [r] and whose every
    re-fetch answers [f], with a file system in which every path exists,
    or none, as [present] says, under an event loop that resumes the tasks
    in the order [order]. *)
Definition client_with (r : res (option string)) (f : Z -> res Message)
    (present : bool) (order : list nat) : Client :=
  {| names := env1;
     client_download_media := fun _ _ _ => r;
     client_get_messages := fun _ _ id => f id;
     os_path_isdir := fun _ _ => false;
     os_path_exists := fun _ _ => present;
     get_next_name := fun _ n => Ok (n ++ "-1");
     manage_duplicate_file := fun _ p => Ok p;
     scheduler := fun _ => order |}.

(** The re-fetch that returns the message with a document. *)
Definition refetch_doc (id : Z) : res Message :=
  Ok (media_msg id "document" doc_pdf).

Definition client_of (r : res (option string)) (present : bool) : Client :=
  client_with r refetch_doc present [0; 1; 2; 2; 1; 0]%nat.

Definition client_fine : Client := client_of (Ok (Some "saved")) false.

(** The same client on a file system where every target already exists. *)
Definition client_present : Client := client_of (Ok (Some "saved")) true.

(** Clients whose download calls always raise. *)
Definition client_stale : Client := client_of (Raise BadRequest) false.
Definition client_broken : Client := client_of (Raise OtherException) false.

(** A client whose download calls answer without a path. *)
Definition client_soft : Client := client_of (Ok None) false.

(** A client whose download calls raise the stale-reference error and
    whose re-fetch raises too. *)
Definition client_refetch_fails : Client :=
  client_with (Raise BadRequest) (fun _ => Raise OtherException) false
    [0; 1; 2; 2; 1; 0]%nat.

(** The same, except that only the third re-fetch raises. *)
Definition client_third_refetch_fails : Client :=
  {| names := env1;
     client_download_media := fun _ _ _ => Raise BadRequest;
     client_get_messages :=
       fun tr _ id =>
         if (2 <=? List.length (refetches tr))%nat
         then Raise OtherException else refetch_doc id;
     os_path_isdir := fun _ _ => false;
     os_path_exists := fun _ _ => false;
     get_next_name := fun _ n => Ok (n ++ "-1");
     manage_duplicate_file := fun _ p => Ok p;
     scheduler := fun _ => [0; 1; 2; 2; 1; 0]%nat |}.

(** A client whose download calls raise an exception of the last handler,
    under an event loop that lets the second task of a page finish
    first. *)
Definition client_second_first : Client :=
  client_with (Raise OtherException) refetch_doc false [0; 1; 1; 0]%nat.

Definition stream3 : list Message := [plain_msg 1; plain_msg 2; plain_msg 3].

Definition page_mixed : list Message :=
  [media_msg 3 "document" doc_pdf; plain_msg 8; media_msg 5 "document" doc_pdf].

Definition w_empty : World := {| FAILED_IDS := []; trace := [] |}.

Definition cfg1 : Config :=
  {| cfg_last_read_message_id := 0;
     cfg_media_types := ["audio"; "document"; "photo"; "video"; "voice"];
     cfg_file_formats := formats_all |}.

(** ** Proof automation *)

Create HintDb keeps.

(** * Properties *)

(** ** Running a coroutine *)

Lemma run_bind {A B : Type} (m : Co A) (f : A -> Co B) :
  forall st,
    run (bind m f) st
    = match run m st with
      | (st', Ok a) => run (f a) st'
      | (st', Raise e) => (st', Raise e)
      end.
Proof.
  induction m as [a|e|k IH|e k IH|id k IH|p k IH|k IH]; intros st;
    cbn [bind run]; try reflexivity; try apply IH.
Qed.

Lemma run_catch {A : Type} (m : Co A) :
  forall st, run (catch m) st = (fst (run m st), Ok (snd (run m st))).
Proof.
  induction m as [a|e|k IH|e k IH|id k IH|p k IH|k IH]; intros st;
    cbn [catch run]; try reflexivity; try apply IH.
Qed.

Lemma run_lift {A : Type} (r : res A) (st : St) : run (lift r) st = (st, r).
Proof. destruct r; reflexivity. Qed.

(** Running to the end is resuming until nothing is left. *)
Lemma run_resume {A : Type} (m : Co A) :
  forall st,
    run m st
    = match resume m st with
      | (st', inl r) => (st', r)
      | (st', inr k) => run k st'
      end.
Proof.
  induction m as [a|e|k IH|e k IH|id k IH|p k IH|k IH]; intros st;
    cbn [resume run]; try reflexivity; try apply IH.
Qed.

(** ** What a coroutine can return *)

Lemma leaves_weaken {A : Type} (P Q : res A -> Prop) (m : Co A) :
  (forall r, P r -> Q r) -> leaves P m -> leaves Q m.
Proof.
  intros H. induction m as [a|e|k IH|e k IH|id k IH|p k IH|k IH];
    cbn [leaves]; auto.
Qed.

Lemma leaves_any {A : Type} (m : Co A) : leaves (fun _ => True) m.
Proof.
  induction m as [a|e|k IH|e k IH|id k IH|p k IH|k IH]; cbn [leaves]; auto.
Qed.

Lemma leaves_bind {A B : Type} (Q : res A -> Prop) (P : res B -> Prop)
    (m : Co A) (f : A -> Co B) :
  leaves Q m ->
  (forall a, Q (Ok a) -> leaves P (f a)) ->
  (forall e, Q (Raise e) -> P (Raise e)) ->
  leaves P (bind m f).
Proof.
  intros Hm Hf He.
  induction m as [a|e|k IH|e k IH|id k IH|p k IH|k IH];
    cbn [leaves bind] in *; auto.
Qed.

Lemma leaves_catch {A : Type} (Q : res A -> Prop) (m : Co A) :
  leaves Q m ->
  leaves (fun r => match r with Ok x => Q x | Raise _ => False end) (catch m).
Proof.
  intros Hm.
  induction m as [a|e|k IH|e k IH|id k IH|p k IH|k IH];
    cbn [leaves catch] in *; auto.
Qed.

Lemma leaves_lift {A : Type} (P : res A -> Prop) (r : res A) :
  P r -> leaves P (lift r).
Proof. destruct r; auto. Qed.

Lemma run_leaves {A : Type} (P : res A -> Prop) (m : Co A) :
  leaves P m -> forall st, P (snd (run m st)).
Proof.
  induction m as [a|e|k IH|e k IH|id k IH|p k IH|k IH]; cbn [leaves run];
    intros H st; auto.
Qed.

Lemma resume_leaves {A : Type} (P : res A -> Prop) (m : Co A) :
  leaves P m ->
  forall st,
    match snd (resume m st) with
    | inl r => P r
    | inr k => leaves P k
    end.
Proof.
  induction m as [a|e|k IH|e k IH|id k IH|p k IH|k IH]; cbn [leaves resume];
    intros H st; cbn [snd]; auto.
  - apply IH. apply H.
  - apply IH. exact H.
  - apply IH. exact H.
  - apply IH. exact H.
Qed.

(** ** What one attempt can change *)

Lemma quiet_refl (w : World) : quiet w w.
Proof.
  split; [reflexivity|]. exists []. split; [now rewrite app_nil_r | constructor].
Qed.

Lemma quiet_trans (w1 w2 w3 : World) :
  quiet w1 w2 -> quiet w2 w3 -> quiet w1 w3.
Proof.
  intros [F1 [d1 [T1 D1]]] [F2 [d2 [T2 D2]]]. split.
  - congruence.
  - exists (d1 ++ d2)%list. split.
    + rewrite T2, T1. now rewrite app_assoc.
    + apply Forall_app. now split.
Qed.

Lemma quiet_sleeps (w w' : World) :
  quiet w w' -> sleeps (trace w') = sleeps (trace w).
Proof.
  intros [_ [ds [T D]]]. unfold sleeps. rewrite T, filter_app. clear T.
  replace (filter is_sleep ds) with (@nil Event); [now rewrite app_nil_r|].
  induction D as [|e l He _ IH]; [reflexivity|].
  simpl. destruct e; simpl in *; try discriminate. exact IH.
Qed.

Lemma quiet_refetches (w w' : World) :
  quiet w w' -> refetches (trace w') = refetches (trace w).
Proof.
  intros [_ [ds [T D]]]. unfold refetches. rewrite T, filter_app. clear T.
  replace (filter is_refetch ds) with (@nil Event); [now rewrite app_nil_r|].
  induction D as [|e l He _ IH]; [reflexivity|].
  simpl. destruct e; simpl in *; try discriminate. exact IH.
Qed.

Lemma keeps_ret {A : Type} (a : A) : keeps (ret a).
Proof. intros st. apply quiet_refl. Qed.

Lemma keeps_raise {A : Type} (e : exn) : keeps (@raise A e).
Proof. intros st. apply quiet_refl. Qed.

Lemma keeps_lift {A : Type} (r : res A) : keeps (lift r).
Proof. intros st. rewrite run_lift. apply quiet_refl. Qed.

Lemma keeps_ask_trace : keeps ask_trace.
Proof. intros st. apply quiet_refl. Qed.

Lemma keeps_await : keeps await.
Proof. intros st. apply quiet_refl. Qed.

Lemma keeps_set_download_path (p : option string) : keeps (set_download_path p).
Proof. intros st. apply quiet_refl. Qed.

Lemma keeps_get_download_path : keeps get_download_path.
Proof.
  intros st. unfold get_download_path. cbn [run].
  destruct (snd st); apply quiet_refl.
Qed.

Lemma keeps_tell_download (t : target) (n : string) : keeps (tell (EDownload t n)).
Proof.
  intros st. split; [reflexivity|]. exists [EDownload t n].
  split; [reflexivity|]. now repeat constructor.
Qed.

Lemma keeps_bind {A B : Type} (m : Co A) (k : A -> Co B) :
  keeps m -> (forall a, keeps (k a)) -> keeps (bind m k).
Proof.
  intros Hm Hk st. rewrite run_bind. specialize (Hm st).
  destruct (run m st) as [st' [a|e]]; simpl in *.
  - eapply quiet_trans; [exact Hm | apply Hk].
  - exact Hm.
Qed.

#[local] Hint Resolve keeps_ret keeps_raise keeps_lift keeps_ask_trace
  keeps_await keeps_set_download_path keeps_get_download_path
  keeps_tell_download
  : keeps.

Ltac keeps_step :=
  repeat first
    [ apply keeps_bind; [| intros ? ]
    | solve [ auto with keeps ] ].

Lemma keeps_download_to (C : Client) (t : target) (n : string) :
  keeps (download_to C t n).
Proof. unfold download_to. keeps_step. Qed.

Lemma keeps_download_thumbs (C : Client) (ts : list string) (n : string) :
  keeps (download_thumbs C ts n).
Proof.
  induction ts as [|t ts IH]; cbn [download_thumbs].
  - apply keeps_ret.
  - apply keeps_bind; [apply keeps_download_to | intros _; exact IH].
Qed.

#[local] Hint Resolve keeps_download_to keeps_download_thumbs : keeps.

Lemma keeps_dispatch_download (C : Client) (message : Message)
    (file_name save_name : string) :
  keeps (dispatch_download C message file_name save_name).
Proof.
  unfold dispatch_download.
  apply keeps_bind; [apply keeps_ask_trace | intros tr].
  apply keeps_bind; [| intros _; keeps_step].
  destruct (_is_exist C tr save_name); [keeps_step|].
  destruct (attr message "photo"); [keeps_step|].
  destruct (attr message "video") as [video|]; [|keeps_step].
  destruct (thumbs video); keeps_step.
Qed.

Lemma keeps_handle_type (C : Client) (message : Message)
    (file_formats : string -> option (list string)) (_type : string) :
  keeps (handle_type C message file_formats _type).
Proof.
  unfold handle_type. destruct (attr message _type); [|apply keeps_ret].
  apply keeps_bind; [apply keeps_lift | intros meta].
  apply keeps_bind; [destruct (snd meta); keeps_step | intros save_name].
  apply keeps_bind; [apply keeps_lift | intros ok].
  destruct ok; [apply keeps_dispatch_download | apply keeps_ret].
Qed.

Lemma keeps_for_types (C : Client) (message : Message)
    (file_formats : string -> option (list string))
    (media_types : list string) :
  keeps (for_types C message file_formats media_types).
Proof.
  induction media_types as [|t rest IH]; cbn [for_types].
  - apply keeps_ret.
  - apply keeps_bind; [apply keeps_handle_type | intros _; exact IH].
Qed.

Lemma keeps_attempt (C : Client) (media_types : list string)
    (file_formats : string -> option (list string)) (message : Message) :
  keeps (attempt C media_types file_formats message).
Proof.
  unfold attempt. destruct (negb (media message)); [apply keeps_ret|].
  apply keeps_bind; [apply keeps_for_types | intros _; apply keeps_ret].
Qed.

(** A [return] inside the [try] block gives the id of the message. *)
Lemma attempt_returned (C : Client) (media_types : list string)
    (file_formats : string -> option (list string)) (message : Message)
    (st st1 : St) (id : Z) :
  run (attempt C media_types file_formats message) st
  = (st1, Ok (Returned id)) ->
  id = message_id message /\ st1 = st.
Proof.
  unfold attempt. destruct (negb (media message)).
  - cbn [ret run]. intros H. now inversion H.
  - rewrite run_bind.
    destruct (run (for_types C message file_formats media_types) st)
      as [st' [[]|e]]; cbn [ret run]; intros H; inversion H.
Qed.

(** ** The retry loop, one round at a time *)

(** The three handlers, as what they do to the state. *)
Lemma run_retry_loop_cons (C : Client) (media_types : list string)
    (file_formats : string -> option (list string))
    (retry : nat) (rest : list nat) (message : Message) (st : St) :
  run (retry_loop C media_types file_formats (retry :: rest) message) st
  = match run (attempt C media_types file_formats message) st with
    | (st1, Ok (Returned id)) => (st1, Ok id)
    | (st1, Ok Broke) => (st1, Ok (message_id message))
    | (st1, Raise BadRequest) =>
        match client_get_messages C (trace (fst st1)) (chat_id message)
                (message_id message) with
        | Ok message' =>
            run (retry_loop C media_types file_formats rest message')
              (if (retry =? 2)%nat
               then after_append (message_id message')
                      (after_stale message st1)
               else after_stale message st1)
        | Raise e => (after_stale message st1, Raise e)
        end
    | (st1, Raise TypeError) =>
        run (retry_loop C media_types file_formats rest message)
          (if (retry =? 2)%nat
           then after_append (message_id message) (after_transient st1)
           else after_transient st1)
    | (st1, Raise OtherException) =>
        (after_append (message_id message) st1, Ok (message_id message))
    end.
Proof.
  cbn [retry_loop]. rewrite run_bind, run_catch.
  destruct (run (attempt C media_types file_formats message) st)
    as [st1 [[id|]|[| |]]]; cbn [fst snd].
  - reflexivity.
  - reflexivity.
  - rewrite run_bind. unfold on_bad_request.
    cbn [ask_trace tell await bind run]. rewrite run_bind, run_lift.
    unfold after_stale.
    destruct (client_get_messages C (trace (fst st1)) (chat_id message)
                (message_id message)) as [message'|e]; [|reflexivity].
    rewrite run_bind.
    destruct (retry =? 2)%nat; reflexivity.
  - rewrite run_bind. unfold on_type_error.
    cbn [tell await bind run]. unfold after_transient.
    destruct (retry =? 2)%nat; reflexivity.
  - reflexivity.
Qed.

Lemma run_retry_loop_nil (C : Client) (media_types : list string)
    (file_formats : string -> option (list string))
    (message : Message) (st : St) :
  run (retry_loop C media_types file_formats [] message) st
  = (st, Ok (message_id message)).
Proof. reflexivity. Qed.

(** ** What a task returns *)

Lemma attempt_leaves (C : Client) (media_types : list string)
    (file_formats : string -> option (list string)) (message : Message) :
  leaves (fun r => match r with
                   | Ok (Returned id) => id = message_id message
                   | _ => True
                   end)
    (attempt C media_types file_formats message).
Proof.
  unfold attempt. destruct (negb (media message)); [reflexivity|].
  apply (leaves_bind (fun _ => True)); [apply leaves_any | |]; intros; exact I.
Qed.

Lemma on_bad_request_leaves (C : Client) (retry : nat) (message : Message) :
  refetch_by_id C ->
  leaves (fun r => match r with
                   | Ok message' => message_id message' = message_id message
                   | Raise _ => ~ refetch_returns C
                   end)
    (on_bad_request C retry message).
Proof.
  intros HC. unfold on_bad_request. cbn [ask_trace tell await bind leaves].
  intros st.
  destruct (client_get_messages C (trace (fst st)) (chat_id message)
              (message_id message)) as [message'|e] eqn:E; cbn [lift bind leaves].
  - apply HC in E. destruct (retry =? 2)%nat; cbn; exact E.
  - intros HR. destruct (HR (trace (fst st)) (chat_id message)
                           (message_id message)) as [m Hm]. congruence.
Qed.

Lemma on_type_error_leaves (retry : nat) (message : Message) :
  leaves (fun r => r = Ok tt) (on_type_error retry message).
Proof.
  unfold on_type_error. cbn [tell await bind leaves].
  destruct (retry =? 2)%nat; reflexivity.
Qed.

Lemma retry_loop_leaves (C : Client) (media_types : list string)
    (file_formats : string -> option (list string)) :
  refetch_by_id C ->
  forall (retries : list nat) (message : Message),
    leaves (id_or_refetch C message)
      (retry_loop C media_types file_formats retries message).
Proof.
  intros HC retries.
  induction retries as [|retry rest IH]; intros message; cbn [retry_loop].
  - reflexivity.
  - eapply leaves_bind.
    + apply leaves_catch. apply attempt_leaves.
    + intros [[id|]|[| |]] H; cbn in H.
      * exact H.
      * reflexivity.
      * eapply leaves_bind.
        -- apply on_bad_request_leaves. exact HC.
        -- intros message' H'. cbn in H'.
           eapply leaves_weaken; [|apply IH].
           intros [id|e]; unfold id_or_refetch; [congruence | auto].
        -- intros e H'. exact H'.
      * eapply leaves_bind.
        -- apply on_type_error_leaves.
        -- intros _ _. apply IH.
        -- intros e H'. discriminate.
      * reflexivity.
    + intros e H. destruct H.
Qed.

Lemma task_leaves (C : Client) (message : Message)
    (media_types : list string)
    (file_formats : string -> option (list string)) :
  refetch_by_id C ->
  leaves (id_or_refetch C message)
    (download_media_task C message media_types file_formats).
Proof. intros HC. now apply retry_loop_leaves. Qed.

(** A task that returns, returns the id of its message. *)
Lemma download_media_id (C : Client) (message : Message)
    (media_types : list string)
    (file_formats : string -> option (list string)) (w : World) (id : Z) :
  refetch_by_id C ->
  snd (download_media C message media_types file_formats w) = Ok id ->
  id = message_id message.
Proof.
  intros HC. unfold download_media. cbn [snd]. intros H.
  pose proof (run_leaves _ _ (task_leaves C message media_types file_formats HC)
                (w, None)) as L.
  rewrite H in L. exact L.
Qed.

(** ** The tasks of a page under the event loop *)

Lemma step_slot_leaves (P : res Z -> Prop) (w : World) (s : slot) :
  slot_leaves P s ->
  match snd (step_slot w s) with
  | Ok s' => slot_leaves P s'
  | Raise e => P (Raise e)
  end.
Proof.
  destruct s as [l k|id]; cbn [slot_leaves step_slot]; [|auto].
  intros H. pose proof (resume_leaves P k H (w, l)) as R.
  destruct (resume k (w, l)) as [st [[id|e]|k']]; cbn [snd] in *; exact R.
Qed.

Lemma step_nth_leaves (P : Message -> res Z -> Prop) (i : nat) :
  forall (w : World) (messages : list Message) (slots : list slot),
    Forall2 (fun m s => slot_leaves (P m) s) messages slots ->
    match snd (step_nth i w slots) with
    | Ok slots' => Forall2 (fun m s => slot_leaves (P m) s) messages slots'
    | Raise e => exists m, In m messages /\ P m (Raise e)
    end.
Proof.
  induction i as [|j IH]; intros w messages slots H;
    destruct H as [|m s ms ss Hs Hrest]; cbn [step_nth snd].
  - constructor.
  - pose proof (step_slot_leaves (P m) w s Hs) as R.
    destruct (step_slot w s) as [w' [s'|e]]; cbn [snd] in *.
    + now constructor.
    + exists m. split; [now left | exact R].
  - constructor.
  - specialize (IH w ms ss Hrest).
    destruct (step_nth j w ss) as [w' [ss'|e]]; cbn [snd] in *.
    + now constructor.
    + destruct IH as [m' [Hin Hp]]. exists m'. split; [now right | exact Hp].
Qed.

Lemma follow_leaves (P : Message -> res Z -> Prop) (schedule : list nat) :
  forall (w : World) (messages : list Message) (slots : list slot),
    Forall2 (fun m s => slot_leaves (P m) s) messages slots ->
    match snd (follow schedule w slots) with
    | Ok slots' => Forall2 (fun m s => slot_leaves (P m) s) messages slots'
    | Raise e => exists m, In m messages /\ P m (Raise e)
    end.
Proof.
  induction schedule as [|i rest IH]; intros w messages slots H;
    cbn [follow]; [exact H|].
  pose proof (step_nth_leaves P i w messages slots H) as R.
  destruct (step_nth i w slots) as [w' [slots'|e]]; cbn [snd] in *.
  - now apply IH.
  - exact R.
Qed.

Lemma finish_leaves (P : Message -> res Z -> Prop) :
  forall (messages : list Message) (slots : list slot) (w : World),
    Forall2 (fun m s => slot_leaves (P m) s) messages slots ->
    match snd (finish w slots) with
    | Ok ids => Forall2 (fun m id => P m (Ok id)) messages ids
    | Raise e => exists m, In m messages /\ P m (Raise e)
    end.
Proof.
  intros messages slots w H. revert w.
  induction H as [|m s ms ss Hs Hrest IH]; intros w; cbn [finish].
  - constructor.
  - assert (R : match snd (match s with
                           | Finished id => (w, Ok id)
                           | Pending l k =>
                               (fst (fst (run k (w, l))), snd (run k (w, l)))
                           end) with
                | Ok id => P m (Ok id)
                | Raise e => P m (Raise e)
                end).
    { destruct s as [l k|id]; cbn [slot_leaves snd] in *; [|exact Hs].
      pose proof (run_leaves _ _ Hs (w, l)) as R.
      destruct (snd (run k (w, l))); exact R. }
    destruct (snd (match s with
                   | Finished id => (w, Ok id)
                   | Pending l k =>
                       (fst (fst (run k (w, l))), snd (run k (w, l)))
                   end)) as [id|e].
    + match goal with
      | |- context [finish ?w' ss] => specialize (IH w')
      end.
      match goal with
      | |- context [finish ?w' ss] => destruct (finish w' ss) as [w'' [ids|e]]
      end; cbn [snd] in *.
      * now constructor.
      * destruct IH as [m' [Hin Hp]]. exists m'. split; [now right | exact Hp].
    + cbn [snd]. exists m. split; [now left | exact R].
Qed.

Lemma gather_leaves (P : Message -> res Z -> Prop) (C : Client)
    (messages : list Message) (media_types : list string)
    (file_formats : string -> option (list string)) (w : World) :
  (forall m, leaves (P m)
               (download_media_task C m media_types file_formats)) ->
  match snd (gather C messages media_types file_formats w) with
  | Ok ids => Forall2 (fun m id => P m (Ok id)) messages ids
  | Raise e => exists m, In m messages /\ P m (Raise e)
  end.
Proof.
  intros HP. unfold gather.
  assert (H0 : Forall2 (fun m s => slot_leaves (P m) s) messages
                 (map (fun message =>
                         Pending None
                           (download_media_task C message media_types
                              file_formats)) messages)).
  { induction messages as [|m ms IH]; cbn [map]; constructor; [apply HP | exact IH]. }
  pose proof (follow_leaves P (scheduler C (trace w)) w messages _ H0) as R.
  destruct (follow (scheduler C (trace w)) w
              (map (fun message =>
                      Pending None
                        (download_media_task C message media_types
                           file_formats)) messages)) as [w' [slots'|e]];
    cbn [snd] in *.
  - now apply finish_leaves.
  - exact R.
Qed.

Lemma forall2_ids (messages : list Message) (ids : list Z) :
  Forall2 (fun m id => id = message_id m) messages ids ->
  ids = map message_id messages.
Proof.
  intros H. induction H as [|m id ms ids Hm _ IH]; [reflexivity|].
  cbn [map]. now rewrite Hm, IH.
Qed.

(** When the wait for a page returns, whatever the order in which the
    event loop resumed the tasks, it returns the ids of the page in the
    order of the page. *)
Lemma gather_ids (C : Client) (messages : list Message)
    (media_types : list string)
    (file_formats : string -> option (list string)) (w : World)
    (ids : list Z) :
  refetch_by_id C ->
  snd (gather C messages media_types file_formats w) = Ok ids ->
  ids = map message_id messages.
Proof.
  intros HC H.
  pose proof (gather_leaves (id_or_refetch C) C messages media_types
                file_formats w
                (fun m => task_leaves C m media_types file_formats HC)) as G.
  rewrite H in G. now apply forall2_ids.
Qed.

(** When no re-fetch raises, the wait for a page returns. *)
Lemma gather_returns (C : Client) (messages : list Message)
    (media_types : list string)
    (file_formats : string -> option (list string)) (w : World) :
  refetch_by_id C ->
  refetch_returns C ->
  snd (gather C messages media_types file_formats w)
  = Ok (map message_id messages).
Proof.
  intros HC HR.
  pose proof (gather_leaves (id_or_refetch C) C messages media_types
                file_formats w
                (fun m => task_leaves C m media_types file_formats HC)) as G.
  destruct (snd (gather C messages media_types file_formats w)) as [ids|e].
  - f_equal. now apply forall2_ids.
  - destruct G as [m [_ Hm]]. now destruct Hm.
Qed.

Lemma gather_length (C : Client) (messages : list Message)
    (media_types : list string)
    (file_formats : string -> option (list string)) (w : World)
    (ids : list Z) :
  snd (gather C messages media_types file_formats w) = Ok ids ->
  List.length ids = List.length messages.
Proof.
  intros H.
  pose proof (gather_leaves (fun _ _ => True) C messages media_types
                file_formats w (fun m => leaves_any _)) as G.
  rewrite H in G. symmetry. eapply Forall2_length. exact G.
Qed.

Lemma fold_max_ge (l : list Z) (a : Z) : a <= fold_left Z.max l a.
Proof.
  revert a. induction l as [|x l IH]; intros a; simpl; [lia|].
  specialize (IH (Z.max a x)). lia.
Qed.

Lemma fold_max_bound (l : list Z) (a : Z) :
  Forall (fun y => y <= fold_left Z.max l a) l.
Proof.
  revert a. induction l as [|x l IH]; intros a; simpl; constructor.
  - pose proof (fold_max_ge l (Z.max a x)). lia.
  - apply IH.
Qed.

Lemma fold_max_in (l : list Z) (a : Z) :
  fold_left Z.max l a = a \/ In (fold_left Z.max l a) l.
Proof.
  revert a. induction l as [|x l IH]; intros a; simpl; [now left|].
  destruct (IH (Z.max a x)) as [H|H].
  - rewrite H. destruct (Z.max_spec a x) as [[_ E]|[_ E]]; rewrite E; auto.
  - auto.
Qed.

(** [max] on a non-empty list is an element that bounds the others. *)
Lemma max_spec (l : list Z) (x : Z) :
  Py.max l = Some x -> In x l /\ Forall (fun y => y <= x) l.
Proof.
  destruct l as [|a l]; simpl; [discriminate|].
  intros H. inversion H. subst x. clear H. split.
  - destruct (fold_max_in l a) as [H|H]; [left; now rewrite H | now right].
  - constructor; [apply fold_max_ge | apply fold_max_bound].
Qed.

Lemma max_nonempty (l : list Z) : l <> [] -> exists x, Py.max l = Some x.
Proof. destruct l; [congruence | intros _; eexists; reflexivity]. Qed.

(** [max] does not raise on a page that has messages. *)
Lemma process_messages_max (C : Client) (messages : list Message)
    (media_types : list string)
    (file_formats : string -> option (list string)) (w : World) :
  messages <> [] ->
  snd (process_messages C messages media_types file_formats w)
  <> inr MaxOfEmpty.
Proof.
  intros Hne. unfold process_messages.
  pose proof (gather_length C messages media_types file_formats w) as L.
  destruct (gather C messages media_types file_formats w) as [w' [ids|e]];
    cbn [snd] in *; [|discriminate].
  specialize (L ids eq_refl).
  destruct ids as [|x ids]; [|discriminate].
  destruct messages; [congruence | discriminate].
Qed.

(** What [process_messages] returns is the greatest id of the page. *)
Lemma process_messages_result (C : Client) (messages : list Message)
    (media_types : list string)
    (file_formats : string -> option (list string)) (w : World) (id : Z) :
  refetch_by_id C ->
  snd (process_messages C messages media_types file_formats w) = inl id ->
  Py.max (map message_id messages) = Some id.
Proof.
  intros HC. unfold process_messages.
  pose proof (gather_ids C messages media_types file_formats w) as G.
  destruct (gather C messages media_types file_formats w) as [w' [ids|e]];
    cbn [snd] in *; [|discriminate].
  specialize (G ids HC eq_refl). subst ids.
  destruct (Py.max (map message_id messages)); intros H; inversion H.
  reflexivity.
Qed.

(** ** C7: an unclassified error ends the loop at once *)

(** C7.  When an attempt raises an error that is neither the stale-reference
    error nor [TypeError], at whatever round of the loop, the loop stops
    there: the world is the one the attempt left with the id of the message
    appended to the failure registry, no further call is made, and the id
    is returned.  In particular this holds for the first attempt of
    [download_media]. *)
Theorem unclassified_error_no_retry (C : Client) (message : Message)
    (media_types : list string)
    (file_formats : string -> option (list string)) :
  (forall retry rest st st1,
      run (attempt C media_types file_formats message) st
      = (st1, Raise OtherException) ->
      run (retry_loop C media_types file_formats (retry :: rest) message) st
      = ((record_failure (message_id message) (fst st1), snd st1),
         Ok (message_id message)) /\
      FAILED_IDS (record_failure (message_id message) (fst st1))
      = (FAILED_IDS (fst st) ++ [message_id message])%list) /\
  (forall w st1,
      run (attempt C media_types file_formats message) (w, None)
      = (st1, Raise OtherException) ->
      let r := download_media C message media_types file_formats w in
      r = (record_failure (message_id message) (fst st1),
           Ok (message_id message)) /\
      FAILED_IDS (fst r) = (FAILED_IDS w ++ [message_id message])%list /\
      trace (fst r) = trace (fst st1) /\
      sleeps (trace (fst r)) = sleeps (trace w) /\
      refetches (trace (fst r)) = refetches (trace w)).
Proof.
  split.
  - intros retry rest st st1 E. rewrite run_retry_loop_cons, E. split.
    + reflexivity.
    + pose proof (keeps_attempt C media_types file_formats message st) as Q.
      rewrite E in Q. destruct Q as [QF _]. cbn [fst] in QF.
      cbn [record_failure FAILED_IDS]. now rewrite QF.
  - intros w st1 E r. subst r.
    pose proof (keeps_attempt C media_types file_formats message (w, None))
      as Q.
    unfold download_media, download_media_task. cbn [seq].
    rewrite run_retry_loop_cons. rewrite E in *.
    cbn [fst snd after_append] in *. repeat split.
    + destruct Q as [QF _]. cbn [record_failure FAILED_IDS]. now rewrite QF.
    + cbn [record_failure trace]. now apply quiet_sleeps.
    + cbn [record_failure trace]. now apply quiet_refetches.
Qed.

(** ** C2: what the orchestrator returns *)

(** C2 as stated fails when a re-fetch raises: with a client whose download
    calls raise the stale-reference error and whose re-fetch raises too,
    the exception leaves the handler, [download_media] and
    [process_messages], which returns no id for the page. *)
Lemma process_messages_refetch_raises :
  let r := process_messages client_refetch_fails page_mixed
             (cfg_media_types cfg1) formats_all w_empty in
  page_mixed <> [] /\
  snd r = inr (TaskRaised OtherException) /\
  (forall x, snd r <> inl x) /\
  snd (download_media client_refetch_fails (media_msg 3 "document" doc_pdf)
         (cfg_media_types cfg1) formats_all w_empty)
  = Raise OtherException.
Proof.
  cbv zeta. split; [discriminate|]. split; [reflexivity|].
  split; [intros x; discriminate | reflexivity].
Qed.

(** C2, as it holds.  When every re-fetch returns a message, and one with
    the id asked for, then for every non-empty page, whatever the client
    answers to the download calls, however many messages fail and in
    whatever order the event loop resumes the tasks, [process_messages]
    returns the maximum of the ids of the page: a value that is the id of
    one of its messages and bounds the id of each; and [download_media]
    returns the id of its message from every world. *)
Theorem process_messages_returns_max_id (C : Client) (messages : list Message)
    (media_types : list string)
    (file_formats : string -> option (list string)) (w : World) :
  refetch_by_id C ->
  refetch_returns C ->
  messages <> [] ->
  (forall m w', snd (download_media C m media_types file_formats w')
                = Ok (message_id m)) /\
  exists x,
    snd (process_messages C messages media_types file_formats w) = inl x /\
    In x (map message_id messages) /\
    Forall (fun m => message_id m <= x) messages.
Proof.
  intros HC HR Hne. split.
  - intros m w'. unfold download_media. cbn [snd].
    pose proof (run_leaves _ _ (task_leaves C m media_types file_formats HC)
                  (w', None)) as L.
    destruct (snd (run (download_media_task C m media_types file_formats)
                     (w', None))) as [id|e]; cbn in L.
    + now subst.
    + now destruct L.
  - unfold process_messages.
    pose proof (gather_returns C messages media_types file_formats w HC HR)
      as G.
    destruct (gather C messages media_types file_formats w) as [w' r].
    cbn [snd] in G. subst r.
    destruct (max_nonempty (map message_id messages)) as [x Hx].
    { destruct messages; [congruence | discriminate]. }
    rewrite Hx. exists x. split; [reflexivity|].
    apply max_spec in Hx. destruct Hx as [Hin Hall]. split; [exact Hin|].
    rewrite Forall_forall in *. intros m Hm. apply Hall.
    now apply in_map.
Qed.

(** ** C3: three stale references in a row *)

Lemma stale_round (C : Client) (media_types : list string)
    (file_formats : string -> option (list string)) (message : Message)
    (st : St) :
  let s' := after_stale message
              (fst (run (attempt C media_types file_formats message) st)) in
  FAILED_IDS (fst s') = FAILED_IDS (fst st) /\
  sleeps (trace (fst s')) = sleeps (trace (fst st)) /\
  refetches (trace (fst s'))
  = (refetches (trace (fst st))
     ++ [ERefetch (chat_id message) (message_id message)])%list.
Proof.
  pose proof (keeps_attempt C media_types file_formats message st) as Q.
  pose proof (quiet_sleeps _ _ Q) as QS.
  pose proof (quiet_refetches _ _ Q) as QR.
  destruct Q as [QF _].
  destruct (run (attempt C media_types file_formats message) st) as [st1 r].
  cbn [fst snd after_stale after_emit emit FAILED_IDS trace] in *.
  split; [exact QF|]. split.
  - unfold sleeps in *. rewrite filter_app. cbn. now rewrite app_nil_r.
  - unfold refetches in *. rewrite filter_app, QR. reflexivity.
Qed.

(** C3 as stated fails when a re-fetch raises: all three attempts on the
    message 7 raise the stale-reference error, the first two re-fetches
    return and the third raises; as the handler re-fetches before it
    records, the id is not recorded and not returned. *)
Lemma stale_third_refetch_raises :
  let r := download_media client_third_refetch_fails
             (media_msg 7 "document" doc_pdf) (cfg_media_types cfg1)
             formats_all w_empty in
  downloads (trace (fst r))
  = [EDownload (TMessage 7) "/srv/tmd/chan/document/1700000000-paper.pdf";
     EDownload (TMessage 7) "/srv/tmd/chan/document/1700000000-paper.pdf";
     EDownload (TMessage 7) "/srv/tmd/chan/document/1700000000-paper.pdf"] /\
  refetches (trace (fst r))
  = [ERefetch 100 7; ERefetch 100 7; ERefetch 100 7] /\
  FAILED_IDS (fst r) = [] /\
  snd r = Raise OtherException.
Proof. cbv zeta. repeat split; reflexivity. Qed.

(** C3, as it holds.  When the three attempts on a message all raise the
    stale-reference error and the re-fetch after each of them returns a
    message, with the id asked for, then three re-fetches, each for the id
    of the message, and no sleep have happened, the id of the message is
    appended to the failure registry once, and that id is returned. *)
Theorem stale_reference_exhausted (C : Client) (message : Message)
    (media_types : list string)
    (file_formats : string -> option (list string)) (w : World) :
  refetch_by_id C ->
  stale_attempts C media_types file_formats 3 message (w, None) ->
  let r := download_media C message media_types file_formats w in
  FAILED_IDS (fst r) = (FAILED_IDS w ++ [message_id message])%list /\
  snd r = Ok (message_id message) /\
  sleeps (trace (fst r)) = sleeps (trace w) /\
  List.length (refetches (trace (fst r)))
  = (3 + List.length (refetches (trace w)))%nat /\
  exists chat1 chat2,
    refetches (trace (fst r))
    = (refetches (trace w)
       ++ [ERefetch (chat_id message) (message_id message);
           ERefetch chat1 (message_id message);
           ERefetch chat2 (message_id message)])%list.
Proof.
  intros HC H r. subst r.
  unfold download_media, download_media_task. cbn [seq].
  cbn [stale_attempts] in H. destruct H as [H1 H].
  pose proof (stale_round C media_types file_formats message (w, None)) as R1.
  rewrite run_retry_loop_cons.
  destruct (run (attempt C media_types file_formats message) (w, None))
    as [st1 r1]; cbn [fst snd] in *; subst r1.
  destruct (client_get_messages C (trace (fst st1)) (chat_id message)
              (message_id message)) as [m1|e1] eqn:G1; [|contradiction].
  cbn [Nat.eqb]. destruct H as [H2 H].
  pose proof (stale_round C media_types file_formats m1
                (after_stale message st1)) as R2.
  rewrite run_retry_loop_cons.
  destruct (run (attempt C media_types file_formats m1)
              (after_stale message st1)) as [st2 r2];
    cbn [fst snd] in *; subst r2.
  destruct (client_get_messages C (trace (fst st2)) (chat_id m1)
              (message_id m1)) as [m2|e2] eqn:G2; [|contradiction].
  cbn [Nat.eqb]. destruct H as [H3 H].
  pose proof (stale_round C media_types file_formats m2
                (after_stale m1 st2)) as R3.
  rewrite run_retry_loop_cons.
  destruct (run (attempt C media_types file_formats m2)
              (after_stale m1 st2)) as [st3 r3];
    cbn [fst snd] in *; subst r3.
  destruct (client_get_messages C (trace (fst st3)) (chat_id m2)
              (message_id m2)) as [m3|e3] eqn:G3; [|contradiction].
  cbn [Nat.eqb]. rewrite run_retry_loop_nil.
  apply HC in G1, G2, G3.
  destruct R1 as [F1 [S1 N1]], R2 as [F2 [S2 N2]], R3 as [F3 [S3 N3]].
  cbn [fst snd after_append record_failure FAILED_IDS trace].
  assert (N : refetches (trace (fst (after_stale m2 st3)))
              = (refetches (trace w)
                 ++ [ERefetch (chat_id message) (message_id message);
                     ERefetch (chat_id m1) (message_id message);
                     ERefetch (chat_id m2) (message_id message)])%list).
  { rewrite N3, N2, N1. cbn [fst]. rewrite G2, G1, <- !app_assoc.
    reflexivity. }
  split; [|split; [|split; [|split]]].
  - rewrite F3, F2, F1. cbn [fst]. now rewrite G3, G2, G1.
  - now rewrite G3, G2, G1.
  - rewrite S3, S2, S1. reflexivity.
  - rewrite N, length_app. cbn [List.length]. lia.
  - exists (chat_id m1), (chat_id m2). exact N.
Qed.

(** ** One attachment: what the body of the loop over the types does *)

Lemma for_types_absent (C : Client) (message : Message)
    (file_formats : string -> option (list string))
    (media_types : list string) (st : St) :
  first_present message media_types = None ->
  run (for_types C message file_formats media_types) st = (st, Ok tt).
Proof.
  induction media_types as [|t rest IH]; cbn [first_present for_types];
    [reflexivity|].
  destruct (attr message t) eqn:E; [discriminate|].
  intros H. rewrite run_bind. unfold handle_type. rewrite E. cbn [ret run].
  now apply IH.
Qed.

Lemma for_types_app (C : Client) (message : Message)
    (file_formats : string -> option (list string))
    (pre post : list string) (st : St) :
  run (for_types C message file_formats (pre ++ post)) st
  = match run (for_types C message file_formats pre) st with
    | (st', Ok _) => run (for_types C message file_formats post) st'
    | (st', Raise e) => (st', Raise e)
    end.
Proof.
  revert st. induction pre as [|t pre IH]; intros st.
  - reflexivity.
  - cbn [app for_types]. rewrite !run_bind.
    destruct (run (handle_type C message file_formats t) st) as [st1 [[]|e]];
      [apply IH | reflexivity].
Qed.

Lemma for_types_first (C : Client) (message : Message)
    (file_formats : string -> option (list string))
    (media_types : list string) (t : string) (st st' : St) (e : exn) :
  first_present message media_types = Some t ->
  run (handle_type C message file_formats t) st = (st', Raise e) ->
  run (for_types C message file_formats media_types) st = (st', Raise e).
Proof.
  induction media_types as [|u rest IH]; cbn [first_present for_types];
    [discriminate|].
  destruct (attr message u) as [o|] eqn:E.
  - intros H Hh. inversion H. subst u. rewrite run_bind. now rewrite Hh.
  - intros H Hh. rewrite run_bind. unfold handle_type at 1. rewrite E.
    cbn [ret run]. now apply IH.
Qed.

Lemma for_types_reach (C : Client) (message : Message)
    (file_formats : string -> option (list string))
    (pre post : list string) (t : string) (st st' st'' : St) (e : exn) :
  run (for_types C message file_formats pre) st = (st', Ok tt) ->
  run (handle_type C message file_formats t) st' = (st'', Raise e) ->
  run (for_types C message file_formats (pre ++ t :: post)) st
  = (st'', Raise e).
Proof.
  intros Hpre Hh. rewrite for_types_app, Hpre. cbn [for_types].
  rewrite run_bind. now rewrite Hh.
Qed.

Lemma attempt_media (C : Client) (message : Message)
    (media_types : list string)
    (file_formats : string -> option (list string)) (st : St) :
  media message = true ->
  run (attempt C media_types file_formats message) st
  = match run (for_types C message file_formats media_types) st with
    | (st', Ok _) => (st', Ok Broke)
    | (st', Raise e) => (st', Raise e)
    end.
Proof.
  intros Hm. unfold attempt. rewrite Hm. cbn [negb]. rewrite run_bind.
  destruct (run (for_types C message file_formats media_types) st)
    as [st' [[]|e]]; reflexivity.
Qed.

Lemma attempt_first_raises (C : Client) (message : Message)
    (media_types : list string)
    (file_formats : string -> option (list string))
    (t : string) (st st' : St) (e : exn) :
  media message = true ->
  first_present message media_types = Some t ->
  run (handle_type C message file_formats t) st = (st', Raise e) ->
  run (attempt C media_types file_formats message) st = (st', Raise e).
Proof.
  intros Hm Hf Hh. rewrite attempt_media by exact Hm.
  now rewrite (for_types_first C message file_formats media_types t st st' e).
Qed.

Lemma download_media_other (C : Client) (message : Message)
    (media_types : list string)
    (file_formats : string -> option (list string)) (w : World) (st1 : St) :
  run (attempt C media_types file_formats message) (w, None)
  = (st1, Raise OtherException) ->
  download_media C message media_types file_formats w
  = (record_failure (message_id message) (fst st1), Ok (message_id message)).
Proof.
  intros E. unfold download_media, download_media_task. cbn [seq].
  rewrite run_retry_loop_cons. now rewrite E.
Qed.

Lemma download_media_type_errors (C : Client) (message : Message)
    (media_types : list string)
    (file_formats : string -> option (list string)) (w : World) :
  (forall st, run (attempt C media_types file_formats message) st
              = (st, Raise TypeError)) ->
  download_media C message media_types file_formats w
  = ({| FAILED_IDS := FAILED_IDS w ++ [message_id message];
        trace := trace w ++ [ESleep 5; ESleep 5; ESleep 5] |},
     Ok (message_id message)).
Proof.
  intros A. unfold download_media, download_media_task. cbn [seq].
  rewrite run_retry_loop_cons, A. cbn [Nat.eqb].
  rewrite run_retry_loop_cons, A. cbn [Nat.eqb].
  rewrite run_retry_loop_cons, A. cbn [Nat.eqb].
  rewrite run_retry_loop_nil.
  unfold after_append, after_transient, after_emit, record_failure, emit.
  cbn [fst snd FAILED_IDS trace].
  rewrite <- !app_assoc. reflexivity.
Qed.

(** ** C4: a photo never gets past the resolver and the construction of
    [save_name] *)

(** An object without the attribute [mime_type] stops the resolver at its
    first statement, whatever its type. *)
Lemma absent_mime_type_raises (E : NameEnv) (o : MediaObj) (t : string) :
  mime_type o = Absent ->
  _get_media_meta E o t = Raise OtherException.
Proof. intros H. unfold _get_media_meta. rewrite H. reflexivity. Qed.

(** For the type [photo] and an object that has the attribute the resolver
    gives no format, or raises [TypeError] itself (a hint that is empty and
    no unique id). *)
Lemma photo_meta (E : NameEnv) (o : MediaObj) :
  mime_type o <> Absent ->
  _get_media_meta E o "photo" = Raise TypeError \/
  exists n, _get_media_meta E o "photo" = Ok (n, None).
Proof.
  intros Hm. unfold _get_media_meta.
  destruct (mime_type o) as [|v]; [contradiction|].
  cbn [read res_bind name_in existsb String.eqb Ascii.eqb Bool.eqb orb andb].
  destruct (file_name o) as [h|]; cbn [andb].
  - destruct (or_opt (Some h) (file_unique_id o)); [right; eauto | now left].
  - right. eauto.
Qed.

Lemma handle_type_photo (C : Client) (message : Message)
    (file_formats : string -> option (list string)) (o : MediaObj) (st : St) :
  attr message "photo" = Some o ->
  run (handle_type C message file_formats "photo") st
  = (st, Raise (photo_error o)).
Proof.
  intros Ho. unfold handle_type. rewrite Ho. unfold photo_error.
  destruct (mime_type o) as [|v] eqn:M.
  - rewrite (absent_mime_type_raises _ _ _ M). reflexivity.
  - destruct (photo_meta (names C) o) as [E|[n E]];
      [congruence | rewrite E; reflexivity | rewrite E; reflexivity].
Qed.

(** C4 as stated fails on a photo as pyrogram gives it, which has no
    [mime_type]: the resolver returns nothing but raises [AttributeError]
    at its first statement, the last handler catches it, and the id is
    recorded at the first attempt, with no sleep and no further attempt. *)
Lemma photo_fails_at_first_attempt :
  _get_media_meta env1 photo1 "photo" = Raise OtherException /\
  download_media client_fine (media_msg 5 "photo" photo1)
    (cfg_media_types cfg1) formats_all w_empty
  = ({| FAILED_IDS := [5]; trace := [] |}, Ok 5) /\
  sleeps (trace (fst (download_media client_fine (media_msg 5 "photo" photo1)
                        (cfg_media_types cfg1) formats_all w_empty)))
  <> [ESleep 5; ESleep 5; ESleep 5].
Proof. split; [reflexivity | split; [reflexivity | discriminate]]. Qed.

(** C4, as it holds.  For every message with media that carries a photo:
    a photo object without the attribute [mime_type] makes the resolver
    raise [AttributeError], and one with the attribute gets no format from
    the resolver (when it returns); the attempt that reaches the photo
    stops there, before the filter and before any call, with
    [AttributeError] in the first case and [TypeError] in the second; in
    the first case [download_media] then appends the id of the message to
    the failure registry and returns it, whatever came before the photo;
    and when the photo is the first configured attachment of the message,
    [download_media] in the first case appends the id of the message to the
    failure registry at once, with no sleep, and in the second case sleeps
    three times for 5 seconds and then appends it; in both cases it makes
    no download call and returns the id. *)
Theorem photo_message_fails (C : Client) (message : Message)
    (media_types : list string)
    (file_formats : string -> option (list string)) (w : World)
    (photo : MediaObj) :
  media message = true ->
  attr message "photo" = Some photo ->
  (mime_type photo = Absent ->
   _get_media_meta (names C) photo "photo" = Raise OtherException) /\
  (forall n f, _get_media_meta (names C) photo "photo" = Ok (n, f) ->
               f = None) /\
  (forall pre post st st',
      media_types = (pre ++ "photo" :: post)%list ->
      run (for_types C message file_formats pre) st = (st', Ok tt) ->
      run (attempt C media_types file_formats message) st
      = (st', Raise (photo_error photo))) /\
  (forall pre post st',
      media_types = (pre ++ "photo" :: post)%list ->
      mime_type photo = Absent ->
      run (for_types C message file_formats pre) (w, None) = (st', Ok tt) ->
      download_media C message media_types file_formats w
      = (record_failure (message_id message) (fst st'),
         Ok (message_id message))) /\
  (first_present message media_types = Some "photo" ->
   download_media C message media_types file_formats w
   = match mime_type photo with
     | Absent =>
         ({| FAILED_IDS := FAILED_IDS w ++ [message_id message];
             trace := trace w |}, Ok (message_id message))
     | Has _ =>
         ({| FAILED_IDS := FAILED_IDS w ++ [message_id message];
             trace := trace w ++ [ESleep 5; ESleep 5; ESleep 5] |},
          Ok (message_id message))
     end /\
   downloads
     (trace (fst (download_media C message media_types file_formats w)))
   = downloads (trace w)).
Proof.
  intros Hm Hp.
  assert (R : forall pre post st st',
             media_types = (pre ++ "photo" :: post)%list ->
             run (for_types C message file_formats pre) st = (st', Ok tt) ->
             run (attempt C media_types file_formats message) st
             = (st', Raise (photo_error photo))).
  { intros pre post st st' Hmt Hpre. subst media_types.
    rewrite attempt_media by exact Hm.
    now rewrite (for_types_reach C message file_formats pre post "photo"
                   st st' st' (photo_error photo) Hpre
                   (handle_type_photo C message file_formats photo st' Hp)). }
  split; [|split; [|split; [exact R|split]]].
  - apply absent_mime_type_raises.
  - intros n f E. destruct (mime_type photo) as [|v] eqn:M.
    + rewrite (absent_mime_type_raises _ _ _ M) in E. discriminate.
    + destruct (photo_meta (names C) photo) as [R'|[n' R']];
        [congruence | rewrite R' in E; discriminate
        | rewrite R' in E; now inversion E].
  - intros pre post st' Hmt Ha Hpre.
    apply (download_media_other C message media_types file_formats w st').
    rewrite (R pre post (w, None) st' Hmt Hpre). unfold photo_error.
    now rewrite Ha.
  - intros Hf.
    assert (A : forall st, run (attempt C media_types file_formats message) st
                           = (st, Raise (photo_error photo))).
    { intros st.
      apply (attempt_first_raises C message media_types file_formats "photo");
        auto using handle_type_photo. }
    unfold photo_error in A.
    destruct (mime_type photo) as [|v].
    + rewrite (download_media_other C message media_types file_formats w
                 (w, None)) by apply A.
      split; reflexivity.
    + rewrite (download_media_type_errors C message media_types file_formats w)
        by exact A.
      split; [reflexivity|]. cbn [fst trace]. unfold downloads.
      rewrite filter_app. cbn. now rewrite app_nil_r.
Qed.

(** ** C8: the format filter *)

Lemma str_in_In (f : string) (l : list string) :
  str_in (Some f) l = true <-> In f l.
Proof.
  unfold str_in. rewrite existsb_exists. split.
  - intros [x [Hx E]]. apply String.eqb_eq in E. now subst.
  - intros H. exists f. split; [exact H | apply String.eqb_refl].
Qed.

(** For the three types with a format the resolver returns one. *)
Lemma meta_has_format (E : NameEnv) (o : MediaObj) (_type : string)
    (meta : string * option string) :
  name_in _type ["audio"; "document"; "video"] = true ->
  _get_media_meta E o _type = Ok meta ->
  exists f, snd meta = Some f.
Proof.
  intros Ht. unfold _get_media_meta. rewrite Ht.
  destruct (read (mime_type o)) as [v|e]; cbn [res_bind]; [|discriminate].
  destruct (mime_suffix o) as [f|e]; cbn [res_bind]; [|discriminate].
  destruct (_type =? "voice")%string.
  - destruct (match date o with Some d => utc_isoformat E d
                                | None => Raise TypeError end);
      cbn [res_bind]; intros H; inversion H; eexists; reflexivity.
  - destruct ((_type =? "photo")%string
              && match file_name o with None => true | Some _ => false end).
    + intros H; inversion H; eexists; reflexivity.
    + destruct (or_opt (file_name o) (file_unique_id o));
        intros H; inversion H; eexists; reflexivity.
Qed.

(** What the filter answers for a type with a non-empty allow-list. *)
Lemma can_download_cases (_type : string)
    (file_formats : string -> option (list string))
    (allowed : list string) (f : string) :
  name_in _type ["audio"; "document"; "video"] = true ->
  file_formats _type = Some allowed ->
  allowed <> [] ->
  _can_download _type file_formats (Some f)
  = Ok (str_in (Some f) allowed
        || match allowed with
           | first :: _ => (first =? "all")%string
           | [] => false
           end).
Proof.
  intros Ht Ha Hne. unfold _can_download. rewrite Ht, Ha.
  destruct (str_in (Some f) allowed); cbn [negb orb]; [reflexivity|].
  destruct allowed as [|first rest]; [congruence|].
  destruct (first =? "all")%string; reflexivity.
Qed.

(** C8 as stated fails on an allow-list that is empty: the filter neither
    admits nor rejects the document but raises [IndexError], and the
    message is recorded as failed. *)
Lemma empty_allow_list_fails_message :
  _can_download "document" formats_empty (Some "exe") = Raise OtherException /\
  download_media client_fine (media_msg 4 "document" doc_exe)
    (cfg_media_types cfg1) formats_empty w_empty
  = ({| FAILED_IDS := [4]; trace := [] |}, Ok 4).
Proof. split; reflexivity. Qed.

(** C8, as it holds.  For a type among [audio], [document], [video] whose
    allow-list is configured and not empty, the filter admits a format
    exactly when it is in the list or the first entry of the list is
    [all], and rejects it exactly when it is not in the list and the first
    entry is not [all]; every other type, [photo] and [voice] among them,
    is always admitted; for an attachment whose format is neither in a
    non-empty list nor covered by [all], the body of the loop over the
    types leaves the state as it is and does not raise; and a message with
    media whose only configured attachment is such a one is left with no
    call made and no failure recorded, and its id is returned. *)
Theorem format_filter_admission (C : Client) (message : Message)
    (file_formats : string -> option (list string)) (_type : string) :
  (forall allowed f,
      name_in _type ["audio"; "document"; "video"] = true ->
      file_formats _type = Some allowed ->
      allowed <> [] ->
      (_can_download _type file_formats (Some f) = Ok true
       <-> In f allowed \/ hd_error allowed = Some "all") /\
      (_can_download _type file_formats (Some f) = Ok false
       <-> ~ In f allowed /\ hd_error allowed <> Some "all")) /\
  (forall file_format,
      name_in _type ["audio"; "document"; "video"] = false ->
      _can_download _type file_formats file_format = Ok true) /\
  (forall file_format,
      _can_download "photo" file_formats file_format = Ok true /\
      _can_download "voice" file_formats file_format = Ok true) /\
  (forall allowed o meta,
      name_in _type ["audio"; "document"; "video"] = true ->
      file_formats _type = Some allowed ->
      allowed <> [] ->
      hd_error allowed <> Some "all" ->
      attr message _type = Some o ->
      _get_media_meta (names C) o _type = Ok meta ->
      (forall f, snd meta = Some f -> ~ In f allowed) ->
      (forall st, run (handle_type C message file_formats _type) st
                  = (st, Ok tt)) /\
      (forall pre post w,
          media message = true ->
          first_present message pre = None ->
          first_present message post = None ->
          download_media C message (pre ++ _type :: post) file_formats w
          = (w, Ok (message_id message)))).
Proof.
  assert (Iff : forall allowed f,
             name_in _type ["audio"; "document"; "video"] = true ->
             file_formats _type = Some allowed ->
             allowed <> [] ->
             (_can_download _type file_formats (Some f) = Ok true
              <-> In f allowed \/ hd_error allowed = Some "all") /\
             (_can_download _type file_formats (Some f) = Ok false
              <-> ~ In f allowed /\ hd_error allowed <> Some "all")).
  { intros allowed f Ht Ha Hne.
    rewrite (can_download_cases _type file_formats allowed f Ht Ha Hne).
    rewrite <- str_in_In.
    destruct allowed as [|first rest]; [congruence|]. cbn [hd_error].
    destruct (str_in (Some f) (first :: rest)); cbn [orb].
    - split; split; auto; try discriminate.
      intros [H _]. now destruct H.
    - destruct (first =? "all")%string eqn:E.
      + apply String.eqb_eq in E. subst. split; split; auto; try discriminate.
        intros [_ H]. now destruct H.
      + apply String.eqb_neq in E. split; split; try discriminate.
        * intros [H|H]; [discriminate | inversion H; contradiction].
        * intros _. split; [discriminate|]. intros H. inversion H.
          contradiction.
        * reflexivity. }
  split; [exact Iff|]. split; [|split].
  - intros file_format Ht. unfold _can_download. now rewrite Ht.
  - intros file_format. split; reflexivity.
  - intros allowed o meta Ht Ha Hne Hall Ho Hmeta Hnot.
    destruct (meta_has_format _ _ _ _ Ht Hmeta) as [f Hf].
    assert (Hrej : _can_download _type file_formats (snd meta) = Ok false).
    { rewrite Hf. apply (Iff allowed f Ht Ha Hne). split; auto. }
    assert (Hh : forall st, run (handle_type C message file_formats _type) st
                            = (st, Ok tt)).
    { intros st. unfold handle_type. rewrite Ho, Hmeta.
      cbn [lift bind]. rewrite Hf in *. cbn [ret bind]. rewrite Hrej.
      reflexivity. }
    split; [exact Hh|].
    intros pre post w Hm Hpre Hpost.
    unfold download_media, download_media_task. cbn [seq].
    rewrite run_retry_loop_cons, attempt_media by exact Hm.
    rewrite for_types_app, for_types_absent by exact Hpre.
    cbn [for_types]. rewrite run_bind, Hh.
    rewrite for_types_absent by exact Hpost. reflexivity.
Qed.

(** ** C5: which download call is made *)

(** C5, evaluated.  A video whose target is free has its thumbnails
    downloaded; the same video, when the target exists, is downloaded whole
    through the message; a document on its own is downloaded through the
    message; the same document on a message that also has a [video]
    attribute has the thumbnails of that video downloaded instead. *)
Theorem download_variant_not_by_kind :
  trace (fst (download_media client_fine (media_msg 5 "video" video1)
                ["video"] formats_all w_empty))
  = [EDownload (TThumb "th1") "/srv/tmd/chan/video/1700000000-clip.jpg";
     EDownload (TThumb "th2") "/srv/tmd/chan/video/1700000000-clip.jpg"] /\
  trace (fst (download_media client_present (media_msg 5 "video" video1)
                ["video"] formats_all w_empty))
  = [EDownload (TMessage 5) "/srv/tmd/chan/video/1700000000-clip.mp4-1"] /\
  trace (fst (download_media client_fine (media_msg 5 "document" doc_pdf)
                ["document"] formats_all w_empty))
  = [EDownload (TMessage 5) "/srv/tmd/chan/document/1700000000-paper.pdf"] /\
  trace (fst (download_media client_fine (doc_video_msg 5)
                ["document"] formats_all w_empty))
  = [EDownload (TThumb "th1") "/srv/tmd/chan/document/1700000000-paper.jpg";
     EDownload (TThumb "th2") "/srv/tmd/chan/document/1700000000-paper.jpg"].
Proof. repeat split; vm_compute; reflexivity. Qed.

(** ** C6: the name of a photo *)

(** C6, evaluated.  For the photo of the scenario (date 1700000000, no
    file-name hint, unique id [abc123], and, as every photo of pyrogram,
    no [mime_type]) the resolver produces no name: it raises
    [AttributeError] at its first statement, which reads
    [media_obj.mime_type] for the log. *)
Theorem photo_name_not_resolved :
  date photo1 = Some 1700000000 /\
  file_name photo1 = None /\
  file_unique_id photo1 = Some "abc123" /\
  mime_type photo1 = Absent /\
  _get_media_meta env1 photo1 "photo" = Raise OtherException /\
  _get_media_meta env1 photo1 "photo"
  <> Ok ("/srv/tmd/chan/photo/1700000000abc123.jpg", None).
Proof. repeat split; try reflexivity. discriminate. Qed.

(** ** The pagination loop *)

Lemma dispatch_calls (C : Client) (config : Config) (l : Loop) :
  calls (fst (dispatch C config l)) = (calls l ++ [messages_list l])%list.
Proof.
  unfold dispatch.
  destruct (snd (process_messages C (messages_list l) (cfg_media_types config)
                   (cfg_file_formats config) (world l))); reflexivity.
Qed.

Lemma dispatch_messages_list (C : Client) (config : Config) (l : Loop) :
  messages_list (fst (dispatch C config l)) = messages_list l.
Proof.
  unfold dispatch.
  destruct (snd (process_messages C (messages_list l) (cfg_media_types config)
                   (cfg_file_formats config) (world l))); reflexivity.
Qed.

Lemma dispatch_pagination_count (C : Client) (config : Config) (l : Loop) :
  pagination_count (fst (dispatch C config l)) = pagination_count l.
Proof.
  unfold dispatch.
  destruct (snd (process_messages C (messages_list l) (cfg_media_types config)
                   (cfg_file_formats config) (world l))); reflexivity.
Qed.

Lemma dispatch_ok (C : Client) (config : Config) (l : Loop) :
  messages_list l <> [] -> snd (dispatch C config l) <> Some MaxOfEmpty.
Proof.
  intros Hne. unfold dispatch.
  pose proof (process_messages_max C (messages_list l) (cfg_media_types config)
                (cfg_file_formats config) (world l) Hne) as H.
  destruct (snd (process_messages C (messages_list l) (cfg_media_types config)
                   (cfg_file_formats config) (world l))) as [id|f];
    cbn [snd]; congruence.
Qed.

Lemma no_empty_call_dispatch (C : Client) (config : Config) (l : Loop) :
  no_empty_call l -> messages_list l <> [] ->
  no_empty_call (fst (dispatch C config l)).
Proof.
  intros Hc Hne. unfold no_empty_call. rewrite dispatch_calls.
  apply Forall_app. split; [exact Hc | now repeat constructor].
Qed.

Lemma loop_body_ready (C : Client) (config : Config) (pagination_limit : Z)
    (debug : bool) (l : Loop) (message : Message) :
  ready pagination_limit l ->
  match loop_body C config pagination_limit debug l message with
  | Continue l' => ready pagination_limit l'
  | Break l' => no_empty_call l'
  | Raised l' f => no_empty_call l' /\ f <> MaxOfEmpty
  end.
Proof.
  intros [Hc Hr]. unfold loop_body.
  destruct (pagination_count l =? pagination_limit) eqn:E; cbn [negb].
  - apply Z.eqb_eq in E. specialize (Hr E).
    pose proof (dispatch_ok C config l Hr) as Hok.
    pose proof (no_empty_call_dispatch C config l Hc Hr) as Hc'.
    destruct (dispatch C config l) as [l1 [f|]]; cbn [fst snd] in *.
    + split; [exact Hc' | congruence].
    + destruct debug.
      * exact Hc'.
      * split; [exact Hc' | intros _; discriminate].
  - split; [exact Hc|]. cbn [messages_list]. intros _ H.
    now apply app_eq_nil in H as [_ H].
Qed.

Lemma iterate_ready (C : Client) (config : Config) (pagination_limit : Z)
    (debug : bool) (messages_iter : list Message) :
  forall l, ready pagination_limit l ->
  match iterate C config pagination_limit debug messages_iter l with
  | Continue l' | Break l' => no_empty_call l'
  | Raised l' f => no_empty_call l' /\ f <> MaxOfEmpty
  end.
Proof.
  induction messages_iter as [|message rest IH]; intros l Hl; cbn [iterate].
  - apply Hl.
  - pose proof (loop_body_ready C config pagination_limit debug l message Hl)
      as H.
    destruct (loop_body C config pagination_limit debug l message)
      as [l'|l'|l' f].
    + now apply IH.
    + exact H.
    + exact H.
Qed.

Lemma flush_ready (C : Client) (config : Config) (l : Loop) :
  no_empty_call l ->
  no_empty_call (fst (flush C config l)) /\
  snd (flush C config l) <> Some MaxOfEmpty.
Proof.
  intros Hc. unfold flush. destruct (messages_list l) as [|m ms] eqn:E.
  - split; [exact Hc | discriminate].
  - assert (Hne : messages_list l <> []) by (rewrite E; discriminate).
    split; [now apply no_empty_call_dispatch | now apply dispatch_ok].
Qed.

Lemma process_messages_returns (C : Client) (messages : list Message)
    (media_types : list string)
    (file_formats : string -> option (list string)) (w : World) :
  refetch_by_id C ->
  refetch_returns C ->
  messages <> [] ->
  exists x, snd (process_messages C messages media_types file_formats w)
            = inl x.
Proof.
  intros HC HR Hne. unfold process_messages.
  pose proof (gather_returns C messages media_types file_formats w HC HR) as G.
  destruct (gather C messages media_types file_formats w) as [w' r].
  cbn [snd] in G. subst r.
  destruct (max_nonempty (map message_id messages)) as [x Hx].
  { destruct messages; [congruence | discriminate]. }
  rewrite Hx. now exists x.
Qed.

Lemma dispatch_returns (C : Client) (config : Config) (l : Loop) :
  refetch_by_id C -> refetch_returns C -> messages_list l <> [] ->
  snd (dispatch C config l) = None.
Proof.
  intros HC HR Hne. unfold dispatch.
  destruct (process_messages_returns C (messages_list l)
              (cfg_media_types config) (cfg_file_formats config) (world l)
              HC HR Hne) as [x Hx].
  now rewrite Hx.
Qed.

Lemma iterate_returns (C : Client) (config : Config) (pagination_limit : Z)
    (debug : bool) (messages_iter : list Message) :
  refetch_by_id C -> refetch_returns C ->
  forall l, ready pagination_limit l ->
  forall l' f,
    iterate C config pagination_limit debug messages_iter l <> Raised l' f.
Proof.
  intros HC HR.
  induction messages_iter as [|message rest IH]; intros l Hl l' f;
    cbn [iterate].
  - discriminate.
  - pose proof (loop_body_ready C config pagination_limit debug l message Hl)
      as H.
    destruct (loop_body C config pagination_limit debug l message)
      as [l1|l1|l1 f1] eqn:E.
    + now apply IH.
    + discriminate.
    + exfalso. unfold loop_body in E.
      destruct (pagination_count l =? pagination_limit) eqn:Ef;
        cbn [negb] in E; [|discriminate].
      apply Z.eqb_eq in Ef. destruct Hl as [_ Hl]. specialize (Hl Ef).
      pose proof (dispatch_returns C config l HC HR Hl) as D.
      destruct (dispatch C config l) as [l2 [f2|]]; cbn [snd] in D;
        [discriminate|]. destruct debug; discriminate.
Qed.

(** When every re-fetch returns the message asked for and the page size is
    not 0, no exception leaves [begin_import]. *)
Lemma begin_import_returns (C : Client) (messages_iter : list Message)
    (config : Config) (pagination_limit : Z) (debug : bool) (w : World) :
  refetch_by_id C -> refetch_returns C ->
  pagination_limit <> 0 ->
  snd (begin_import C messages_iter config pagination_limit debug w) = None.
Proof.
  intros HC HR HN. unfold begin_import.
  assert (H0 : ready pagination_limit (loop_init config w)).
  { split; [constructor|]. cbn [loop_init pagination_count]. congruence. }
  pose proof (iterate_returns C config pagination_limit debug messages_iter
                HC HR _ H0) as Hr.
  destruct (iterate C config pagination_limit debug messages_iter
              (loop_init config w)) as [l|l|l f].
  1,2: unfold flush; destruct (messages_list l) as [|m ms] eqn:E;
       [ reflexivity
       | apply dispatch_returns; [exact HC | exact HR | rewrite E; discriminate] ].
  exfalso. now apply (Hr l f).
Qed.

(** C10, as it holds.  For every page size other than 0, every stream and
    both values of [debug], [begin_import] never calls [process_messages]
    on an empty list, and no exception of [max] leaves it; when every
    re-fetch returns the message asked for, no exception at all leaves
    it. *)
Theorem begin_import_no_empty_page (C : Client) (messages_iter : list Message)
    (config : Config) (pagination_limit : Z) (debug : bool) (w : World) :
  pagination_limit <> 0 ->
  let r := begin_import C messages_iter config pagination_limit debug w in
  no_empty_call (fst r) /\ snd r <> Some MaxOfEmpty /\
  (refetch_by_id C -> refetch_returns C -> snd r = None).
Proof.
  intros HN r. subst r.
  cut (no_empty_call
         (fst (begin_import C messages_iter config pagination_limit debug w)) /\
       snd (begin_import C messages_iter config pagination_limit debug w)
       <> Some MaxOfEmpty).
  { intros [H1 H2]. split; [exact H1|]. split; [exact H2|].
    intros HC HR. now apply begin_import_returns. }
  unfold begin_import.
  assert (H0 : ready pagination_limit (loop_init config w)).
  { split; [constructor|]. cbn [loop_init pagination_count]. congruence. }
  pose proof (iterate_ready C config pagination_limit debug messages_iter _ H0)
    as H.
  destruct (iterate C config pagination_limit debug messages_iter
              (loop_init config w)) as [l|l|l f].
  - now apply flush_ready.
  - now apply flush_ready.
  - cbn [fst snd]. destruct H as [H1 H2]. split; [exact H1 | congruence].
Qed.

(** C10 as stated fails for the page size 0: the first message of the
    stream already finds the counter at the limit, [process_messages] is
    called on the empty buffer, and [max] raises. *)
Lemma begin_import_limit_zero_empty_page :
  let r := begin_import client_fine [plain_msg 1] cfg1 0 false w_empty in
  calls (fst r) = [[]] /\ ~ no_empty_call (fst r) /\
  snd r = Some MaxOfEmpty.
Proof.
  cbv zeta. split; [reflexivity|]. split; [|reflexivity].
  intros H. inversion H as [|page rest Hp _]. now apply Hp.
Qed.

(** ** C9: the cursor never goes back *)

Lemma sorted_app_inv {A : Type} (R : A -> A -> Prop) (l1 l2 : list A) :
  StronglySorted R (l1 ++ l2) ->
  StronglySorted R l1 /\ StronglySorted R l2 /\
  (forall a b, In a l1 -> In b l2 -> R a b).
Proof.
  induction l1 as [|x l1 IH]; simpl; intros H.
  - repeat split; [constructor | exact H | contradiction].
  - inversion H as [|? ? Hs Hx]. subst.
    destruct (IH Hs) as [S1 [S2 Hab]]. rewrite Forall_app in Hx.
    destruct Hx as [Hx1 Hx2]. repeat split.
    + now constructor.
    + exact S2.
    + intros a b [Ha|Ha] Hb.
      * subst a. rewrite Forall_forall in Hx2. now apply Hx2.
      * now apply Hab.
Qed.

Lemma sorted_snoc (cs : list Z) (x : Z) :
  StronglySorted Z.le cs -> (forall c, In c cs -> c <= x) ->
  StronglySorted Z.le (cs ++ [x]).
Proof.
  induction cs as [|c cs IH]; simpl; intros Hs Hx.
  - repeat constructor.
  - inversion Hs as [|? ? Hs' Hc]. subst. constructor.
    + apply IH; [exact Hs' | intros; apply Hx; now right].
    + apply Forall_app. split; [exact Hc|]. constructor; [|constructor].
      apply Hx. now left.
Qed.

Lemma ordered_suffix (config : Config) (cs : list Z) (lr : Z)
    (page pend : list Z) :
  ordered config cs lr (page ++ pend) -> ordered config cs lr pend.
Proof.
  intros [Hc [Hp [Hb Hl]]]. apply sorted_app_inv in Hp.
  destruct Hp as [_ [Hp _]]. repeat split; try assumption.
  intros c x Hi Hx. apply Hb; [exact Hi|]. apply in_or_app. now right.
Qed.

Lemma ordered_prefix (config : Config) (cs : list Z) (lr : Z)
    (page pend : list Z) :
  ordered config cs lr (page ++ pend) -> ordered config cs lr page.
Proof.
  intros [Hc [Hp [Hb Hl]]]. apply sorted_app_inv in Hp.
  destruct Hp as [Hp _]. repeat split; try assumption.
  intros c x Hi Hx. apply Hb; [exact Hi|]. apply in_or_app. now left.
Qed.

Lemma ordered_advance (config : Config) (cs : list Z) (lr id : Z)
    (page pend : list Z) :
  ordered config cs lr (page ++ pend) ->
  Py.max page = Some id ->
  ordered config (cs ++ [id]) id pend.
Proof.
  intros [Hc [Hp [Hb Hl]]] Hmax. apply max_spec in Hmax.
  destruct Hmax as [Hin _]. apply sorted_app_inv in Hp.
  destruct Hp as [_ [Hp Hlt]]. repeat split.
  - apply sorted_snoc; [exact Hc|]. intros c Hi. apply Hb; [exact Hi|].
    apply in_or_app. now left.
  - exact Hp.
  - intros c x Hi Hx. apply in_app_or in Hi. destruct Hi as [Hi|[Hi|[]]].
    + apply Hb; [exact Hi|]. apply in_or_app. now right.
    + subst c. apply Z.lt_le_incl. now apply Hlt.
  - now rewrite last_last.
Qed.

Lemma dispatch_ordered (C : Client) (config : Config) (l : Loop)
    (pend : list Z) :
  refetch_by_id C ->
  ordered config (cursors l) (last_read_message_id l)
    (map message_id (messages_list l) ++ pend) ->
  ordered config (cursors (fst (dispatch C config l)))
    (last_read_message_id (fst (dispatch C config l))) pend.
Proof.
  intros HC Ho. unfold dispatch.
  pose proof (process_messages_result C (messages_list l)
                (cfg_media_types config) (cfg_file_formats config) (world l))
    as R.
  destruct (snd (process_messages C (messages_list l) (cfg_media_types config)
                   (cfg_file_formats config) (world l))) as [id|f];
    cbn [fst cursors last_read_message_id].
  - eapply ordered_advance; [eassumption | now apply R].
  - eapply ordered_suffix; eassumption.
Qed.

Lemma loop_body_ordered (C : Client) (config : Config) (pagination_limit : Z)
    (debug : bool) (l : Loop) (message : Message) (rest : list Message) :
  refetch_by_id C ->
  ordered config (cursors l) (last_read_message_id l)
    (map message_id (messages_list l ++ message :: rest)) ->
  match loop_body C config pagination_limit debug l message with
  | Continue l' =>
      ordered config (cursors l') (last_read_message_id l')
        (map message_id (messages_list l' ++ rest))
  | Break l' =>
      ordered config (cursors l') (last_read_message_id l')
        (map message_id (messages_list l'))
  | Raised l' _ => ordered config (cursors l') (last_read_message_id l') []
  end.
Proof.
  intros HC Ho. unfold loop_body.
  destruct (pagination_count l =? pagination_limit); cbn [negb].
  - rewrite map_app in Ho.
    pose proof (dispatch_ordered C config l _ HC Ho) as H.
    destruct (dispatch C config l) as [l1 [f|]]; cbn [fst] in H.
    + apply (ordered_suffix config _ _ (map message_id (message :: rest)) []).
      now rewrite app_nil_r.
    + destruct debug; cbn [cursors last_read_message_id messages_list].
      * apply (ordered_prefix config _ _ [message_id message]
                 (map message_id rest)). exact H.
      * exact H.
  - cbn [cursors last_read_message_id messages_list].
    now rewrite <- app_assoc.
Qed.

Lemma iterate_ordered (C : Client) (config : Config) (pagination_limit : Z)
    (debug : bool) (messages_iter : list Message) :
  refetch_by_id C ->
  forall l,
    ordered config (cursors l) (last_read_message_id l)
      (map message_id (messages_list l ++ messages_iter)) ->
    match iterate C config pagination_limit debug messages_iter l with
    | Continue l' | Break l' =>
        ordered config (cursors l') (last_read_message_id l')
          (map message_id (messages_list l'))
    | Raised l' _ => ordered config (cursors l') (last_read_message_id l') []
    end.
Proof.
  intros HC. induction messages_iter as [|message rest IH]; intros l Ho;
    cbn [iterate].
  - now rewrite app_nil_r in Ho.
  - pose proof (loop_body_ordered C config pagination_limit debug l message
                  rest HC Ho) as H.
    destruct (loop_body C config pagination_limit debug l message)
      as [l'|l'|l' f].
    + now apply IH.
    + exact H.
    + exact H.
Qed.

(** C9.  When re-fetching keeps the id and the stream yields increasing
    ids, the cursors that the successive calls of [process_messages] assign
    never decrease (each is at least every earlier one), and the cursor that
    [begin_import] returns is the last of them, or the configured one when
    no page was dispatched; on the empty stream the cursor is unchanged. *)
Theorem cursor_non_decreasing (C : Client) (messages_iter : list Message)
    (config : Config) (pagination_limit : Z) (debug : bool) (w : World) :
  refetch_by_id C ->
  StronglySorted Z.lt (map message_id messages_iter) ->
  let l := fst (begin_import C messages_iter config pagination_limit debug w) in
  StronglySorted Z.le (cursors l) /\
  last_read_message_id l = last (cursors l) (cfg_last_read_message_id config) /\
  last_read_message_id
    (fst (begin_import C [] config pagination_limit debug w))
  = cfg_last_read_message_id config.
Proof.
  intros HC Hs l. subst l. split; [|split]; [| |reflexivity].
  all: unfold begin_import.
  all: assert (H0 : ordered config (cursors (loop_init config w))
                 (last_read_message_id (loop_init config w))
                 (map message_id
                    (messages_list (loop_init config w) ++ messages_iter)))
         by (repeat split; [constructor | exact Hs | intros c x []]).
  all: pose proof (iterate_ordered C config pagination_limit debug
                     messages_iter HC _ H0) as H.
  all: destruct (iterate C config pagination_limit debug messages_iter
                   (loop_init config w)) as [l|l|l f]; cbn [fst].
  all: try (unfold flush; destruct (messages_list l) as [|m ms] eqn:E;
            [ cbn [fst]; apply H
            | rewrite <- E in H; rewrite <- (app_nil_r (map _ _)) in H;
              apply (dispatch_ordered C config l [] HC) in H; apply H ]).
  all: apply H.
Qed.

(** ** C1: pages after the first hold one message more than the limit *)

Lemma dispatch_bounded (C : Client) (config : Config) (n : Z) (l : Loop) :
  bounded n l ->
  Forall (fun page : list Message => Z.of_nat (List.length page) <= n + 1)
    (calls (fst (dispatch C config l))).
Proof.
  intros [Hc [Hl Hp]]. rewrite dispatch_calls. apply Forall_app.
  split; [exact Hp|]. constructor; [lia | constructor].
Qed.

Lemma loop_body_bounded (C : Client) (config : Config) (n : Z)
    (debug : bool) (l : Loop) (message : Message) :
  bounded n l -> bounded n (loop_of (loop_body C config n debug l message)).
Proof.
  intros Hb. pose proof (dispatch_bounded C config n l Hb) as Hd.
  pose proof (dispatch_messages_list C config l) as Hm.
  pose proof (dispatch_pagination_count C config l) as Hk.
  destruct Hb as [Hc [Hl Hp]]. unfold loop_body.
  destruct (pagination_count l =? n) eqn:E; cbn [negb].
  - destruct (dispatch C config l) as [l1 [f|]]; cbn [fst] in *.
    + cbn [loop_of]. repeat split; try rewrite Hm; try rewrite Hk; try lia.
      exact Hd.
    + destruct debug; cbn [loop_of]; repeat split;
        cbn [pagination_count messages_list calls List.length]; try lia;
        exact Hd.
  - apply Z.eqb_neq in E. cbn [loop_of]. repeat split;
      cbn [pagination_count messages_list calls]; try lia; try exact Hp.
    rewrite length_app. cbn [List.length]. lia.
Qed.

Lemma iterate_bounded (C : Client) (config : Config) (n : Z) (debug : bool)
    (messages_iter : list Message) :
  forall l, bounded n l ->
            bounded n (loop_of (iterate C config n debug messages_iter l)).
Proof.
  induction messages_iter as [|message rest IH]; intros l Hb; cbn [iterate].
  - exact Hb.
  - pose proof (loop_body_bounded C config n debug l message Hb) as H.
    destruct (loop_body C config n debug l message) as [l'|l'|l' f];
      cbn [loop_of] in *; [now apply IH | exact H | exact H].
Qed.

(** What does hold of the page size: with a limit [n >= 0] no call of
    [process_messages] is given more than [n + 1] messages. *)
Theorem page_length_bound (C : Client) (messages_iter : list Message)
    (config : Config) (n : Z) (debug : bool) (w : World) :
  0 <= n ->
  Forall (fun page : list Message => Z.of_nat (List.length page) <= n + 1)
    (calls (fst (begin_import C messages_iter config n debug w))).
Proof.
  intros Hn. unfold begin_import.
  assert (H0 : bounded n (loop_init config w)).
  { repeat split; cbn; try lia. constructor. }
  pose proof (iterate_bounded C config n debug messages_iter _ H0) as H.
  destruct (iterate C config n debug messages_iter (loop_init config w))
    as [l|l|l f]; cbn [loop_of] in H.
  1,2: unfold flush; destruct (messages_list l) eqn:E;
       [ apply H | now apply dispatch_bounded ].
  apply H.
Qed.

(** C1, evaluated.  With page size 1 and the stream of ids 1, 2, 3 the
    first call of [process_messages] gets the message 1 and the second the
    two messages 2 and 3: a page longer than the page size. *)
Theorem page_exceeds_limit :
  let r := begin_import client_fine stream3 cfg1 1 false w_empty in
  map (map message_id) (calls (fst r)) = [[1]; [2; 3]] /\
  Exists (fun page : list Message => 1 < Z.of_nat (List.length page))
    (calls (fst r)).
Proof.
  cbv zeta. split; [reflexivity|].
  apply Exists_cons_tl. apply Exists_cons_hd. cbn. lia.
Qed.

(** * Further properties of the code *)

(** ** The retry loop: what it records and how often it retries *)

Ltac after_states :=
  unfold after_append, after_stale, after_transient, after_emit in *;
  cbn [fst snd record_failure emit FAILED_IDS trace] in *.

Lemma retry_loop_last_round (C : Client) (media_types : list string)
    (file_formats : string -> option (list string)) :
  refetch_by_id C ->
  forall (pre : list nat), ~ In 2%nat pre ->
  forall (message : Message) (st : St),
    let r := run (retry_loop C media_types file_formats (pre ++ [2%nat])
                    message) st in
    FAILED_IDS (fst (fst r)) = FAILED_IDS (fst st) \/
    FAILED_IDS (fst (fst r))
    = (FAILED_IDS (fst st) ++ [message_id message])%list.
Proof.
  intros HC pre. induction pre as [|a pre IH]; intros Hpre message st.
  - cbn [app]. cbv zeta. rewrite run_retry_loop_cons.
    pose proof (keeps_attempt C media_types file_formats message st) as Q.
    destruct Q as [QF _].
    destruct (run (attempt C media_types file_formats message) st)
      as [st1 [[id|]|[| |]]]; cbn [fst snd Nat.eqb] in *.
    + now left.
    + now left.
    + destruct (client_get_messages C (trace (fst st1)) (chat_id message)
                  (message_id message)) as [m'|e] eqn:G.
      * rewrite run_retry_loop_nil. right. after_states.
        apply HC in G. now rewrite G, QF.
      * left. after_states. exact QF.
    + rewrite run_retry_loop_nil. right. after_states. now rewrite QF.
    + right. after_states. now rewrite QF.
  - assert (Ha : (a =? 2)%nat = false).
    { apply Nat.eqb_neq. intros E. apply Hpre. now left. }
    assert (Hpre' : ~ In 2%nat pre) by (intros E; apply Hpre; now right).
    specialize (IH Hpre').
    change ((a :: pre) ++ [2%nat])%list with (a :: (pre ++ [2%nat]))%list.
    cbv zeta. rewrite run_retry_loop_cons.
    pose proof (keeps_attempt C media_types file_formats message st) as Q.
    destruct Q as [QF _].
    destruct (run (attempt C media_types file_formats message) st)
      as [st1 [[id|]|[| |]]]; cbn [fst snd] in *.
    + now left.
    + now left.
    + rewrite Ha.
      destruct (client_get_messages C (trace (fst st1)) (chat_id message)
                  (message_id message)) as [m'|e] eqn:G.
      * apply HC in G.
        destruct (IH m' (after_stale message st1)) as [H|H]; cbv zeta in H;
          rewrite H; after_states; rewrite QF.
        -- now left.
        -- right. now rewrite G.
      * left. after_states. exact QF.
    + rewrite Ha.
      destruct (IH message (after_transient st1)) as [H|H]; cbv zeta in H;
        rewrite H; after_states; rewrite QF.
      * now left.
      * now right.
    + right. after_states. now rewrite QF.
Qed.

(** One call of [download_media] appends nothing to the failure registry,
    or the id of its message once: the three handlers never record the
    same message twice. *)
Theorem failure_recorded_at_most_once (C : Client) (message : Message)
    (media_types : list string)
    (file_formats : string -> option (list string)) (w : World) :
  refetch_by_id C ->
  let r := download_media C message media_types file_formats w in
  FAILED_IDS (fst r) = FAILED_IDS w \/
  FAILED_IDS (fst r) = (FAILED_IDS w ++ [message_id message])%list.
Proof.
  intros HC r. subst r. unfold download_media, download_media_task. cbn [fst].
  apply (retry_loop_last_round C media_types file_formats HC [0%nat; 1%nat]).
  intros [E|[E|[]]]; discriminate.
Qed.

Lemma retry_loop_budget (C : Client) (media_types : list string)
    (file_formats : string -> option (list string)) (retries : list nat) :
  forall (message : Message) (st : St),
    let r := run (retry_loop C media_types file_formats retries message) st in
    (List.length (sleeps (trace (fst (fst r))))
     + List.length (refetches (trace (fst (fst r)))) <=
     List.length retries
     + (List.length (sleeps (trace (fst st)))
        + List.length (refetches (trace (fst st)))))%nat.
Proof.
  induction retries as [|retry rest IH]; intros message st; cbv zeta.
  - rewrite run_retry_loop_nil. cbn. lia.
  - rewrite run_retry_loop_cons.
    pose proof (keeps_attempt C media_types file_formats message st) as Q.
    pose proof (quiet_sleeps _ _ Q) as QS.
    pose proof (quiet_refetches _ _ Q) as QR.
    destruct (run (attempt C media_types file_formats message) st)
      as [st1 [[id|]|[| |]]]; cbn [fst snd List.length] in *.
    + rewrite QS, QR. lia.
    + rewrite QS, QR. lia.
    + destruct (client_get_messages C (trace (fst st1)) (chat_id message)
                  (message_id message)) as [m'|e].
      * match goal with
        | |- context [run (retry_loop _ _ _ _ ?m) ?s] =>
            specialize (IH m s); cbv zeta in IH
        end.
        eapply Nat.le_trans; [exact IH|].
        destruct (retry =? 2)%nat; after_states;
          unfold sleeps, refetches in *;
          rewrite !filter_app, !length_app, QS, QR; cbn; lia.
      * after_states. unfold sleeps, refetches in *.
        rewrite !filter_app, !length_app, QS, QR. cbn. lia.
    + match goal with
      | |- context [run (retry_loop _ _ _ _ ?m) ?s] =>
          specialize (IH m s); cbv zeta in IH
      end.
      eapply Nat.le_trans; [exact IH|].
      destruct (retry =? 2)%nat; after_states;
        unfold sleeps, refetches in *;
        rewrite !filter_app, !length_app, QS, QR; cbn; lia.
    + after_states. rewrite QS, QR. lia.
Qed.

(** One call of [download_media] sleeps and re-fetches at most three times
    in total: each failed attempt is followed by one of the two, and there
    are at most three attempts. *)
Theorem retry_budget (C : Client) (message : Message)
    (media_types : list string)
    (file_formats : string -> option (list string)) (w : World) :
  let w' := fst (download_media C message media_types file_formats w) in
  (List.length (sleeps (trace w')) + List.length (refetches (trace w')) <=
   3 + (List.length (sleeps (trace w))
        + List.length (refetches (trace w))))%nat.
Proof.
  cbv zeta. unfold download_media, download_media_task. cbn [fst].
  apply (retry_loop_budget C media_types file_formats (seq 0 3) message
           (w, None)).
Qed.

(** A message without media, or one that carries none of the configured
    media types, leaves the world as it is: no outside call, no recorded
    failure; its id is returned. *)
Theorem nothing_to_download (C : Client) (message : Message)
    (media_types : list string)
    (file_formats : string -> option (list string)) (w : World) :
  media message = false \/ first_present message media_types = None ->
  download_media C message media_types file_formats w
  = (w, Ok (message_id message)).
Proof.
  intros H. unfold download_media, download_media_task. cbn [seq].
  rewrite run_retry_loop_cons.
  destruct (media message) eqn:Hm.
  - destruct H as [H|H]; [discriminate|].
    rewrite attempt_media by exact Hm.
    now rewrite for_types_absent.
  - unfold attempt. rewrite Hm. reflexivity.
Qed.

(** When the three attempts on a message all raise [TypeError], the task
    has slept three times for 5 seconds and fetched nothing again, the id of
    the message is appended to the failure registry once, and it is
    returned. *)
Theorem transient_exhausted (C : Client) (message : Message)
    (media_types : list string)
    (file_formats : string -> option (list string)) (w : World) :
  transient_attempts C media_types file_formats 3 message (w, None) ->
  let r := download_media C message media_types file_formats w in
  FAILED_IDS (fst r) = (FAILED_IDS w ++ [message_id message])%list /\
  snd r = Ok (message_id message) /\
  sleeps (trace (fst r))
  = (sleeps (trace w) ++ [ESleep 5; ESleep 5; ESleep 5])%list /\
  refetches (trace (fst r)) = refetches (trace w).
Proof.
  intros H r. subst r. unfold download_media, download_media_task.
  cbn [seq fst snd].
  cbn [transient_attempts] in H. destruct H as [H1 [H2 [H3 _]]].
  rewrite run_retry_loop_cons.
  pose proof (keeps_attempt C media_types file_formats message (w, None)) as Q1.
  destruct (run (attempt C media_types file_formats message) (w, None))
    as [st1 r1]; cbn [fst snd] in *; subst r1. cbn [Nat.eqb].
  rewrite run_retry_loop_cons.
  set (s1 := after_transient st1) in *.
  pose proof (keeps_attempt C media_types file_formats message s1) as Q2.
  destruct (run (attempt C media_types file_formats message) s1)
    as [st2 r2]; cbn [fst snd] in *; subst r2. cbn [Nat.eqb].
  rewrite run_retry_loop_cons.
  set (s2 := after_transient st2) in *.
  pose proof (keeps_attempt C media_types file_formats message s2) as Q3.
  destruct (run (attempt C media_types file_formats message) s2)
    as [st3 r3]; cbn [fst snd] in *; subst r3. cbn [Nat.eqb].
  rewrite run_retry_loop_nil.
  pose proof (quiet_sleeps _ _ Q1) as S1. pose proof (quiet_refetches _ _ Q1) as R1.
  pose proof (quiet_sleeps _ _ Q2) as S2. pose proof (quiet_refetches _ _ Q2) as R2.
  pose proof (quiet_sleeps _ _ Q3) as S3. pose proof (quiet_refetches _ _ Q3) as R3.
  destruct Q1 as [F1 _], Q2 as [F2 _], Q3 as [F3 _].
  subst s1 s2. after_states.
  unfold sleeps, refetches in *.
  rewrite filter_app in S2, S3, R2, R3. cbn [filter is_sleep is_refetch] in *.
  rewrite app_nil_r in R2, R3.
  repeat split.
  - now rewrite F3, F2, F1.
  - rewrite filter_app. cbn [filter is_sleep].
    rewrite S3, S2, S1, <- !app_assoc. reflexivity.
  - rewrite filter_app. cbn [filter is_refetch]. rewrite app_nil_r.
    now rewrite R3, R2, R1.
Qed.

(** ** Attachments that fail before any call *)

Lemma four_types (t : string) :
  name_in t ["audio"; "document"; "video"; "voice"] = true ->
  name_in t ["audio"; "document"; "video"] = true \/ t = "voice".
Proof.
  unfold name_in. cbn [existsb].
  destruct (t =? "audio")%string; [now left|].
  destruct (t =? "document")%string; [now left|].
  destruct (t =? "video")%string; [now left|].
  destruct (t =? "voice")%string eqn:E; [|discriminate].
  right. now apply String.eqb_eq in E.
Qed.

Lemma untyped_meta (E : NameEnv) (o : MediaObj) (t : string) :
  name_in t ["audio"; "document"; "video"; "voice"] = true ->
  mime_type o = Absent \/ mime_type o = Has None ->
  _get_media_meta E o t = Raise OtherException.
Proof.
  intros Ht [Hm|Hm]; [now apply absent_mime_type_raises|].
  unfold _get_media_meta, mime_suffix. rewrite Hm. cbn [read res_bind].
  destruct (four_types t Ht) as [H|H].
  - rewrite H. reflexivity.
  - subst t. reflexivity.
Qed.

(** An audio, document, video or voice object without a MIME type (the
    attribute is missing or [None]) makes the resolver raise an exception
    of the last handler: the message is recorded as failed at the first
    attempt, without any outside call. *)
Theorem untyped_media_fails_at_once (C : Client) (message : Message)
    (media_types : list string)
    (file_formats : string -> option (list string)) (w : World)
    (t : string) (o : MediaObj) :
  media message = true ->
  first_present message media_types = Some t ->
  attr message t = Some o ->
  name_in t ["audio"; "document"; "video"; "voice"] = true ->
  mime_type o = Absent \/ mime_type o = Has None ->
  _get_media_meta (names C) o t = Raise OtherException /\
  download_media C message media_types file_formats w
  = (record_failure (message_id message) w, Ok (message_id message)).
Proof.
  intros Hm Hf Ho Ht Hmime.
  pose proof (untyped_meta (names C) o t Ht Hmime) as R.
  split; [exact R|].
  apply (download_media_other C message media_types file_formats w (w, None)).
  apply (attempt_first_raises C message media_types file_formats t); auto.
  unfold handle_type. rewrite Ho, R. reflexivity.
Qed.

(** The filter raises exactly for the types [audio], [document], [video]
    whose allow-list is missing from the configuration or empty, and then
    with an exception of the last handler ([KeyError], [IndexError]). *)
Theorem filter_raises_iff (_type : string)
    (file_formats : string -> option (list string))
    (file_format : option string) (e : exn) :
  _can_download _type file_formats file_format = Raise e <->
  e = OtherException /\
  name_in _type ["audio"; "document"; "video"] = true /\
  (file_formats _type = None \/ file_formats _type = Some []).
Proof.
  unfold _can_download.
  destruct (name_in _type ["audio"; "document"; "video"]).
  - destruct (file_formats _type) as [[|a l]|].
    + assert (H : str_in file_format [] = false)
        by (destruct file_format; reflexivity).
      rewrite H. cbn [negb]. split.
      * intros E. inversion E. auto.
      * intros [E _]. now subst.
    + destruct (str_in file_format (a :: l)); cbn [negb].
      * split; [discriminate | intros [_ [_ [H|H]]]; discriminate].
      * destruct (a =? "all")%string; cbn [negb];
          (split; [discriminate | intros [_ [_ [H|H]]]; discriminate]).
    + split.
      * intros E. inversion E. auto.
      * intros [E _]. now subst.
  - split; [discriminate | intros [_ [H _]]; discriminate].
Qed.

(** When the allow-list of an audio, document or video attachment is
    missing or empty, the message is recorded as failed at the first
    attempt, without any outside call. *)
Theorem missing_allow_list_fails_at_once (C : Client) (message : Message)
    (media_types : list string)
    (file_formats : string -> option (list string)) (w : World)
    (t : string) (o : MediaObj) (meta : string * option string) :
  media message = true ->
  first_present message media_types = Some t ->
  attr message t = Some o ->
  name_in t ["audio"; "document"; "video"] = true ->
  _get_media_meta (names C) o t = Ok meta ->
  file_formats t = None \/ file_formats t = Some [] ->
  download_media C message media_types file_formats w
  = (record_failure (message_id message) w, Ok (message_id message)).
Proof.
  intros Hm Hf Ho Ht Hmeta Hff.
  destruct (meta_has_format _ _ _ _ Ht Hmeta) as [f Hfmt].
  assert (R : _can_download t file_formats (snd meta) = Raise OtherException).
  { unfold _can_download. rewrite Ht, Hfmt.
    destruct Hff as [H|H]; rewrite H; reflexivity. }
  apply (download_media_other C message media_types file_formats w (w, None)).
  apply (attempt_first_raises C message media_types file_formats t); auto.
  unfold handle_type. rewrite Ho, Hmeta. cbn [lift bind].
  rewrite Hfmt in *. cbn [ret bind]. now rewrite R.
Qed.

(** When the resolver raises [TypeError] on the first attachment of a
    message (a voice note without a date, an object with neither a
    file-name hint nor a unique id), every attempt fails the same way:
    three sleeps of 5 seconds, no other call, and the id recorded once. *)
Theorem resolver_type_error_exhausts_retries (C : Client) (message : Message)
    (media_types : list string)
    (file_formats : string -> option (list string)) (w : World)
    (t : string) (o : MediaObj) :
  media message = true ->
  first_present message media_types = Some t ->
  attr message t = Some o ->
  _get_media_meta (names C) o t = Raise TypeError ->
  download_media C message media_types file_formats w
  = ({| FAILED_IDS := FAILED_IDS w ++ [message_id message];
        trace := trace w ++ [ESleep 5; ESleep 5; ESleep 5] |},
     Ok (message_id message)).
Proof.
  intros Hm Hf Ho R. apply download_media_type_errors. intros st.
  apply (attempt_first_raises C message media_types file_formats t); auto.
  unfold handle_type. rewrite Ho, R. reflexivity.
Qed.

(** The resolver raises [TypeError] for a voice note that has a MIME type
    but no date, and for an object resolved by the last branch that has
    neither a usable file-name hint nor a unique id. *)
Lemma resolver_type_error_cases (E : NameEnv) (o : MediaObj) (m : string) :
  mime_type o = Has (Some m) ->
  (date o = None -> _get_media_meta E o "voice" = Raise TypeError) /\
  (forall t,
      name_in t ["audio"; "document"; "video"] = true ->
      or_opt (file_name o) (file_unique_id o) = None ->
      _get_media_meta E o t = Raise TypeError).
Proof.
  intros Hm. split.
  - intros Hd. unfold _get_media_meta, mime_suffix. rewrite Hm, Hd.
    reflexivity.
  - intros t Ht Hn. unfold _get_media_meta, mime_suffix. rewrite Ht, Hm.
    cbn [read res_bind].
    unfold name_in in Ht. cbn [existsb] in Ht.
    destruct (t =? "audio")%string eqn:E1;
      [apply String.eqb_eq in E1; subst; cbn; now rewrite Hn|].
    destruct (t =? "document")%string eqn:E2;
      [apply String.eqb_eq in E2; subst; cbn; now rewrite Hn|].
    destruct (t =? "video")%string eqn:E3;
      [apply String.eqb_eq in E3; subst; cbn; now rewrite Hn|].
    discriminate.
Qed.

(** ** The download calls *)

Lemma download_to_run (C : Client) (t : target) (n : string) (st : St) :
  run (download_to C t n) st
  = match client_download_media C (trace (fst st)) t n with
    | Ok p => ((emit (EDownload t n) (fst st), Some p), Ok tt)
    | Raise e => ((emit (EDownload t n) (fst st), snd st), Raise e)
    end.
Proof.
  unfold download_to, ask_trace, tell, await. cbn [bind run].
  rewrite run_bind, run_lift.
  destruct (client_download_media C (trace (fst st)) t n); reflexivity.
Qed.

(** When no thumbnail download raises, every thumbnail of the list is
    requested once, in order, and all under the same file name. *)
Theorem thumbnails_share_one_name (C : Client) (ts : list string)
    (n : string) :
  (forall tr t, exists p, client_download_media C tr (TThumb t) n = Ok p) ->
  forall st,
    let r := run (download_thumbs C ts n) st in
    snd r = Ok tt /\
    FAILED_IDS (fst (fst r)) = FAILED_IDS (fst st) /\
    trace (fst (fst r))
    = (trace (fst st) ++ map (fun t => EDownload (TThumb t) n) ts)%list.
Proof.
  intros Hok. induction ts as [|t ts IH]; intros st; cbn [download_thumbs map].
  - cbn. now rewrite app_nil_r.
  - cbv zeta. rewrite run_bind, download_to_run.
    destruct (Hok (trace (fst st)) t) as [p Hp]. rewrite Hp.
    match goal with
    | |- context [run (download_thumbs C ts n) ?s] =>
        destruct (IH s) as [H1 [H2 H3]]
    end.
    repeat split.
    + exact H1.
    + rewrite H2. reflexivity.
    + rewrite H3. cbn [fst emit trace]. now rewrite <- app_assoc.
Qed.

(** The body of the loop over the types for an attachment that the
    resolver names and the filter accepts. *)
Lemma handle_type_accepted (C : Client) (message : Message)
    (file_formats : string -> option (list string)) (t : string)
    (o : MediaObj) (fn f : string) (st : St) :
  attr message t = Some o ->
  _get_media_meta (names C) o t = Ok (fn, Some f) ->
  _can_download t file_formats (Some f) = Ok true ->
  run (handle_type C message file_formats t) st
  = run (dispatch_download C message fn (fn ++ "." ++ f)) st.
Proof.
  intros Ho Hmeta Hcan. unfold handle_type. rewrite Ho, Hmeta.
  cbn [lift bind snd fst ret]. rewrite Hcan. reflexivity.
Qed.

(** An accepted attachment on a message without [photo] and [video]
    attributes, whose target does not exist yet, costs exactly one download
    call, given the message and the save name; the body of the loop raises
    what the call raises, and otherwise goes on, whether the call answers
    with a path or with none. *)
Lemma handle_type_plain (C : Client) (message : Message)
    (file_formats : string -> option (list string)) (t : string)
    (o : MediaObj) (fn f : string) (st : St) :
  attr message t = Some o ->
  _get_media_meta (names C) o t = Ok (fn, Some f) ->
  _can_download t file_formats (Some f) = Ok true ->
  _is_exist C (trace (fst st)) (fn ++ "." ++ f) = false ->
  attr message "photo" = None ->
  attr message "video" = None ->
  run (handle_type C message file_formats t) st
  = match client_download_media C (trace (fst st))
            (TMessage (message_id message)) (fn ++ "." ++ f) with
    | Ok p =>
        ((emit (EDownload (TMessage (message_id message)) (fn ++ "." ++ f))
            (fst st), Some p), Ok tt)
    | Raise e =>
        ((emit (EDownload (TMessage (message_id message)) (fn ++ "." ++ f))
            (fst st), snd st), Raise e)
    end.
Proof.
  intros Ho Hmeta Hcan Hex Hp Hv.
  rewrite (handle_type_accepted C message file_formats t o fn f st
             Ho Hmeta Hcan).
  unfold dispatch_download, ask_trace. cbn [bind run].
  rewrite Hex, Hp, Hv. rewrite run_bind, download_to_run.
  destruct (client_download_media C (trace (fst st))
              (TMessage (message_id message)) (fn ++ "." ++ f));
    reflexivity.
Qed.

(** A video with an empty list of thumbnails, accepted and with a free
    target, as the first attachment of a message without a [photo]
    attribute: no download call is made, reading [download_path] fails
    because nothing was assigned to it, and the message is recorded as
    failed at the first attempt. *)
Theorem video_without_thumbnails_fails (C : Client) (message : Message)
    (media_types : list string)
    (file_formats : string -> option (list string)) (w : World)
    (v : MediaObj) (fn f : string) :
  media message = true ->
  first_present message media_types = Some "video" ->
  attr message "video" = Some v ->
  attr message "photo" = None ->
  thumbs v = Some [] ->
  _get_media_meta (names C) v "video" = Ok (fn, Some f) ->
  _can_download "video" file_formats (Some f) = Ok true ->
  _is_exist C (trace w) (fn ++ "." ++ f) = false ->
  download_media C message media_types file_formats w
  = (record_failure (message_id message) w, Ok (message_id message)).
Proof.
  intros Hm Hf Hv Hp Ht Hmeta Hcan Hex.
  apply (download_media_other C message media_types file_formats w (w, None)).
  apply (attempt_first_raises C message media_types file_formats "video");
    auto.
  rewrite (handle_type_accepted C message file_formats "video" v fn f (w, None)
             Hv Hmeta Hcan).
  unfold dispatch_download, ask_trace. cbn [bind run fst].
  rewrite Hex, Hp, Hv, Ht. reflexivity.
Qed.

(** A message whose only configured attachment is accepted and downloaded
    by one plain call that does not raise: whatever the call answers, a
    path or none, the message is not recorded as failed and nothing is
    retried. *)
Theorem soft_failure_is_not_recorded (C : Client) (message : Message)
    (pre post : list string)
    (file_formats : string -> option (list string)) (w : World)
    (t : string) (o : MediaObj) (fn f : string) (p : option string) :
  media message = true ->
  first_present message pre = None ->
  first_present message post = None ->
  attr message t = Some o ->
  _get_media_meta (names C) o t = Ok (fn, Some f) ->
  _can_download t file_formats (Some f) = Ok true ->
  _is_exist C (trace w) (fn ++ "." ++ f) = false ->
  attr message "photo" = None ->
  attr message "video" = None ->
  client_download_media C (trace w) (TMessage (message_id message))
    (fn ++ "." ++ f) = Ok p ->
  download_media C message (pre ++ t :: post) file_formats w
  = (emit (EDownload (TMessage (message_id message)) (fn ++ "." ++ f)) w,
     Ok (message_id message)).
Proof.
  intros Hm Hpre Hpost Ho Hmeta Hcan Hex Hp Hv Hdl.
  assert (A : run (attempt C (pre ++ t :: post) file_formats message) (w, None)
              = ((emit (EDownload (TMessage (message_id message))
                          (fn ++ "." ++ f)) w, Some p), Ok Broke)).
  { rewrite attempt_media by exact Hm.
    rewrite for_types_app, (for_types_absent _ _ _ _ _ Hpre).
    cbn [for_types]. rewrite run_bind.
    rewrite (handle_type_plain C message file_formats t o fn f (w, None)
               Ho Hmeta Hcan Hex Hp Hv).
    cbn [fst]. rewrite Hdl.
    rewrite (for_types_absent _ _ _ _ _ Hpost). reflexivity. }
  unfold download_media, download_media_task. cbn [seq].
  rewrite run_retry_loop_cons, A. reflexivity.
Qed.

(** ** The naming resolver *)

(** [str] of a date is never empty, so the fallback of
    [str(getattr(media_obj, "date", None)) or ""] is never taken. *)
Lemma str_truthy (d : option Z) : truthy (str d) = true.
Proof.
  destruct d as [z|]; [|reflexivity]. unfold str, str_int.
  destruct (Z.to_int z) as [u|u]; [destruct u; reflexivity | reflexivity].
Qed.

Lemma str_no_sep (d : option Z) : startswith_sep (str d) = false.
Proof.
  destruct d as [z|]; [|reflexivity]. unfold str, str_int.
  destruct (Z.to_int z) as [u|u]; [destruct u; reflexivity | reflexivity].
Qed.

Lemma endswith_sep_app (x : string) (c : ascii) (r : string) :
  endswith_sep (x ++ String c r) = endswith_sep (String c r).
Proof.
  induction x as [|a x IH]; [reflexivity|].
  change (String a x ++ String c r) with (String a (x ++ String c r)).
  rewrite <- IH. destruct x; reflexivity.
Qed.

Lemma truthy_app (x : string) (c : ascii) (r : string) :
  truthy (x ++ String c r) = true.
Proof. destruct x; reflexivity. Qed.

Lemma startswith_sep_app (x y : string) :
  truthy x = true -> startswith_sep (x ++ y) = startswith_sep x.
Proof. destruct x; [discriminate | reflexivity]. Qed.

(** Joining a last component that does not start with a slash to a path
    whose last component [t] is a plain name puts one slash between. *)
Lemma join_under (a c t b : string) :
  truthy t = true ->
  startswith_sep t = false ->
  endswith_sep t = false ->
  startswith_sep b = false ->
  os_path_join a [c; t; b] = os_path_join a [c; t] ++ "/" ++ b.
Proof.
  intros Ht Hs He Hb. unfold os_path_join. cbn [fold_left].
  set (p := join_step a c). unfold join_step at 1. rewrite Hb.
  assert (H : truthy (join_step p t) = true /\
              endswith_sep (join_step p t) = false).
  { unfold join_step. rewrite Hs.
    destruct t as [|ch r]; [discriminate|].
    destruct (negb (truthy p) || endswith_sep p).
    - rewrite truthy_app, endswith_sep_app. now split.
    - change (p ++ "/" ++ String ch r) with (p ++ String "/" (String ch r)).
      rewrite truthy_app, endswith_sep_app. now split. }
  destruct H as [H1 H2]. now rewrite H1, H2.
Qed.

Lemma three_types (t : string) :
  name_in t ["audio"; "document"; "video"] = true ->
  t = "audio" \/ t = "document" \/ t = "video".
Proof.
  unfold name_in. cbn [existsb].
  destruct (t =? "audio")%string eqn:E1;
    [apply String.eqb_eq in E1; auto|].
  destruct (t =? "document")%string eqn:E2;
    [apply String.eqb_eq in E2; auto|].
  destruct (t =? "video")%string eqn:E3;
    [apply String.eqb_eq in E3; auto|].
  discriminate.
Qed.

(** An audio, document or video object with a MIME type is named
    [<date>-<hint>], or [<date>-<unique id>] when the hint is missing or
    empty, under the directory of its type; its format is what follows the
    last slash of the MIME type. *)
Theorem media_file_name (E : NameEnv) (o : MediaObj) (t m n : string) :
  name_in t ["audio"; "document"; "video"] = true ->
  mime_type o = Has (Some m) ->
  or_opt (file_name o) (file_unique_id o) = Some n ->
  _get_media_meta E o t
  = Ok (os_path_join (THIS_DIR E) [CHAT_ID E; t]
          ++ "/" ++ str (date o) ++ "-" ++ n,
        Some (split_last m)).
Proof.
  intros Ht Hm Hn.
  assert (Hb : startswith_sep (str (date o) ++ "-" ++ n) = false).
  { rewrite startswith_sep_app by apply str_truthy. apply str_no_sep. }
  unfold _get_media_meta, mime_suffix. rewrite Ht, Hm. cbn [read res_bind].
  destruct (three_types t Ht) as [H|[H|H]]; subst t;
    cbn [String.eqb Ascii.eqb Bool.eqb andb];
    rewrite Hn; rewrite join_under by (reflexivity || exact Hb);
    reflexivity.
Qed.

(** A voice note with a MIME type and a date is named
    [voice_<ISO date>.<format>]; as the save name is the name followed by
    a dot and the format, the file of a voice note that is downloaded by
    the plain call carries its extension twice. *)
Theorem voice_file_name (C : Client) (message : Message)
    (file_formats : string -> option (list string)) (o : MediaObj)
    (m iso : string) (d : Z) :
  mime_type o = Has (Some m) ->
  date o = Some d ->
  utc_isoformat (names C) d = Ok iso ->
  let f := split_last m in
  let fn := os_path_join (THIS_DIR (names C)) [CHAT_ID (names C); "voice"]
              ++ "/" ++ "voice_" ++ iso ++ "." ++ f in
  _get_media_meta (names C) o "voice" = Ok (fn, Some f) /\
  (forall st p,
      attr message "voice" = Some o ->
      attr message "photo" = None ->
      attr message "video" = None ->
      _is_exist C (trace (fst st)) (fn ++ "." ++ f) = false ->
      client_download_media C (trace (fst st))
        (TMessage (message_id message)) (fn ++ "." ++ f) = Ok p ->
      run (handle_type C message file_formats "voice") st
      = ((emit (EDownload (TMessage (message_id message)) (fn ++ "." ++ f))
            (fst st), Some p), Ok tt)).
Proof.
  intros Hm Hd Hiso f fn.
  assert (R : _get_media_meta (names C) o "voice" = Ok (fn, Some f)).
  { unfold _get_media_meta, mime_suffix. rewrite Hm, Hd, Hiso.
    cbn [read name_in existsb String.eqb Ascii.eqb Bool.eqb orb res_bind].
    rewrite join_under by reflexivity. reflexivity. }
  split; [exact R|].
  intros st p Ho Hp Hv Hex Hdl.
  rewrite (handle_type_plain C message file_formats "voice" o fn f st
             Ho R eq_refl Hex Hp Hv).
  now rewrite Hdl.
Qed.

Lemma split_last_shape (s : string) :
  (has_slash s = false /\ split_last s = s) \/
  exists p, s = p ++ String "/" (split_last s).
Proof.
  induction s as [|c r IH]; [now left|].
  cbn [split_last has_slash].
  destruct (has_slash r) eqn:Hr.
  - right. destruct IH as [[H _]|[p Hp]]; [discriminate|].
    exists (String c p). cbn [append]. now rewrite <- Hp.
  - destruct (c =? "/")%char eqn:Hc.
    + right. apply Ascii.eqb_eq in Hc. subst c. now exists "".
    + left. now split.
Qed.

Lemma split_last_no_slash (s : string) : has_slash (split_last s) = false.
Proof.
  induction s as [|c r IH]; [reflexivity|]. cbn [split_last].
  destruct (has_slash r) eqn:Hr; [exact IH|].
  destruct (c =? "/")%char eqn:Hc; [exact Hr|].
  cbn [has_slash]. now rewrite Hc, Hr.
Qed.

(** Whenever the resolver returns a format, the object has a MIME type,
    the format is the part of it after its last slash (the whole of it when
    it has none), and the format contains no slash. *)
Theorem resolved_format (E : NameEnv) (o : MediaObj) (t n f : string) :
  _get_media_meta E o t = Ok (n, Some f) ->
  exists m,
    mime_type o = Has (Some m) /\ f = split_last m /\ has_slash f = false /\
    (m = f \/ exists p, m = p ++ String "/" f).
Proof.
  intros H.
  assert (Hf : exists m, mime_type o = Has (Some m) /\ f = split_last m).
  { revert H. unfold _get_media_meta, mime_suffix.
    destruct (mime_type o) as [|[m|]]; cbn [read res_bind].
    - discriminate.
    - intros H. exists m. split; [reflexivity|].
      destruct (name_in t ["audio"; "document"; "video"]); cbn [res_bind] in H.
      + destruct (t =? "voice")%string.
        * destruct (match date o with Some d => utc_isoformat E d
                                      | None => Raise TypeError end);
            cbn [res_bind] in H; inversion H; reflexivity.
        * destruct ((t =? "photo")%string
                    && match file_name o with None => true | Some _ => false end);
            [inversion H; reflexivity|].
          destruct (or_opt (file_name o) (file_unique_id o));
            inversion H; reflexivity.
      + destruct (t =? "voice")%string.
        * destruct (match date o with Some d => utc_isoformat E d
                                      | None => Raise TypeError end);
            cbn [res_bind] in H; inversion H; reflexivity.
        * destruct ((t =? "photo")%string
                    && match file_name o with None => true | Some _ => false end);
            [inversion H|].
          destruct (or_opt (file_name o) (file_unique_id o)); inversion H.
    - destruct (name_in t ["audio"; "document"; "video"]); cbn [res_bind];
        [discriminate|].
      destruct (t =? "voice")%string; [discriminate|].
      destruct ((t =? "photo")%string
                && match file_name o with None => true | Some _ => false end);
        [intros H; inversion H|].
      destruct (or_opt (file_name o) (file_unique_id o));
        intros H; inversion H. }
  destruct Hf as [m [Hm Hf]]. exists m. subst f.
  split; [exact Hm|]. split; [reflexivity|].
  split; [apply split_last_no_slash|].
  destruct (split_last_shape m) as [[_ H1]|H1]; [left; now rewrite H1 | now right].
Qed.

(** A photo object that has the attribute [mime_type] and no file-name
    hint is named by its date as [str] prints it, followed by its unique
    id (nothing when it has none) and [.jpg], under the directory of
    photos, and has no format; the date [None] gives the prefix [None]. *)
Theorem photo_name (E : NameEnv) (o : MediaObj) :
  mime_type o <> Absent ->
  file_name o = None ->
  _get_media_meta E o "photo"
  = Ok ((os_path_join (THIS_DIR E) [CHAT_ID E; "photo"] ++ "/" ++ str (date o))
          ++ match file_unique_id o with Some u => u | None => "" end
          ++ ".jpg", None).
Proof.
  intros Hm Hn. unfold _get_media_meta.
  destruct (mime_type o) as [|v]; [contradiction|].
  cbn [read name_in existsb String.eqb Ascii.eqb Bool.eqb orb andb res_bind].
  rewrite Hn. unfold or_str. rewrite str_truthy.
  rewrite join_under by (reflexivity || apply str_no_sep).
  f_equal. f_equal. f_equal. unfold or_opt.
  destruct (file_unique_id o) as [u|]; [|reflexivity].
  destruct u; reflexivity.
Qed.

(** ** The orchestrator and the pagination loop: which messages are
    dispatched *)

Lemma follow_nil (schedule : list nat) (w : World) :
  follow schedule w [] = (w, Ok []).
Proof.
  induction schedule as [|i rest IH]; [reflexivity|].
  cbn [follow]. destruct i; exact IH.
Qed.

(** [process_messages] fails in [max] exactly on the empty page; and when
    every re-fetch returns the message asked for, it fails on no other
    page. *)
Theorem process_messages_fails_iff_empty (C : Client) (messages : list Message)
    (media_types : list string)
    (file_formats : string -> option (list string)) (w : World) :
  (snd (process_messages C messages media_types file_formats w)
   = inr MaxOfEmpty <-> messages = []) /\
  (refetch_by_id C -> refetch_returns C ->
   ((exists f, snd (process_messages C messages media_types file_formats w)
               = inr f) <-> messages = [])).
Proof.
  assert (E : snd (process_messages C [] media_types file_formats w)
              = inr MaxOfEmpty).
  { unfold process_messages, gather. cbn [map]. now rewrite follow_nil. }
  split.
  - split.
    + intros H. destruct messages as [|m ms]; [reflexivity|]. exfalso.
      apply (process_messages_max C (m :: ms) media_types file_formats w);
        [discriminate | exact H].
    + intros H. subst. exact E.
  - intros HC HR. split.
    + intros [f H]. destruct messages as [|m ms]; [reflexivity|].
      destruct (process_messages_returns C (m :: ms) media_types file_formats
                  w HC HR) as [x Hx]; [discriminate | congruence].
    + intros H. subst. eexists. exact E.
Qed.

Lemma loop_body_consumes (C : Client) (config : Config) (pagination_limit : Z)
    (debug : bool) (l : Loop) (message : Message) :
  match loop_body C config pagination_limit debug l message with
  | Continue l' | Break l' =>
      (List.concat (calls l') ++ messages_list l'
       = List.concat (calls l) ++ messages_list l ++ [message])%list
  | Raised l' _ =>
      List.concat (calls l') = (List.concat (calls l) ++ messages_list l)%list
  end.
Proof.
  unfold loop_body.
  destruct (pagination_count l =? pagination_limit); cbn [negb].
  - pose proof (dispatch_calls C config l) as Hc.
    destruct (dispatch C config l) as [l1 [f|]]; cbn [fst] in Hc.
    + rewrite Hc, concat_app. cbn [List.concat]. now rewrite app_nil_r.
    + destruct debug; cbn [calls messages_list]; rewrite Hc, concat_app;
        cbn [List.concat]; now rewrite app_nil_r, <- app_assoc.
  - cbn [calls messages_list]. reflexivity.
Qed.

Lemma iterate_consumes (C : Client) (config : Config) (pagination_limit : Z)
    (debug : bool) (messages_iter : list Message) :
  forall l,
    match iterate C config pagination_limit debug messages_iter l with
    | Continue l' =>
        (List.concat (calls l') ++ messages_list l'
         = List.concat (calls l) ++ messages_list l ++ messages_iter)%list
    | Break l' =>
        exists rest,
        (List.concat (calls l) ++ messages_list l ++ messages_iter
         = (List.concat (calls l') ++ messages_list l') ++ rest)%list
    | Raised l' _ =>
        exists rest,
        (List.concat (calls l) ++ messages_list l ++ messages_iter
         = List.concat (calls l') ++ rest)%list
    end.
Proof.
  induction messages_iter as [|message rest IH]; intros l; cbn [iterate].
  - now rewrite app_nil_r.
  - pose proof (loop_body_consumes C config pagination_limit debug l message)
      as H.
    destruct (loop_body C config pagination_limit debug l message)
      as [l'|l'|l' f].
    + specialize (IH l').
      assert (E : (List.concat (calls l) ++ messages_list l ++ message :: rest
                   = (List.concat (calls l') ++ messages_list l') ++ rest)%list).
      { rewrite H, <- !app_assoc. reflexivity. }
      destruct (iterate C config pagination_limit debug rest l')
        as [l2|l2|l2 f2]; rewrite E, <- app_assoc; exact IH.
    + exists rest. rewrite H, <- !app_assoc. reflexivity.
    + exists (message :: rest). rewrite H, <- !app_assoc. reflexivity.
Qed.

Lemma flush_calls (C : Client) (config : Config) (l : Loop) :
  List.concat (calls (fst (flush C config l)))
  = (List.concat (calls l) ++ messages_list l)%list.
Proof.
  unfold flush. destruct (messages_list l) as [|m ms] eqn:E.
  - cbn [fst]. now rewrite app_nil_r.
  - rewrite dispatch_calls, concat_app, E. cbn [List.concat].
    now rewrite app_nil_r.
Qed.

Lemma calls_prefix (C : Client) (messages_iter : list Message)
    (config : Config) (pagination_limit : Z) (debug : bool) (w : World) :
  exists rest,
    messages_iter
    = (List.concat (calls (fst (begin_import C messages_iter config
                             pagination_limit debug w))) ++ rest)%list.
Proof.
  unfold begin_import.
  pose proof (iterate_consumes C config pagination_limit debug messages_iter
                (loop_init config w)) as H.
  cbn [loop_init calls messages_list List.concat app] in H.
  destruct (iterate C config pagination_limit debug messages_iter
              (loop_init config w)) as [l|l|l f].
  - exists []. now rewrite flush_calls, app_nil_r.
  - destruct H as [rest H]. exists rest. now rewrite flush_calls.
  - destruct H as [rest H]. exists rest. exact H.
Qed.

(** For every page size and both values of [debug], the pages handed to
    [process_messages], put end to end, are an initial part of the stream:
    no message is dispatched twice, out of order, or after a gap. *)
Theorem pages_are_a_prefix (C : Client) (messages_iter : list Message)
    (config : Config) (pagination_limit : Z) (debug : bool) (w : World) :
  exists rest,
    messages_iter
    = (List.concat (calls (fst (begin_import C messages_iter config
                                  pagination_limit debug w))) ++ rest)%list.
Proof.
  destruct (calls_prefix C messages_iter config pagination_limit debug w)
    as [rest H].
  exists rest. exact H.
Qed.

Lemma iterate_no_break (C : Client) (config : Config) (pagination_limit : Z)
    (messages_iter : list Message) :
  forall l l',
    iterate C config pagination_limit false messages_iter l <> Break l'.
Proof.
  induction messages_iter as [|message rest IH]; intros l l'; cbn [iterate].
  - discriminate.
  - unfold loop_body.
    destruct (pagination_count l =? pagination_limit); cbn [negb].
    + destruct (dispatch C config l) as [l1 [f|]]; [discriminate | apply IH].
    + apply IH.
Qed.


Lemma iterate_debug_calls (C : Client) (config : Config)
    (pagination_limit : Z) (messages_iter : list Message) :
  forall l, calls l = [] ->
    match iterate C config pagination_limit true messages_iter l with
    | Continue l' => calls l' = []
    | Break l' | Raised l' _ => List.length (calls l') = 1%nat
    end.
Proof.
  induction messages_iter as [|message rest IH]; intros l Hl; cbn [iterate].
  - exact Hl.
  - unfold loop_body.
    destruct (pagination_count l =? pagination_limit); cbn [negb].
    + pose proof (dispatch_calls C config l) as Hc. rewrite Hl in Hc.
      destruct (dispatch C config l) as [l1 [f|]]; cbn [fst calls] in *;
        now rewrite Hc.
    + apply IH. exact Hl.
Qed.

(** With [debug] the loop stops at the first full page: [process_messages]
    is called at most twice, for that page and for the message that
    triggered its dispatch. *)
Theorem debug_stops_after_first_page (C : Client)
    (messages_iter : list Message) (config : Config) (pagination_limit : Z)
    (w : World) :
  (List.length (calls (fst (begin_import C messages_iter config
                              pagination_limit true w))) <= 2)%nat.
Proof.
  unfold begin_import.
  pose proof (iterate_debug_calls C config pagination_limit messages_iter
                (loop_init config w) eq_refl) as H.
  destruct (iterate C config pagination_limit true messages_iter
              (loop_init config w)) as [l|l|l f]; cbn [fst].
  1,2: unfold flush; destruct (messages_list l);
       [ cbn [fst]; rewrite H; cbn; lia
       | rewrite dispatch_calls, length_app, H; cbn; lia ].
  rewrite H. lia.
Qed.

Lemma iterate_never_full (C : Client) (config : Config) (pagination_limit : Z)
    (debug : bool) (messages_iter : list Message) :
  pagination_limit < 0 ->
  forall l, 0 <= pagination_count l ->
    exists l',
      iterate C config pagination_limit debug messages_iter l = Continue l' /\
      messages_list l' = (messages_list l ++ messages_iter)%list /\
      calls l' = calls l /\
      last_read_message_id l' = last_read_message_id l.
Proof.
  intros HN. induction messages_iter as [|message rest IH]; intros l Hl;
    cbn [iterate].
  - exists l. now rewrite app_nil_r.
  - unfold loop_body.
    assert (E : (pagination_count l =? pagination_limit) = false)
      by (apply Z.eqb_neq; lia).
    rewrite E. cbn [negb].
    match goal with
    | |- context [iterate _ _ _ _ _ ?l1] =>
        destruct (IH l1) as [l' [H1 [H2 [H3 H4]]]];
          [cbn [pagination_count]; lia|]
    end.
    exists l'. split; [exact H1|]. cbn [messages_list calls
      last_read_message_id] in *.
    now rewrite H2, <- app_assoc.
Qed.

(** With a negative page size the counter never meets the limit: nothing
    is dispatched inside the loop, and the whole stream goes to
    [process_messages] as one page in the final flush. *)
Theorem negative_limit_single_page (C : Client) (messages_iter : list Message)
    (config : Config) (pagination_limit : Z) (debug : bool) (w : World) :
  pagination_limit < 0 ->
  calls (fst (begin_import C messages_iter config pagination_limit debug w))
  = match messages_iter with
    | [] => []
    | _ :: _ => [messages_iter]
    end.
Proof.
  intros HN. unfold begin_import.
  destruct (iterate_never_full C config pagination_limit debug messages_iter
              HN (loop_init config w)) as [l' [H1 [H2 [H3 _]]]];
    [cbn; lia|].
  rewrite H1. cbn [loop_init messages_list calls app] in H2, H3.
  unfold flush. rewrite H2. destruct messages_iter as [|m ms].
  - cbn [fst]. exact H3.
  - rewrite dispatch_calls, H3, H2. reflexivity.
Qed.

Lemma loop_body_append (C : Client) (config : Config) (n : Z) (debug : bool)
    (l : Loop) (message : Message) :
  pagination_count l <> n ->
  loop_body C config n debug l message
  = Continue {| pagination_count := pagination_count l + 1;
                messages_list := messages_list l ++ [message];
                last_read_message_id := last_read_message_id l;
                world := world l;
                calls := calls l;
                cursors := cursors l |}.
Proof.
  intros H. unfold loop_body. apply Z.eqb_neq in H. now rewrite H.
Qed.

Lemma loop_body_full_debug (C : Client) (config : Config) (n : Z)
    (l : Loop) (message : Message) :
  pagination_count l = n ->
  match loop_body C config n true l message with
  | Break l' =>
      messages_list l' = [message] /\
      calls l' = (calls l ++ [messages_list l])%list
  | Raised l' f => calls l' = (calls l ++ [messages_list l])%list
  | Continue _ => False
  end.
Proof.
  intros H. unfold loop_body. apply Z.eqb_eq in H. rewrite H. cbn [negb].
  pose proof (dispatch_calls C config l) as Hc.
  destruct (dispatch C config l) as [l1 [f|]]; cbn [fst snd] in *.
  - exact Hc.
  - cbn [messages_list calls]. now split.
Qed.

(** The call of [begin_import] in [main] (page size 1, [debug] set) hands
    messages from the head of the stream to [process_messages], one per
    call and at most two, however long the stream is; when no exception
    leaves it, these are the first two messages of the stream; and no
    exception of [max] leaves it. *)
Theorem main_processes_two_messages (C : Client)
    (messages_iter : list Message) (config : Config) (w : World) :
  let r := main_import C messages_iter config w in
  (exists k, (k <= 2)%nat /\
             calls (fst r) = map (fun m => [m]) (firstn k messages_iter)) /\
  (snd r = None ->
   calls (fst r) = map (fun m => [m]) (firstn 2 messages_iter)) /\
  snd r <> Some MaxOfEmpty.
Proof.
  cbv zeta. unfold main_import.
  assert (HM : snd (begin_import C messages_iter config 1 true w)
               <> Some MaxOfEmpty).
  { assert (H1 : 1 <> 0) by lia.
    pose proof (iterate_ready C config 1 true messages_iter
                  (loop_init config w)) as Hr.
    unfold begin_import.
    destruct (iterate C config 1 true messages_iter (loop_init config w))
      as [l|l|l f].
    1,2: apply flush_ready; apply Hr; split; [constructor | cbn; congruence].
    cbn [snd]. intros E. inversion E. subst f.
    destruct Hr as [_ Hr]; [split; [constructor | cbn; congruence]|].
    now apply Hr. }
  split; [|split; [|exact HM]]; clear HM.
  all: unfold begin_import.
  all: destruct messages_iter as [|m1 [|m2 rest]].
  - exists 0%nat. split; [lia | reflexivity].
  - exists 1%nat. split; [lia|].
    cbn [iterate]. rewrite loop_body_append by (cbn; lia).
    unfold flush. cbn [messages_list loop_init app].
    rewrite dispatch_calls. reflexivity.
  - cbn [iterate]. rewrite loop_body_append by (cbn; lia).
    match goal with
    | |- context [loop_body C config 1 true ?l m2] =>
        pose proof (loop_body_full_debug C config 1 l m2 eq_refl) as H;
          destruct (loop_body C config 1 true l m2) as [l'|l'|l' f]
    end.
    + contradiction.
    + destruct H as [Hm Hc]. exists 2%nat. split; [lia|].
      unfold flush. rewrite Hm. rewrite dispatch_calls, Hc, Hm. reflexivity.
    + exists 1%nat. split; [lia|]. cbn [fst]. rewrite H. reflexivity.
  - reflexivity.
  - intros _. cbn [iterate]. rewrite loop_body_append by (cbn; lia).
    unfold flush. cbn [messages_list loop_init app].
    rewrite dispatch_calls. reflexivity.
  - cbn [iterate]. rewrite loop_body_append by (cbn; lia).
    match goal with
    | |- context [loop_body C config 1 true ?l m2] =>
        pose proof (loop_body_full_debug C config 1 l m2 eq_refl) as H;
          destruct (loop_body C config 1 true l m2) as [l'|l'|l' f]
    end.
    + contradiction.
    + destruct H as [Hm Hc]. intros _.
      unfold flush. rewrite Hm. rewrite dispatch_calls, Hc, Hm. reflexivity.
    + discriminate.
Qed.

(** ** The cursor at the end of a run *)

Lemma last_In (l : list Z) (d : Z) : l <> [] -> In (last l d) l.
Proof.
  induction l as [|a l IH]; [congruence|]. intros _.
  destruct l as [|b l]; [now left|].
  right. apply IH. discriminate.
Qed.

Lemma last_append (l1 l2 : list Z) (d : Z) :
  l2 <> [] -> last (l1 ++ l2) d = last l2 d.
Proof.
  intros H. induction l1 as [|a l1 IH]; [reflexivity|].
  change ((a :: l1) ++ l2)%list with (a :: (l1 ++ l2))%list.
  destruct (l1 ++ l2)%list eqn:E.
  - apply app_eq_nil in E. destruct E as [_ E]. congruence.
  - exact IH.
Qed.

Lemma sorted_le_last (l : list Z) (d : Z) :
  StronglySorted Z.lt l -> forall y, In y l -> y <= last l d.
Proof.
  induction l as [|a l IH]; intros Hs y Hy; [contradiction|].
  inversion Hs as [|? ? Hs' Ha]. subst.
  destruct l as [|b l].
  - destruct Hy as [Hy|[]]. subst. cbn. lia.
  - assert (Hl : In (last (b :: l) d) (b :: l)) by (apply last_In; discriminate).
    change (last (a :: b :: l) d) with (last (b :: l) d).
    destruct Hy as [Hy|Hy].
    + subst y. rewrite Forall_forall in Ha. specialize (Ha _ Hl). lia.
    + now apply IH.
Qed.

Lemma max_sorted_last (l : list Z) (d : Z) :
  StronglySorted Z.lt l -> l <> [] -> Py.max l = Some (last l d).
Proof.
  intros Hs Hne. destruct (max_nonempty l Hne) as [x Hx]. rewrite Hx.
  apply max_spec in Hx. destruct Hx as [Hin Hall].
  pose proof (sorted_le_last l d Hs x Hin) as H1.
  rewrite Forall_forall in Hall.
  pose proof (Hall _ (last_In l d Hne)) as H2.
  f_equal. lia.
Qed.

Lemma loop_body_buffer (C : Client) (config : Config) (n : Z) (debug : bool)
    (l l' : Loop) (message : Message) :
  loop_body C config n debug l message = Continue l' ->
  messages_list l' <> [].
Proof.
  unfold loop_body. destruct (pagination_count l =? n); cbn [negb].
  - destruct (dispatch C config l) as [l1 [f|]]; [discriminate|].
    destruct debug; [discriminate|]. intros H. inversion H. discriminate.
  - intros H. inversion H. cbn [messages_list]. intros E.
    now apply app_eq_nil in E as [_ E].
Qed.

Lemma iterate_buffer (C : Client) (config : Config) (n : Z) (debug : bool)
    (messages_iter : list Message) :
  forall l l',
    messages_list l <> [] \/ messages_iter <> [] ->
    iterate C config n debug messages_iter l = Continue l' ->
    messages_list l' <> [].
Proof.
  induction messages_iter as [|message rest IH]; intros l l' H; cbn [iterate].
  - intros E. inversion E. subst. destruct H as [H|H]; [exact H | congruence].
  - destruct (loop_body C config n debug l message) as [l1|l1|l1 f] eqn:E;
      try discriminate.
    apply IH. left. now apply loop_body_buffer in E.
Qed.

Lemma dispatch_cursor (C : Client) (config : Config) (l : Loop) (id : Z) :
  refetch_by_id C ->
  snd (dispatch C config l) = None ->
  Py.max (map message_id (messages_list l)) = Some id ->
  last_read_message_id (fst (dispatch C config l)) = id.
Proof.
  intros HC. unfold dispatch.
  pose proof (process_messages_result C (messages_list l)
                (cfg_media_types config) (cfg_file_formats config) (world l))
    as R.
  destruct (snd (process_messages C (messages_list l) (cfg_media_types config)
                   (cfg_file_formats config) (world l))) as [x|f];
    cbn [fst snd last_read_message_id]; [|discriminate].
  intros _ H. specialize (R x HC eq_refl). congruence.
Qed.

(** Without [debug], with a non-empty stream of increasing ids, the cursor
    that [begin_import] returns when no exception leaves it is the id of
    the last message of the stream. *)
Theorem final_cursor_is_last_id (C : Client) (messages_iter : list Message)
    (config : Config) (pagination_limit : Z) (w : World) :
  refetch_by_id C ->
  StronglySorted Z.lt (map message_id messages_iter) ->
  pagination_limit <> 0 ->
  messages_iter <> [] ->
  snd (begin_import C messages_iter config pagination_limit false w) = None ->
  last_read_message_id
    (fst (begin_import C messages_iter config pagination_limit false w))
  = last (map message_id messages_iter) (cfg_last_read_message_id config).
Proof.
  intros HC Hs HN Hne. unfold begin_import.
  pose proof (iterate_consumes C config pagination_limit false messages_iter
                (loop_init config w)) as H.
  pose proof (iterate_no_break C config pagination_limit messages_iter
                (loop_init config w)) as Hb.
  pose proof (iterate_buffer C config pagination_limit false messages_iter
                (loop_init config w)) as Hbuf.
  cbn [loop_init calls messages_list List.concat app] in H.
  destruct (iterate C config pagination_limit false messages_iter
              (loop_init config w)) as [l|l|l f].
  - specialize (Hbuf l (or_intror Hne) eq_refl).
    unfold flush. destruct (messages_list l) as [|m ms] eqn:E; [congruence|].
    rewrite <- E in *. intros Hok. rewrite <- H, map_app in Hs |- *.
    apply sorted_app_inv in Hs. destruct Hs as [_ [Hs _]].
    assert (Hids : map message_id (messages_list l) <> []).
    { rewrite E. discriminate. }
    rewrite last_append by exact Hids.
    apply dispatch_cursor; [exact HC | exact Hok |]. now apply max_sorted_last.
  - exfalso. now apply (Hb l).
  - discriminate.
Qed.

(** ** The failure registry over a page and over a run *)

Lemma budget_bind {A B : Type} (id : Z) (n : nat) (m : Co A) (f : A -> Co B) :
  budget id 0 m -> (forall a, budget id n (f a)) -> budget id n (bind m f).
Proof.
  intros Hm Hf.
  induction m as [a|e|k IH|e k IH|id' k IH|p k IH|k IH];
    cbn [budget bind] in *; auto.
  destruct Hm as [_ [n' [E _]]]. discriminate.
Qed.

Lemma budget_catch {A : Type} (id : Z) (m : Co A) :
  forall n, budget id n m -> budget id n (catch m).
Proof.
  induction m as [a|e|k IH|e k IH|id' k IH|p k IH|k IH]; intros n H;
    cbn [budget catch] in *; auto.
  destruct H as [E [n' [En H]]]. split; [exact E|]. exists n'. auto.
Qed.

Lemma budget_lift {A : Type} (id : Z) (n : nat) (r : res A) :
  budget id n (lift r).
Proof. destruct r; exact I. Qed.

Lemma budget_download_to (C : Client) (id : Z) (t : target) (n : string) :
  budget id 0 (download_to C t n).
Proof.
  unfold download_to, ask_trace, tell, await. cbn [bind budget]. intros st.
  destruct (client_download_media C (trace (fst st)) t n); exact I.
Qed.

Lemma budget_download_thumbs (C : Client) (id : Z) (ts : list string)
    (n : string) :
  budget id 0 (download_thumbs C ts n).
Proof.
  induction ts as [|t ts IH]; cbn [download_thumbs]; [exact I|].
  apply budget_bind; [apply budget_download_to | intros _; exact IH].
Qed.

Lemma budget_get_download_path (id : Z) : budget id 0 get_download_path.
Proof. intros st. cbn. destruct (snd st); exact I. Qed.

Lemma budget_dispatch_download (C : Client) (id : Z) (message : Message)
    (file_name save_name : string) :
  budget id 0 (dispatch_download C message file_name save_name).
Proof.
  unfold dispatch_download, ask_trace. cbn [bind budget]. intros st.
  apply budget_bind.
  - destruct (_is_exist C (trace (fst st)) save_name).
    + apply budget_bind; [apply budget_lift|]. intros n.
      apply budget_bind; [apply budget_download_to|]. intros _.
      apply budget_bind; [apply budget_get_download_path|]. intros p.
      cbn [bind budget]. intros st'.
      apply budget_bind; [apply budget_lift|]. intros p'. exact I.
    + destruct (attr message "photo"); [apply budget_download_to|].
      destruct (attr message "video") as [v|]; [|apply budget_download_to].
      destruct (thumbs v); [apply budget_download_thumbs | exact I].
  - intros _. apply budget_bind; [apply budget_get_download_path|].
    intros _. exact I.
Qed.

Lemma budget_handle_type (C : Client) (id : Z) (message : Message)
    (file_formats : string -> option (list string)) (t : string) :
  budget id 0 (handle_type C message file_formats t).
Proof.
  unfold handle_type. destruct (attr message t) as [o|]; [|exact I].
  apply budget_bind; [apply budget_lift|]. intros meta.
  apply budget_bind; [destruct (snd meta); exact I|]. intros save_name.
  apply budget_bind; [apply budget_lift|]. intros [|]; [|exact I].
  apply budget_dispatch_download.
Qed.

Lemma budget_for_types (C : Client) (id : Z) (message : Message)
    (file_formats : string -> option (list string))
    (media_types : list string) :
  budget id 0 (for_types C message file_formats media_types).
Proof.
  induction media_types as [|t rest IH]; cbn [for_types]; [exact I|].
  apply budget_bind; [apply budget_handle_type | intros _; exact IH].
Qed.

Lemma budget_attempt (C : Client) (id : Z) (media_types : list string)
    (file_formats : string -> option (list string)) (message : Message) :
  budget id 0 (attempt C media_types file_formats message).
Proof.
  unfold attempt. destruct (negb (media message)); [exact I|].
  apply budget_bind; [apply budget_for_types | intros _; exact I].
Qed.

(** The loop appends the id of its message, and at most once: only the
    last round and the last handler append, and both end the loop. *)
Lemma budget_retry_loop (C : Client) (media_types : list string)
    (file_formats : string -> option (list string)) :
  refetch_by_id C ->
  forall (pre : list nat), ~ In 2%nat pre ->
  forall (message : Message),
    budget (message_id message) 1
      (retry_loop C media_types file_formats (pre ++ [2%nat]) message).
Proof.
  intros HC pre. induction pre as [|a pre IH]; intros Hpre message.
  - cbn [app retry_loop].
    apply budget_bind; [apply budget_catch, budget_attempt|].
    intros [[id|]|[| |]]; try exact I.
    + unfold on_bad_request, ask_trace, tell, await. cbn [bind budget].
      intros st.
      destruct (client_get_messages C (trace (fst st)) (chat_id message)
                  (message_id message)) as [m'|e] eqn:G; [|exact I].
      apply HC in G. cbn. split; [exact G|]. exists 0%nat. split; auto.
    + cbn. split; [reflexivity|]. exists 0%nat. split; auto.
    + cbn. split; [reflexivity|]. exists 0%nat. split; auto.
  - assert (Ha : (a =? 2)%nat = false).
    { apply Nat.eqb_neq. intros E. apply Hpre. now left. }
    assert (Hpre' : ~ In 2%nat pre) by (intros E; apply Hpre; now right).
    specialize (IH Hpre').
    change ((a :: pre) ++ [2%nat])%list with (a :: (pre ++ [2%nat]))%list.
    cbn [retry_loop].
    apply budget_bind; [apply budget_catch, budget_attempt|].
    intros [[id|]|[| |]]; try exact I.
    + unfold on_bad_request, ask_trace, tell, await. rewrite Ha.
      cbn [bind budget]. intros st.
      destruct (client_get_messages C (trace (fst st)) (chat_id message)
                  (message_id message)) as [m'|e] eqn:G; [|exact I].
      apply HC in G. cbn [lift bind ret]. rewrite <- G. apply IH.
    + unfold on_type_error, tell, await. rewrite Ha. cbn [bind budget ret].
      apply IH.
    + cbn. split; [reflexivity|]. exists 0%nat. split; auto.
Qed.

Lemma budget_task (C : Client) (message : Message)
    (media_types : list string)
    (file_formats : string -> option (list string)) :
  refetch_by_id C ->
  budget (message_id message) 1
    (download_media_task C message media_types file_formats).
Proof.
  intros HC. unfold download_media_task.
  apply (budget_retry_loop C media_types file_formats HC [0%nat; 1%nat]).
  intros [E|[E|[]]]; discriminate.
Qed.

Lemma resume_budget {A : Type} (id : Z) (m : Co A) :
  forall (n : nat) (st : St),
    budget id n m ->
    exists k n',
      FAILED_IDS (fst (fst (resume m st)))
      = (FAILED_IDS (fst st) ++ repeat id k)%list /\
      (k + n' = n)%nat /\
      match snd (resume m st) with
      | inl _ => True
      | inr m' => budget id n' m'
      end.
Proof.
  induction m as [a|e|k IH|e k IH|id' k IH|p k IH|k IH]; intros n st H;
    cbn [budget resume] in *.
  - exists 0%nat, n. cbn. now rewrite app_nil_r.
  - exists 0%nat, n. cbn. now rewrite app_nil_r.
  - apply IH. apply H.
  - destruct (IH n (after_emit e st) H) as [j [n' [E R]]].
    exists j, n'. split; [exact E | exact R].
  - destruct H as [Eid [n1 [En H]]]. subst id' n.
    destruct (IH n1 (after_append id st) H) as [j [n' [E [Hsum R]]]].
    exists (S j), n'. split; [|split; [lia | exact R]].
    rewrite E. cbn [after_append fst record_failure FAILED_IDS repeat].
    now rewrite <- app_assoc.
  - destruct (IH n (after_assign p st) H) as [j [n' [E R]]].
    exists j, n'. split; [exact E | exact R].
  - exists 0%nat, n. cbn. rewrite app_nil_r. auto.
Qed.

Lemma run_budget {A : Type} (id : Z) (m : Co A) :
  forall (n : nat) (st : St),
    budget id n m ->
    exists k,
      (k <= n)%nat /\
      FAILED_IDS (fst (fst (run m st)))
      = (FAILED_IDS (fst st) ++ repeat id k)%list.
Proof.
  induction m as [a|e|k IH|e k IH|id' k IH|p k IH|k IH]; intros n st H;
    cbn [budget run] in *.
  - exists 0%nat. cbn. rewrite app_nil_r. split; [lia | reflexivity].
  - exists 0%nat. cbn. rewrite app_nil_r. split; [lia | reflexivity].
  - apply IH. apply H.
  - apply (IH n (after_emit e st) H).
  - destruct H as [Eid [n1 [En H]]]. subst id' n.
    destruct (IH n1 (after_append id st) H) as [j [Hj E]].
    exists (S j). split; [lia|].
    rewrite E. cbn [after_append fst record_failure FAILED_IDS repeat].
    now rewrite <- app_assoc.
  - apply (IH n (after_assign p st) H).
  - apply (IH n st H).
Qed.

Lemma count_repeat (id x : Z) (k : nat) :
  count_occ Z.eq_dec (repeat id k) x = if Z.eq_dec id x then k else 0%nat.
Proof.
  destruct (Z.eq_dec id x) as [E|E].
  - subst. apply count_occ_repeat_eq. reflexivity.
  - apply count_occ_repeat_neq. congruence.
Qed.

Lemma pending_cons (x : Z) (b : Z * nat) (bs : list (Z * nat)) :
  pending x (b :: bs)
  = ((if Z.eq_dec (fst b) x then snd b else 0) + pending x bs)%nat.
Proof. reflexivity. Qed.

Lemma step_nth_budget (i : nat) :
  forall (w : World) (bs : list (Z * nat)) (slots : list slot),
    Forall2 slot_budget bs slots ->
    exists added bs',
      FAILED_IDS (fst (step_nth i w slots)) = (FAILED_IDS w ++ added)%list /\
      (forall x, (count_occ Z.eq_dec added x + pending x bs'
                  = pending x bs)%nat) /\
      match snd (step_nth i w slots) with
      | Ok slots' => Forall2 slot_budget bs' slots'
      | Raise _ => True
      end.
Proof.
  induction i as [|j IH]; intros w bs slots H;
    destruct H as [|[id n] s bs ss Hs Hrest]; cbn [step_nth].
  - exists [], []. cbn. rewrite app_nil_r. repeat split. constructor.
  - assert (R : exists k n',
               FAILED_IDS (fst (step_slot w s))
               = (FAILED_IDS w ++ repeat id k)%list /\
               (k + n' = n)%nat /\
               match snd (step_slot w s) with
               | Ok s' => slot_budget (id, n') s'
               | Raise _ => True
               end).
    { destruct s as [l k|id']; cbn [slot_budget step_slot fst snd] in *.
      - destruct (resume_budget id k n (w, l) Hs) as [j [n' [E [Hsum R]]]].
        exists j, n'.
        destruct (resume k (w, l)) as [st [[id'|e]|k']]; cbn [fst snd] in *;
          auto.
      - exists 0%nat, n. cbn. rewrite app_nil_r. auto. }
    destruct R as [k [n' [E [Hsum R]]]].
    exists (repeat id k), ((id, n') :: bs).
    destruct (step_slot w s) as [w' [s'|e]]; cbn [fst snd] in *.
    + split; [exact E|]. split.
      * intros x. rewrite count_repeat. rewrite !pending_cons. cbn [fst snd].
        destruct (Z.eq_dec id x); lia.
      * now constructor.
    + split; [exact E|]. split; [|exact I].
      intros x. rewrite count_repeat. rewrite !pending_cons. cbn [fst snd].
      destruct (Z.eq_dec id x); lia.
  - exists [], []. cbn. rewrite app_nil_r. repeat split. constructor.
  - destruct (IH w bs ss Hrest) as [added [bs' [E [Hc R]]]].
    exists added, ((id, n) :: bs').
    destruct (step_nth j w ss) as [w' [ss'|e]]; cbn [fst snd] in *.
    + split; [exact E|]. split.
      * intros x. specialize (Hc x). rewrite !pending_cons. cbn [fst snd]. lia.
      * now constructor.
    + split; [exact E|]. split; [|exact I].
      intros x. specialize (Hc x). rewrite !pending_cons. cbn [fst snd]. lia.
Qed.

Lemma follow_budget (schedule : list nat) :
  forall (w : World) (bs : list (Z * nat)) (slots : list slot),
    Forall2 slot_budget bs slots ->
    exists added bs',
      FAILED_IDS (fst (follow schedule w slots)) = (FAILED_IDS w ++ added)%list /\
      (forall x, (count_occ Z.eq_dec added x + pending x bs'
                  = pending x bs)%nat) /\
      match snd (follow schedule w slots) with
      | Ok slots' => Forall2 slot_budget bs' slots'
      | Raise _ => True
      end.
Proof.
  induction schedule as [|i rest IH]; intros w bs slots H; cbn [follow].
  - exists [], bs. cbn. rewrite app_nil_r. auto.
  - destruct (step_nth_budget i w bs slots H) as [a1 [bs1 [E1 [C1 R1]]]].
    destruct (step_nth i w slots) as [w1 [slots1|e]]; cbn [fst snd] in *.
    + destruct (IH w1 bs1 slots1 R1) as [a2 [bs2 [E2 [C2 R2]]]].
      exists (a1 ++ a2)%list, bs2. split; [|split; [|exact R2]].
      * rewrite E2, E1. now rewrite app_assoc.
      * intros x. rewrite count_occ_app. specialize (C1 x).
        specialize (C2 x). lia.
    + exists a1, bs1. auto.
Qed.

Lemma finish_budget :
  forall (bs : list (Z * nat)) (slots : list slot),
    Forall2 slot_budget bs slots ->
    forall w,
    exists added,
      FAILED_IDS (fst (finish w slots)) = (FAILED_IDS w ++ added)%list /\
      (forall x, (count_occ Z.eq_dec added x <= pending x bs)%nat).
Proof.
  intros bs slots H.
  induction H as [|[id n] s bs ss Hs Hrest IH]; intros w; cbn [finish].
  - exists []. cbn. rewrite app_nil_r. auto.
  - assert (R : exists k,
               (k <= n)%nat /\
               FAILED_IDS (fst (match s with
                                | Finished id' => (w, Ok id')
                                | Pending l m =>
                                    (fst (fst (run m (w, l))),
                                     snd (run m (w, l)))
                                end))
               = (FAILED_IDS w ++ repeat id k)%list).
    { destruct s as [l m|id']; cbn [slot_budget fst snd] in *.
      - apply (run_budget id m n (w, l) Hs).
      - exists 0%nat. cbn. rewrite app_nil_r. split; [lia | reflexivity]. }
    destruct R as [k [Hk E]].
    set (r := match s with
              | Finished id' => (w, Ok id')
              | Pending l m =>
                  (fst (fst (run m (w, l))), snd (run m (w, l)))
              end) in *.
    destruct (snd r) as [id'|e].
    + destruct (IH (fst r)) as [a2 [E2 C2]].
      exists (repeat id k ++ a2)%list.
      destruct (finish (fst r) ss) as [w' [ids|e]]; cbn [fst] in *.
      all: split; [rewrite E2, E; now rewrite app_assoc|].
      all: intros x; rewrite count_occ_app, count_repeat; specialize (C2 x);
        rewrite !pending_cons; cbn [fst snd];
        destruct (Z.eq_dec id x); lia.
    + exists (repeat id k). cbn [fst]. split; [exact E|].
      intros x. rewrite count_repeat. rewrite !pending_cons. cbn [fst snd]. destruct (Z.eq_dec id x); lia.
Qed.

Lemma pending_ids (messages : list Message) (x : Z) :
  pending x (map (fun m => (message_id m, 1%nat)) messages)
  = count_occ Z.eq_dec (map message_id messages) x.
Proof.
  induction messages as [|m ms IH]; [reflexivity|].
  cbn [map count_occ]. rewrite pending_cons, IH. cbn [fst snd].
  destruct (Z.eq_dec (message_id m) x); reflexivity.
Qed.

Lemma gather_records (C : Client) (messages : list Message)
    (media_types : list string)
    (file_formats : string -> option (list string)) (w : World) :
  refetch_by_id C ->
  records (map message_id messages) w
    (fst (gather C messages media_types file_formats w)).
Proof.
  intros HC. unfold gather, records.
  set (bs := map (fun m => (message_id m, 1%nat)) messages).
  assert (H0 : Forall2 slot_budget bs
                 (map (fun message =>
                         Pending None
                           (download_media_task C message media_types
                              file_formats)) messages)).
  { subst bs. induction messages as [|m ms IH]; cbn [map]; constructor;
      [apply budget_task; exact HC | exact IH]. }
  destruct (follow_budget (scheduler C (trace w)) w bs _ H0)
    as [a1 [bs1 [E1 [C1 R1]]]].
  destruct (follow (scheduler C (trace w)) w
              (map (fun message =>
                      Pending None
                        (download_media_task C message media_types
                           file_formats)) messages)) as [w1 [slots1|e]];
    cbn [fst snd] in *.
  - destruct (finish_budget bs1 slots1 R1 w1) as [a2 [E2 C2]].
    exists (a1 ++ a2)%list. split; [rewrite E2, E1; now rewrite app_assoc|].
    intros x. rewrite count_occ_app, <- pending_ids. fold bs.
    specialize (C1 x). specialize (C2 x). lia.
  - exists a1. split; [exact E1|]. intros x. rewrite <- pending_ids. fold bs.
    specialize (C1 x). lia.
Qed.

Lemma process_messages_world (C : Client) (messages : list Message)
    (media_types : list string)
    (file_formats : string -> option (list string)) (w : World) :
  fst (process_messages C messages media_types file_formats w)
  = fst (gather C messages media_types file_formats w).
Proof.
  unfold process_messages.
  destruct (gather C messages media_types file_formats w) as [w' [ids|e]];
    [destruct (Py.max ids)|]; reflexivity.
Qed.

Lemma records_in (ids added : list Z) :
  (forall x, (count_occ Z.eq_dec added x <= count_occ Z.eq_dec ids x)%nat) ->
  incl added ids /\ (NoDup ids -> NoDup added).
Proof.
  intros H. split.
  - intros x Hx. apply (count_occ_In Z.eq_dec).
    apply (count_occ_In Z.eq_dec) in Hx. specialize (H x). lia.
  - intros Hn. rewrite (NoDup_count_occ Z.eq_dec) in *. intros x.
    specialize (H x). specialize (Hn x). lia.
Qed.

(** Whatever the order in which the event loop resumes the tasks of a
    page, [process_messages] only appends to the failure registry, and
    what it appends are ids of messages of the page, none more often than
    the page has messages with that id: no message is recorded twice.  The
    order of the new entries is the order in which the tasks fail, not the
    order of the page. *)
Theorem page_failures (C : Client) (messages : list Message)
    (media_types : list string)
    (file_formats : string -> option (list string)) (w : World) :
  refetch_by_id C ->
  exists added,
    FAILED_IDS (fst (process_messages C messages media_types file_formats w))
    = (FAILED_IDS w ++ added)%list /\
    (forall x, (count_occ Z.eq_dec added x
                <= count_occ Z.eq_dec (map message_id messages) x)%nat) /\
    incl added (map message_id messages) /\
    (NoDup (map message_id messages) -> NoDup added).
Proof.
  intros HC. rewrite process_messages_world.
  destruct (gather_records C messages media_types file_formats w HC)
    as [added [E H]].
  exists added. split; [exact E|]. split; [exact H|]. now apply records_in.
Qed.

(** The order of the registry is the order of completion: on the page of
    the messages 1 and 2, with an event loop that lets the task of the
    second message fail first, the registry ends as [2; 1]. *)
Example failures_in_completion_order :
  FAILED_IDS
    (fst (process_messages client_second_first
            [media_msg 1 "document" doc_pdf; media_msg 2 "document" doc_pdf]
            (cfg_media_types cfg1) formats_all w_empty))
  = [2; 1].
Proof. reflexivity. Qed.

Lemma dispatch_records (C : Client) (config : Config) (l : Loop) :
  refetch_by_id C ->
  records (map message_id (messages_list l)) (world l)
    (world (fst (dispatch C config l))).
Proof.
  intros HC.
  pose proof (gather_records C (messages_list l) (cfg_media_types config)
                (cfg_file_formats config) (world l) HC) as G.
  rewrite <- process_messages_world in G. unfold dispatch.
  destruct (snd (process_messages C (messages_list l) (cfg_media_types config)
                   (cfg_file_formats config) (world l))); exact G.
Qed.

Lemma records_step (w0 w w' : World) (ids page : list Z) :
  records ids w0 w -> records page w w' -> records (ids ++ page) w0 w'.
Proof.
  intros [a1 [E1 C1]] [a2 [E2 C2]]. exists (a1 ++ a2)%list.
  split; [rewrite E2, E1; now rewrite app_assoc|].
  intros x. rewrite !count_occ_app. specialize (C1 x). specialize (C2 x). lia.
Qed.

Lemma dispatch_run_records (C : Client) (config : Config) (w0 : World)
    (l : Loop) :
  refetch_by_id C ->
  records (map message_id (List.concat (calls l))) w0 (world l) ->
  records (map message_id (List.concat (calls (fst (dispatch C config l)))))
    w0 (world (fst (dispatch C config l))).
Proof.
  intros HC H. rewrite dispatch_calls, concat_app, map_app.
  cbn [List.concat]. rewrite app_nil_r.
  eapply records_step; [exact H | now apply dispatch_records].
Qed.

Lemma loop_body_records (C : Client) (config : Config) (n : Z) (debug : bool)
    (w0 : World) (l : Loop) (message : Message) :
  refetch_by_id C ->
  records (map message_id (List.concat (calls l))) w0 (world l) ->
  let l' := loop_of (loop_body C config n debug l message) in
  records (map message_id (List.concat (calls l'))) w0 (world l').
Proof.
  intros HC H. cbv zeta. unfold loop_body.
  destruct (pagination_count l =? n); cbn [negb].
  - pose proof (dispatch_run_records C config w0 l HC H) as D.
    destruct (dispatch C config l) as [l1 [f|]]; cbn [fst] in D.
    + exact D.
    + destruct debug; exact D.
  - exact H.
Qed.

Lemma iterate_records (C : Client) (config : Config) (n : Z) (debug : bool)
    (w0 : World) (messages_iter : list Message) :
  refetch_by_id C ->
  forall l,
    records (map message_id (List.concat (calls l))) w0 (world l) ->
    let l' := loop_of (iterate C config n debug messages_iter l) in
    records (map message_id (List.concat (calls l'))) w0 (world l').
Proof.
  intros HC. induction messages_iter as [|message rest IH]; intros l H;
    cbn [iterate].
  - exact H.
  - pose proof (loop_body_records C config n debug w0 l message HC H) as B.
    cbv zeta in B.
    destruct (loop_body C config n debug l message) as [l1|l1|l1 f];
      cbn [loop_of] in *; [now apply IH | exact B | exact B].
Qed.

(** Over a whole run of [begin_import], whatever the page size, the value
    of [debug] and the order in which the tasks are resumed, the failure
    registry is only appended to, and what is appended are ids of messages
    of the stream, none more often than the stream has messages with that
    id: when the ids of the stream are distinct, no id is recorded
    twice. *)
Theorem run_failures (C : Client) (messages_iter : list Message)
    (config : Config) (pagination_limit : Z) (debug : bool) (w : World) :
  refetch_by_id C ->
  exists added,
    FAILED_IDS (world (fst (begin_import C messages_iter config
                              pagination_limit debug w)))
    = (FAILED_IDS w ++ added)%list /\
    (forall x, (count_occ Z.eq_dec added x
                <= count_occ Z.eq_dec (map message_id messages_iter) x)%nat) /\
    incl added (map message_id messages_iter) /\
    (NoDup (map message_id messages_iter) -> NoDup added).
Proof.
  intros HC.
  assert (R : records
                (map message_id
                   (List.concat
                      (calls (fst (begin_import C messages_iter config
                                     pagination_limit debug w)))))
                w
                (world (fst (begin_import C messages_iter config
                               pagination_limit debug w)))).
  { unfold begin_import.
    assert (H0 : records
                   (map message_id
                      (List.concat (calls (loop_init config w))))
                   w (world (loop_init config w))).
    { exists []. cbn. rewrite app_nil_r. split; [reflexivity | intros; lia]. }
    pose proof (iterate_records C config pagination_limit debug w
                  messages_iter HC _ H0) as H. cbv zeta in H.
    destruct (iterate C config pagination_limit debug messages_iter
                (loop_init config w)) as [l|l|l f]; cbn [loop_of fst] in *.
    1,2: unfold flush; destruct (messages_list l);
         [ exact H | now apply dispatch_run_records ].
    exact H. }
  destruct (calls_prefix C messages_iter config pagination_limit debug w)
    as [rest Hp].
  destruct R as [added [E Hc]].
  assert (Hc' : forall x,
             (count_occ Z.eq_dec added x
              <= count_occ Z.eq_dec (map message_id messages_iter) x)%nat).
  { intros x. specialize (Hc x).
    apply (f_equal (fun l => count_occ Z.eq_dec (map message_id l) x)) in Hp.
    cbn beta in Hp. rewrite map_app, count_occ_app in Hp. lia. }
  exists added. split; [exact E|]. split; [exact Hc'|]. now apply records_in.
Qed.

(** ** The entry point *)

Lemma str_find_ge (c : ascii) (s : string) : -1 <= str_find c s.
Proof.
  induction s as [|a r IH]; cbn [str_find]; [lia|].
  destruct (a =? c)%char; [lia|].
  destruct (str_find c r <? 0) eqn:E; [lia|]. apply Z.ltb_ge in E. lia.
Qed.

Lemma str_find_first (c : ascii) (p r : string) :
  str_find c p = -1 ->
  str_find c (p ++ String c r) = Z.of_nat (String.length p).
Proof.
  induction p as [|a p IH]; intros H.
  - cbn. now rewrite Ascii.eqb_refl.
  - cbn [append str_find String.length] in *.
    destruct (a =? c)%char; [discriminate|].
    pose proof (str_find_ge c p) as G.
    destruct (str_find c p <? 0) eqn:E.
    + apply Z.ltb_lt in E. rewrite IH by lia.
      destruct (Z.of_nat (String.length p) <? 0) eqn:E2;
        [apply Z.ltb_lt in E2; lia | lia].
    + apply Z.ltb_ge in E. lia.
Qed.

Lemma substring_prefix (p x : string) :
  substring 0 (String.length p) (p ++ x) = p.
Proof.
  induction p as [|a p IH]; cbn [append String.length substring].
  - destruct x; reflexivity.
  - now rewrite IH.
Qed.

Lemma length_snoc (s : string) (c : ascii) :
  String.length (s ++ String c "") = S (String.length s).
Proof. induction s as [|a s IH]; cbn; [reflexivity | now rewrite IH]. Qed.

(** For a configuration file name with a dot, [CHAT_ID], the name of the
    download directory, is the part before the first dot. *)
Theorem chat_id_before_first_dot (p r : string) :
  str_find "." p = -1 ->
  chat_id_of (p ++ String "." r) = p.
Proof.
  intros H. unfold chat_id_of, str_prefix.
  rewrite (str_find_first "." p r H).
  destruct (Z.of_nat (String.length p) <? 0) eqn:E;
    [apply Z.ltb_lt in E; lia|].
  rewrite Nat2Z.id. apply substring_prefix.
Qed.

(** For a non-empty configuration file name without a dot, [find] answers
    -1 and the slice drops the last character: [CHAT_ID] is the file name
    without its last character. *)
Theorem chat_id_without_dot (s : string) (c : ascii) :
  str_find "." (s ++ String c "") = -1 ->
  chat_id_of (s ++ String c "") = s.
Proof.
  intros H. unfold chat_id_of, str_prefix. rewrite H. cbn [Z.ltb Z.compare].
  rewrite length_snoc.
  replace (Z.max 0 (-1 + Z.of_nat (S (String.length s))))
    with (Z.of_nat (String.length s)) by lia.
  rewrite Nat2Z.id. apply substring_prefix.
Qed.

(** The configuration file name is never empty: it is the first argument
    when that is given and not empty, and [config.yaml] otherwise, also for
    an argument that is the empty string. *)
Theorem config_filename_cases (argv : list string) :
  truthy (config_filename argv) = true /\
  (forall prog a rest,
      argv = prog :: a :: rest -> a <> "" -> config_filename argv = a) /\
  (forall prog rest,
      argv = prog :: "" :: rest -> config_filename argv = "config.yaml") /\
  ((List.length argv <= 1)%nat -> config_filename argv = "config.yaml").
Proof.
  repeat split.
  - destruct argv as [|prog [|a rest]]; try reflexivity.
    cbn [config_filename]. unfold or_str.
    destruct (truthy a) eqn:E; [exact E | reflexivity].
  - intros prog a rest E Ha. subst. cbn [config_filename]. unfold or_str.
    destruct a; [congruence | reflexivity].
  - intros prog rest E. subst. reflexivity.
  - intros H. destruct argv as [|prog [|a rest]]; try reflexivity.
    cbn in H. lia.
Qed.

(** * The theorems at concrete inputs *)

Lemma client_of_refetch (r : res (option string)) (present : bool) :
  refetch_by_id (client_of r present).
Proof. intros tr chat id m H. inversion H. reflexivity. Qed.

Lemma client_of_returns (r : res (option string)) (present : bool) :
  refetch_returns (client_of r present).
Proof. intros tr chat id. eexists. reflexivity. Qed.

Lemma stream3_sorted : StronglySorted Z.lt (map message_id stream3).
Proof. repeat (constructor; try (cbn; lia)). Qed.

Lemma process_messages_returns_max_id_witness :
  refetch_by_id client_broken /\ refetch_returns client_broken /\
  page_mixed <> [] /\
  (forall m w', snd (download_media client_broken m (cfg_media_types cfg1)
                       formats_all w') = Ok (message_id m)) /\
  exists x,
    snd (process_messages client_broken page_mixed (cfg_media_types cfg1)
           formats_all w_empty) = inl x /\
    In x (map message_id page_mixed) /\
    Forall (fun m => message_id m <= x) page_mixed.
Proof.
  split; [apply client_of_refetch|]. split; [apply client_of_returns|].
  split; [discriminate|].
  apply (process_messages_returns_max_id client_broken page_mixed
           (cfg_media_types cfg1) formats_all w_empty).
  - apply client_of_refetch.
  - apply client_of_returns.
  - discriminate.
Defined.

Lemma stale_reference_exhausted_witness :
  let r := download_media client_stale (media_msg 7 "document" doc_pdf)
             (cfg_media_types cfg1) formats_all w_empty in
  refetch_by_id client_stale /\
  stale_attempts client_stale (cfg_media_types cfg1) formats_all 3
    (media_msg 7 "document" doc_pdf) (w_empty, None) /\
  FAILED_IDS (fst r) = [7] /\ snd r = Ok 7.
Proof.
  cbv zeta.
  assert (H : stale_attempts client_stale (cfg_media_types cfg1) formats_all 3
                (media_msg 7 "document" doc_pdf) (w_empty, None)).
  { vm_compute. repeat split; reflexivity. }
  split; [apply client_of_refetch|]. split; [exact H|].
  destruct (stale_reference_exhausted client_stale
              (media_msg 7 "document" doc_pdf) (cfg_media_types cfg1)
              formats_all w_empty (client_of_refetch _ _) H)
    as [HF [Hid _]].
  split; [exact HF | exact Hid].
Defined.

Lemma photo_message_fails_witness :
  media (media_msg 5 "photo" photo_mimed) = true /\
  attr (media_msg 5 "photo" photo_mimed) "photo" = Some photo_mimed /\
  first_present (media_msg 5 "photo" photo_mimed) (cfg_media_types cfg1)
  = Some "photo" /\
  download_media client_fine (media_msg 5 "photo" photo_mimed)
    (cfg_media_types cfg1) formats_all w_empty
  = ({| FAILED_IDS := [5]; trace := [ESleep 5; ESleep 5; ESleep 5] |}, Ok 5).
Proof.
  split; [reflexivity|]. split; [reflexivity|]. split; [reflexivity|].
  exact (proj1 (proj2 (proj2 (proj2 (proj2
           (photo_message_fails client_fine
              (media_msg 5 "photo" photo_mimed) (cfg_media_types cfg1)
              formats_all w_empty photo_mimed eq_refl eq_refl)))) eq_refl)).
Defined.

Lemma unclassified_error_no_retry_witness :
  let st1 : St :=
    ({| FAILED_IDS := [];
        trace := [EDownload (TMessage 9)
                    "/srv/tmd/chan/document/1700000000-paper.pdf"] |}, None) in
  let r := download_media client_broken (media_msg 9 "document" doc_pdf)
             (cfg_media_types cfg1) formats_all w_empty in
  run (attempt client_broken (cfg_media_types cfg1) formats_all
         (media_msg 9 "document" doc_pdf)) (w_empty, None)
  = (st1, Raise OtherException) /\
  FAILED_IDS (fst r) = [9] /\ trace (fst r) = trace (fst st1) /\
  snd r = Ok 9.
Proof.
  cbv zeta. split; [vm_compute; reflexivity|].
  destruct (proj2 (unclassified_error_no_retry client_broken
                     (media_msg 9 "document" doc_pdf) (cfg_media_types cfg1)
                     formats_all)
              w_empty
              ({| FAILED_IDS := [];
                  trace := [EDownload (TMessage 9)
                              "/srv/tmd/chan/document/1700000000-paper.pdf"] |},
               None)
              ltac:(vm_compute; reflexivity))
    as [Hr [HF [HT _]]].
  split; [exact HF|]. split; [exact HT|]. now rewrite Hr.
Defined.

Lemma format_filter_admission_witness :
  formats_pdf_zip "document" = Some ["pdf"; "zip"] /\
  (_can_download "document" formats_pdf_zip (Some "pdf") = Ok true
   <-> In "pdf" ["pdf"; "zip"] \/ hd_error ["pdf"; "zip"] = Some "all") /\
  (_can_download "document" formats_pdf_zip (Some "exe") = Ok false
   <-> ~ In "exe" ["pdf"; "zip"] /\ hd_error ["pdf"; "zip"] <> Some "all") /\
  run (handle_type client_fine (media_msg 4 "document" doc_exe)
         formats_pdf_zip "document") (w_empty, None)
  = ((w_empty, None), Ok tt) /\
  download_media client_fine (media_msg 4 "document" doc_exe)
    (["audio"] ++ "document" :: ["photo"; "video"; "voice"]) formats_pdf_zip
    w_empty
  = (w_empty, Ok 4).
Proof.
  split; [reflexivity|].
  destruct (format_filter_admission client_fine
              (media_msg 4 "document" doc_exe) formats_pdf_zip "document")
    as [Hiff [_ [_ Hrej]]].
  assert (Hne : ["pdf"; "zip"] <> @nil string) by discriminate.
  split; [apply (Hiff ["pdf"; "zip"] "pdf" eq_refl eq_refl Hne)|].
  split; [apply (Hiff ["pdf"; "zip"] "exe" eq_refl eq_refl Hne)|].
  destruct (Hrej ["pdf"; "zip"] doc_exe
              ("/srv/tmd/chan/document/1700000000-setup", Some "exe")
              eq_refl eq_refl Hne) as [H1 H2].
  - discriminate.
  - reflexivity.
  - reflexivity.
  - intros f E. inversion E. subst f.
    intros [H|[H|[]]]; discriminate.
  - split; [apply H1|].
    apply (H2 ["audio"] ["photo"; "video"; "voice"] w_empty); reflexivity.
Defined.

Lemma cursor_non_decreasing_witness :
  refetch_by_id client_fine /\
  StronglySorted Z.lt (map message_id stream3) /\
  let l := fst (begin_import client_fine stream3 cfg1 2 false w_empty) in
  StronglySorted Z.le (cursors l) /\ cursors l = [2; 3] /\
  last_read_message_id l = 3.
Proof.
  split; [apply client_of_refetch|]. split; [exact stream3_sorted|].
  cbv zeta.
  destruct (cursor_non_decreasing client_fine stream3 cfg1 2 false w_empty
              (client_of_refetch _ _) stream3_sorted) as [Hc [Hl _]].
  split; [exact Hc|]. split; reflexivity.
Defined.

Lemma begin_import_no_empty_page_witness :
  1 <> 0 /\
  refetch_by_id client_fine /\ refetch_returns client_fine /\
  no_empty_call (fst (begin_import client_fine stream3 cfg1 1 false w_empty)) /\
  snd (begin_import client_fine stream3 cfg1 1 false w_empty) = None.
Proof.
  split; [lia|]. split; [apply client_of_refetch|].
  split; [apply client_of_returns|].
  destruct (begin_import_no_empty_page client_fine stream3 cfg1 1 false
              w_empty) as [H1 [_ H2]]; [lia|].
  split; [exact H1|].
  apply H2; [apply client_of_refetch | apply client_of_returns].
Defined.

(** ** The further properties at concrete inputs *)

Lemma failure_recorded_at_most_once_witness :
  refetch_by_id client_stale /\
  let r := download_media client_stale (media_msg 7 "document" doc_pdf)
             (cfg_media_types cfg1) formats_all w_empty in
  (FAILED_IDS (fst r) = FAILED_IDS w_empty \/
   FAILED_IDS (fst r) = (FAILED_IDS w_empty ++ [7])%list).
Proof.
  split; [apply client_of_refetch|].
  apply (failure_recorded_at_most_once client_stale
           (media_msg 7 "document" doc_pdf) (cfg_media_types cfg1)
           formats_all w_empty).
  apply client_of_refetch.
Defined.

Lemma nothing_to_download_witness :
  media (plain_msg 42) = false /\
  download_media client_fine (plain_msg 42) (cfg_media_types cfg1)
    formats_all w_empty = (w_empty, Ok 42).
Proof.
  split; [reflexivity|].
  apply (nothing_to_download client_fine (plain_msg 42)
           (cfg_media_types cfg1) formats_all w_empty).
  left. reflexivity.
Defined.

Lemma transient_exhausted_witness :
  let C := client_of (Raise TypeError) false in
  let r := download_media C (media_msg 8 "document" doc_pdf)
             (cfg_media_types cfg1) formats_all w_empty in
  transient_attempts C (cfg_media_types cfg1) formats_all 3
    (media_msg 8 "document" doc_pdf) (w_empty, None) /\
  FAILED_IDS (fst r) = [8] /\ snd r = Ok 8 /\
  sleeps (trace (fst r)) = [ESleep 5; ESleep 5; ESleep 5].
Proof.
  cbv zeta.
  assert (H : transient_attempts (client_of (Raise TypeError) false)
                (cfg_media_types cfg1) formats_all 3
                (media_msg 8 "document" doc_pdf) (w_empty, None)).
  { vm_compute. repeat split; reflexivity. }
  split; [exact H|].
  destruct (transient_exhausted (client_of (Raise TypeError) false)
              (media_msg 8 "document" doc_pdf) (cfg_media_types cfg1)
              formats_all w_empty H) as [HF [Hid [HS _]]].
  split; [exact HF|]. split; [exact Hid | exact HS].
Defined.

Lemma untyped_media_fails_at_once_witness :
  mime_type doc_untyped = Has None /\
  download_media client_fine (media_msg 6 "document" doc_untyped)
    (cfg_media_types cfg1) formats_all w_empty
  = (record_failure 6 w_empty, Ok 6).
Proof.
  split; [reflexivity|].
  apply (proj2 (untyped_media_fails_at_once client_fine
                  (media_msg 6 "document" doc_untyped) (cfg_media_types cfg1)
                  formats_all w_empty "document" doc_untyped
                  eq_refl eq_refl eq_refl eq_refl (or_intror eq_refl))).
Defined.

Lemma filter_raises_iff_witness :
  formats_none "document" = None /\
  _can_download "document" formats_none (Some "pdf") = Raise OtherException.
Proof.
  split; [reflexivity|].
  apply (proj2 (filter_raises_iff "document" formats_none (Some "pdf")
                  OtherException)).
  split; [reflexivity|]. split; [reflexivity|]. left. reflexivity.
Defined.

Lemma missing_allow_list_fails_at_once_witness :
  formats_empty "document" = Some [] /\
  download_media client_fine (media_msg 6 "document" doc_pdf)
    (cfg_media_types cfg1) formats_empty w_empty
  = (record_failure 6 w_empty, Ok 6).
Proof.
  split; [reflexivity|].
  apply (missing_allow_list_fails_at_once client_fine
           (media_msg 6 "document" doc_pdf) (cfg_media_types cfg1)
           formats_empty w_empty "document" doc_pdf
           ("/srv/tmd/chan/document/1700000000-paper", Some "pdf"));
    try reflexivity.
  right. reflexivity.
Defined.

Lemma resolver_type_error_exhausts_retries_witness :
  _get_media_meta (names client_fine) voice_undated "voice" = Raise TypeError /\
  download_media client_fine (media_msg 6 "voice" voice_undated)
    (cfg_media_types cfg1) formats_all w_empty
  = ({| FAILED_IDS := [6]; trace := [ESleep 5; ESleep 5; ESleep 5] |}, Ok 6).
Proof.
  split; [reflexivity|].
  apply (resolver_type_error_exhausts_retries client_fine
           (media_msg 6 "voice" voice_undated) (cfg_media_types cfg1)
           formats_all w_empty "voice" voice_undated); reflexivity.
Defined.

Lemma thumbnails_share_one_name_witness :
  (forall tr t, exists p,
      client_download_media client_fine tr (TThumb t) "clip.jpg" = Ok p) /\
  trace (fst (fst (run (download_thumbs client_fine ["th1"; "th2"] "clip.jpg")
                     (w_empty, None))))
  = [EDownload (TThumb "th1") "clip.jpg"; EDownload (TThumb "th2") "clip.jpg"].
Proof.
  assert (H : forall tr t, exists p,
               client_download_media client_fine tr (TThumb t) "clip.jpg"
               = Ok p).
  { intros tr t. exists (Some "saved"). reflexivity. }
  split; [exact H|].
  apply (proj2 (proj2 (thumbnails_share_one_name client_fine ["th1"; "th2"]
                         "clip.jpg" H (w_empty, None)))).
Defined.

Lemma video_without_thumbnails_fails_witness :
  thumbs video_no_thumbs = Some [] /\
  download_media client_fine (media_msg 6 "video" video_no_thumbs)
    (cfg_media_types cfg1) formats_all w_empty
  = (record_failure 6 w_empty, Ok 6).
Proof.
  split; [reflexivity|].
  apply (video_without_thumbnails_fails client_fine
           (media_msg 6 "video" video_no_thumbs) (cfg_media_types cfg1)
           formats_all w_empty video_no_thumbs
           "/srv/tmd/chan/video/1700000000-clip" "mp4"); reflexivity.
Defined.

Lemma soft_failure_is_not_recorded_witness :
  client_download_media client_soft [] (TMessage 6)
    "/srv/tmd/chan/document/1700000000-paper.pdf" = Ok None /\
  download_media client_soft (media_msg 6 "document" doc_pdf)
    (["audio"] ++ "document" :: ["photo"; "video"; "voice"]) formats_all
    w_empty
  = (emit (EDownload (TMessage 6)
             "/srv/tmd/chan/document/1700000000-paper.pdf") w_empty, Ok 6).
Proof.
  split; [reflexivity|].
  apply (soft_failure_is_not_recorded client_soft
           (media_msg 6 "document" doc_pdf) ["audio"]
           ["photo"; "video"; "voice"] formats_all w_empty "document" doc_pdf
           "/srv/tmd/chan/document/1700000000-paper" "pdf" None);
    reflexivity.
Defined.

Lemma media_file_name_witness :
  or_opt (file_name doc_pdf) (file_unique_id doc_pdf) = Some "paper" /\
  _get_media_meta env1 doc_pdf "document"
  = Ok (os_path_join "/srv/tmd" ["chan"; "document"]
          ++ "/" ++ "1700000000" ++ "-" ++ "paper", Some "pdf").
Proof.
  split; [reflexivity|].
  apply (media_file_name env1 doc_pdf "document" "application/pdf" "paper");
    reflexivity.
Defined.

Lemma voice_file_name_witness :
  utc_isoformat (names client_fine) 1700000000 = Ok "2023-11-14T22:13:20" /\
  _get_media_meta (names client_fine) voice1 "voice"
  = Ok ("/srv/tmd/chan/voice/voice_2023-11-14T22:13:20.ogg", Some "ogg") /\
  run (handle_type client_fine (media_msg 6 "voice" voice1) formats_all
         "voice") (w_empty, None)
  = ((emit (EDownload (TMessage 6)
              "/srv/tmd/chan/voice/voice_2023-11-14T22:13:20.ogg.ogg")
        w_empty, Some (Some "saved")), Ok tt).
Proof.
  split; [reflexivity|].
  destruct (voice_file_name client_fine (media_msg 6 "voice" voice1)
              formats_all voice1 "audio/ogg" "2023-11-14T22:13:20" 1700000000
              eq_refl eq_refl eq_refl) as [H1 H2].
  split; [exact H1|].
  apply (H2 (w_empty, None) (Some "saved")); reflexivity.
Defined.

Lemma resolved_format_witness :
  _get_media_meta env1 doc_pdf "document"
  = Ok ("/srv/tmd/chan/document/1700000000-paper", Some "pdf") /\
  exists m,
    mime_type doc_pdf = Has (Some m) /\ "pdf" = split_last m /\
    has_slash "pdf" = false /\
    (m = "pdf" \/ exists p, m = p ++ String "/" "pdf").
Proof.
  split; [reflexivity|].
  apply (resolved_format env1 doc_pdf "document"
           "/srv/tmd/chan/document/1700000000-paper" "pdf").
  reflexivity.
Defined.

Lemma photo_name_witness :
  mime_type photo_mimed <> Absent /\
  file_name photo_mimed = None /\
  _get_media_meta env1 photo_mimed "photo"
  = Ok ((os_path_join "/srv/tmd" ["chan"; "photo"] ++ "/" ++ "1700000000")
          ++ "abc123" ++ ".jpg", None).
Proof.
  split; [discriminate|]. split; [reflexivity|].
  apply (photo_name env1 photo_mimed); [discriminate | reflexivity].
Defined.

Lemma process_messages_fails_iff_empty_witness :
  refetch_by_id client_broken /\ refetch_returns client_broken /\
  snd (process_messages client_broken [] (cfg_media_types cfg1) formats_all
         w_empty) = inr MaxOfEmpty /\
  ((exists f, snd (process_messages client_broken page_mixed
                     (cfg_media_types cfg1) formats_all w_empty) = inr f)
   <-> page_mixed = []).
Proof.
  split; [apply client_of_refetch|]. split; [apply client_of_returns|].
  split.
  - apply (proj2 (proj1 (process_messages_fails_iff_empty client_broken []
                           (cfg_media_types cfg1) formats_all w_empty))).
    reflexivity.
  - apply (proj2 (process_messages_fails_iff_empty client_broken page_mixed
                    (cfg_media_types cfg1) formats_all w_empty)).
    + apply client_of_refetch.
    + apply client_of_returns.
Defined.


Lemma negative_limit_single_page_witness :
  -1 < 0 /\
  calls (fst (begin_import client_fine stream3 cfg1 (-1) false w_empty))
  = [stream3].
Proof.
  split; [lia|].
  apply (negative_limit_single_page client_fine stream3 cfg1 (-1) false
           w_empty).
  lia.
Defined.

Lemma main_processes_two_messages_witness :
  snd (main_import client_fine stream3 cfg1 w_empty) = None /\
  calls (fst (main_import client_fine stream3 cfg1 w_empty))
  = [[plain_msg 1]; [plain_msg 2]].
Proof.
  split; [reflexivity|].
  apply (proj1 (proj2 (main_processes_two_messages client_fine stream3 cfg1
                         w_empty))).
  reflexivity.
Defined.

Lemma final_cursor_is_last_id_witness :
  refetch_by_id client_fine /\
  StronglySorted Z.lt (map message_id stream3) /\
  snd (begin_import client_fine stream3 cfg1 2 false w_empty) = None /\
  last_read_message_id
    (fst (begin_import client_fine stream3 cfg1 2 false w_empty))
  = 3.
Proof.
  split; [apply client_of_refetch|]. split; [exact stream3_sorted|].
  split; [reflexivity|].
  apply (final_cursor_is_last_id client_fine stream3 cfg1 2 w_empty
           (client_of_refetch _ _) stream3_sorted);
    [lia | discriminate | reflexivity].
Defined.

Lemma chat_id_before_first_dot_witness :
  str_find "." "my_channel" = -1 /\
  chat_id_of "my_channel.v2.yaml" = "my_channel".
Proof.
  split; [reflexivity|].
  apply (chat_id_before_first_dot "my_channel" "v2.yaml"). reflexivity.
Defined.

Lemma chat_id_without_dot_witness :
  str_find "." "my_channel" = -1 /\ chat_id_of "my_channel" = "my_channe".
Proof.
  split; [reflexivity|].
  apply (chat_id_without_dot "my_channe" "l"). reflexivity.
Defined.

Lemma config_filename_cases_witness :
  config_filename ["media_downloader.py"; "chan.yaml"] = "chan.yaml" /\
  config_filename ["media_downloader.py"; ""] = "config.yaml" /\
  config_filename ["media_downloader.py"] = "config.yaml".
Proof.
  split; [|split].
  - apply (proj1 (proj2 (config_filename_cases
                           ["media_downloader.py"; "chan.yaml"]))
             "media_downloader.py" "chan.yaml" []);
      [reflexivity | discriminate].
  - apply (proj1 (proj2 (proj2 (config_filename_cases
                                  ["media_downloader.py"; ""])))
             "media_downloader.py" []). reflexivity.
  - apply (proj2 (proj2 (proj2 (config_filename_cases
                                  ["media_downloader.py"])))).
    cbn. lia.
Defined.

Lemma page_length_bound_witness :
  0 <= 2 /\
  Forall (fun page : list Message => Z.of_nat (List.length page) <= 2 + 1)
    (calls (fst (begin_import client_fine stream3 cfg1 2 false w_empty))).
Proof.
  split; [lia|].
  apply (page_length_bound client_fine stream3 cfg1 2 false w_empty). lia.
Defined.

Lemma page_failures_witness :
  refetch_by_id client_broken /\
  exists added,
    FAILED_IDS (fst (process_messages client_broken page_mixed
                       (cfg_media_types cfg1) formats_all w_empty))
    = (FAILED_IDS w_empty ++ added)%list /\
    (forall x, (count_occ Z.eq_dec added x
                <= count_occ Z.eq_dec (map message_id page_mixed) x)%nat) /\
    incl added (map message_id page_mixed) /\
    (NoDup (map message_id page_mixed) -> NoDup added).
Proof.
  split; [apply client_of_refetch|].
  apply (page_failures client_broken page_mixed (cfg_media_types cfg1)
           formats_all w_empty).
  apply client_of_refetch.
Defined.

Lemma run_failures_witness :
  refetch_by_id client_broken /\
  exists added,
    FAILED_IDS (world (fst (begin_import client_broken page_mixed cfg1 2
                              false w_empty)))
    = (FAILED_IDS w_empty ++ added)%list /\
    (forall x, (count_occ Z.eq_dec added x
                <= count_occ Z.eq_dec (map message_id page_mixed) x)%nat) /\
    incl added (map message_id page_mixed) /\
    (NoDup (map message_id page_mixed) -> NoDup added).
Proof.
  split; [apply client_of_refetch|].
  apply (run_failures client_broken page_mixed cfg1 2 false w_empty).
  apply client_of_refetch.
Defined.
